(** * Tapered-beam touch pipeline: filters.py and process_touches.py

    A shallow embedding of the raw-sample decoder, the touch extractor, the
    two de-duplication filters and the batch driver, with the properties the
    specification states about them.

    Numbers.  The numpy arrays hold float64 values.  Time stamps, start times
    and durations are modelled as exact integers counted in milliseconds
    (so 0.150 s is 150), channels and indices as integers; rounding of the
    floating point representation is outside this model.

    Sorting.  [np.argsort] is modelled by a stable insertion sort on the key
    column, which is what numpy's default sort does on short arrays; numpy
    leaves the order of equal keys unspecified in general.  Statements that
    depend on the order of equal keys say so. *)

From stdpp Require Import base gmap.
From Stdlib Require Import Strings.String.
From Stdlib Require Import ZArith List Lia Bool Permutation Sorted.
Import Init.Datatypes.
Import ListNotations.
Local Open Scope Z_scope.

(** ** Data model *)

(** One row of the [touches] array: columns index, channel, start time and
    duration. *)
Record touch := mkTouch {
  t_index : Z;
  t_ch : Z;
  t_time : Z;
  t_dur : Z
}.

Definition start_ch : Z := 47.
Definition finish_ch : Z := 0.

Definition touch_eqb (a b : touch) : bool :=
  (t_index a =? t_index b) && (t_ch a =? t_ch b) &&
  (t_time a =? t_time b) && (t_dur a =? t_dur b).

(** Outcome of a loop of the program: it finishes with a value, it raises
    (an index or key that does not exist), or the model ran out of fuel. *)
Inductive run (A : Type) : Type :=
| Done (a : A)
| Raised
| OutOfFuel.
Arguments Done {A} a.
Arguments Raised {A}.
Arguments OutOfFuel {A}.

(** [np.delete(arr, i, 0)]: the array without row [i]; an index past the end
    raises. *)
Definition np_delete {A : Type} (arr : list A) (i : nat) : option (list A) :=
  if (i <? length arr)%nat then Some (firstn i arr ++ skipn (S i) arr) else None.

(** Rows are handed on in start-time order. *)
Definition time_le (a b : touch) : Prop := t_time a <= t_time b.
Definition time_ordered (l : list touch) : Prop := Sorted time_le l.

(** ** filters.double_electrode *)

Module DoubleElectrode.

(** [subarray[np.where(subarray[:,2] <= touches[row][2] + 0.150)]] *)
Definition within_time (e : touch) (subarray : list touch) : list touch :=
  List.filter (fun o => t_time o <=? t_time e + 150) subarray.

(** [abs(ch_1 - ch_2) == 2 and (ch_1 and ch_2 not in [0,47])]: Python reads the
    parenthesis as [ch_1 and (ch_2 not in [0,47])], the truth value of [ch_1]
    (non-zero) together with the membership test on [ch_2] alone. *)
Definition adjacent (ch_1 ch_2 : Z) : bool :=
  (Z.abs (ch_1 - ch_2) =? 2) &&
  (negb (ch_1 =? 0) && negb ((ch_2 =? 0) || (ch_2 =? 47))).

(** The inner [for row2] loop up to its first [break]: the first row of
    [within_time] that passes the test, with its position. *)
Fixpoint first_adjacent (ch_1 : Z) (wt : list touch) (row2 : nat)
  : option (nat * touch) :=
  match wt with
  | [] => None
  | o :: wt' =>
      if adjacent ch_1 (t_ch o) then Some (row2, o)
      else first_adjacent ch_1 wt' (S row2)
  end.

(** What one pass of the outer [for row] loop does. *)
Inductive scan_outcome : Type :=
| NoDeletion
| Deleted (gone : touch) (rest : list touch)
| ScanRaised.

(** The outer loop [for row in range(len(touches))], from [row] on, with [n]
    rows left to visit. *)
Fixpoint for_rows (touches : list touch) (row n : nat) : scan_outcome :=
  match n with
  | O => NoDeletion
  | S n' =>
      match nth_error touches row with
      | None => ScanRaised
      | Some e =>
          let subarray := skipn (S row) touches in
          match first_adjacent (t_ch e) (within_time e subarray) 0 with
          | Some (row2, o) =>
              if t_ch e <? t_ch o then
                match np_delete touches row with
                | Some rest => Deleted e rest
                | None => ScanRaised
                end
              else
                match np_delete touches (row + row2 + 1) with
                | Some rest => Deleted o rest
                | None => ScanRaised
                end
          | None => for_rows touches (S row) n'
          end
      end
  end.

Definition scan (touches : list touch) : scan_outcome :=
  for_rows touches 0 (length touches).

(** The [while True] loop; [deleted] grows by [np.vstack] at its end. *)
Fixpoint loop (fuel : nat) (touches deleted : list touch)
  : run (list touch * list touch) :=
  match fuel with
  | O => OutOfFuel
  | S fuel' =>
      match scan touches with
      | NoDeletion => Done (touches, deleted)
      | Deleted gone rest => loop fuel' rest (deleted ++ [gone])
      | ScanRaised => Raised
      end
  end.

(** [double_electrode(touches)] returns [(no_de, deleted)].  Each pass but the
    last removes a row, so one more pass than there are rows is enough
    ([loop_fuel] below shows that more fuel changes nothing). *)
Definition double_electrode (touches : list touch)
  : run (list touch * list touch) :=
  loop (S (length touches)) touches [].

End DoubleElectrode.

(** ** numpy helpers used by filters.repeated_touches *)

(** [arr[np.argsort(arr[:,2])]]: rows in ascending start time, rows with the
    same start time in their previous order. *)
Fixpoint insert_by_time (x : touch) (l : list touch) : list touch :=
  match l with
  | [] => [x]
  | y :: l' =>
      if t_time x <=? t_time y then x :: l else y :: insert_by_time x l'
  end.

Definition argsort_time (arr : list touch) : list touch :=
  fold_right insert_by_time [] arr.

(** [np.unique]: the distinct values in ascending order. *)
Fixpoint insert_unique (c : Z) (l : list Z) : list Z :=
  match l with
  | [] => [c]
  | x :: l' =>
      if c <? x then c :: l
      else if c =? x then l
      else x :: insert_unique c l'
  end.

Definition np_unique (values : list Z) : list Z :=
  fold_right insert_unique [] values.

(** [arr[np.where(arr[:,1] == ch)]] *)
Definition on_channel (ch : Z) (arr : list touch) : list touch :=
  List.filter (fun x => t_ch x =? ch) arr.

(** ** filters.repeated_touches *)

Module RepeatedTouches.

(** Channels on which more than one touch occurred, in [np.unique] order. *)
Definition repeated_touched_channels (touches : list touch) : list Z :=
  List.filter (fun c => (1 <? length (on_channel c touches))%nat)
              (np_unique (map t_ch touches)).

(** [np.in1d(touches[:,1], repeated_touched_channels)] for one row. *)
Definition mask (chs : list Z) (x : touch) : bool :=
  existsb (fun c => t_ch x =? c) chs.

(** What one run of the [for row] loop over a channel's rows does. *)
Inductive pass_outcome : Type :=
| DeletedRow (gone : touch) (rest : list touch)
| Stop
| Exhausted
| PassRaised.

(** [for row in range(len(subarray))], from [row] on, [n] rows left.  The
    rows are in descending start time, so [subarray[row]] is the later touch
    of the pair and [subarray[row+1]] the earlier one. *)
Fixpoint for_rows (thr : Z) (subarray : list touch) (row n : nat)
  : pass_outcome :=
  match n with
  | O => Exhausted
  | S n' =>
      match nth_error subarray row, nth_error subarray (S row) with
      | Some a, Some b =>
          if t_time a - t_time b <=? thr then
            if (t_dur a <? t_dur b) || (t_ch a =? 47) then
              match np_delete subarray row with
              | Some rest => DeletedRow a rest
              | None => PassRaised
              end
            else if (t_dur a >=? t_dur b) || (t_ch a =? 0) then
              match np_delete subarray (S row) with
              | Some rest => DeletedRow b rest
              | None => PassRaised
              end
            else for_rows thr subarray (S row) n'
          else if Z.of_nat row =? Z.of_nat (length subarray) - 2 then Stop
          else for_rows thr subarray (S row) n'
      | _, _ => PassRaised
      end
  end.

(** [while len(subarray) > 1 and stop == False] for one channel; the state is
    the channel's remaining rows and the two result arrays. *)
Fixpoint channel_loop (thr : Z) (fuel : nat)
    (subarray no_rt deleted : list touch) : run (list touch * list touch) :=
  match fuel with
  | O => OutOfFuel
  | S fuel' =>
      if (1 <? length subarray)%nat then
        match for_rows thr subarray 0 (length subarray) with
        | DeletedRow gone rest =>
            channel_loop thr fuel' rest
              (if (length rest <? 2)%nat then no_rt ++ rest else no_rt)
              (deleted ++ [gone])
        | Stop => Done (no_rt ++ subarray, deleted)
        | Exhausted => channel_loop thr fuel' subarray no_rt deleted
        | PassRaised => Raised
        end
      else Done (no_rt, deleted)
  end.

(** [for ch in repeated_touched_channels] *)
Fixpoint for_channels (thr : Z) (chs : list Z) (rt no_rt deleted : list touch)
  : run (list touch * list touch) :=
  match chs with
  | [] => Done (no_rt, deleted)
  | ch :: chs' =>
      let subarray := on_channel ch rt in
      match channel_loop thr (S (length subarray)) subarray no_rt deleted with
      | Done (no_rt', deleted') => for_channels thr chs' rt no_rt' deleted'
      | Raised => Raised
      | OutOfFuel => OutOfFuel
      end
  end.

(** [repeated_touches(touches, repeated_touch_threshold)] returns
    [(no_rt, deleted)]. *)
Definition repeated_touches (touches : list touch) (thr : Z)
  : run (list touch * list touch) :=
  let chs := repeated_touched_channels touches in
  let rt := rev (argsort_time (List.filter (mask chs) touches)) in
  let no_rt := List.filter (fun x => negb (mask chs x)) touches in
  match for_channels thr chs rt no_rt [] with
  | Done (no_rt', deleted) =>
      Done (argsort_time no_rt', argsort_time deleted)
  | Raised => Raised
  | OutOfFuel => OutOfFuel
  end.

End RepeatedTouches.

(** ** process_touches.py *)

Module ProcessTouches.

(** One line of a [_raw.txt] file as [np.genfromtxt] reads it: the time stamp
    and one integer per MPR121 sensor. *)
Record raw_row := mkRaw {
  r_time : Z;
  r_masks : list Z
}.

(** One row of [newdata]: the time stamp and the touch status of each
    channel.  The cells are the digits 0 and 1 of a binary numeral, kept as
    booleans: [== 1] is [true], [== 0] is [false]. *)
Record sample := mkSample {
  s_time : Z;
  s_bits : list bool
}.

(** The command line: [-t/--threshold] and [-nf/--no_filter]. *)
Record args := mkArgs {
  arg_threshold : option Z;
  arg_no_filter : bool
}.

(** [if args.threshold:] is the truth value of the option: absent and 0 are
    both false. *)
Definition threshold_given (a : args) : bool :=
  match arg_threshold a with
  | Some t => negb (t =? 0)
  | None => false
  end.

(** [threshold]: the user's value, else 0.1 s. *)
Definition threshold (a : args) : Z :=
  match arg_threshold a with
  | Some t => if t =? 0 then 100 else t
  | None => 100
  end.

(** *** Sample decoder *)

(** Binary digits of a positive number, least significant first. *)
Fixpoint pos_digits (p : positive) : list bool :=
  match p with
  | xH => [true]
  | xO p' => false :: pos_digits p'
  | xI p' => true :: pos_digits p'
  end.

(** [format(n, '#014b')[2:]]: the binary numeral of [n] behind the [0b] prefix,
    most significant digit first, padded with zeros to 12 digits and longer
    when [n] needs more.  For a negative [n] the text starts with [-0b], the
    slice keeps the letter [b] and [int] raises on it. *)
Definition format_014b (n : Z) : option (list bool) :=
  match n with
  | Z0 => Some (repeat false 12)
  | Zpos p =>
      let digits := rev (pos_digits p) in
      Some (repeat false (12 - length digits) ++ digits)
  | Zneg _ => None
  end.

(** [list(reversed([int(d) for d in ...]))] for one sensor. *)
Definition decode_mask (n : Z) : option (list bool) :=
  match format_014b n with
  | Some digits => Some (rev digits)
  | None => None
  end.

(** [touch_list] after the loop over the sensors of one row. *)
Fixpoint touch_list (masks : list Z) : option (list bool) :=
  match masks with
  | [] => Some []
  | m :: masks' =>
      match decode_mask m, touch_list masks' with
      | Some bits, Some rest => Some (bits ++ rest)
      | _, _ => None
      end
  end.

(** One row of the rearranging loop over the [n_MPR121s] mask columns;
    [newdata[row][1:ncols] = touch_list] raises when the list does not fill
    the [ncols - 1] cells.  Every row of the array has the [n_MPR121s] mask
    columns: [np.genfromtxt] raises on a line with another number of
    columns, and so does this loop on a row of another width. *)
Definition decode_row (n_MPR121s : nat) (r : raw_row) : option sample :=
  if (length (r_masks r) =? n_MPR121s)%nat then
    match touch_list (r_masks r) with
    | Some bits =>
        if (length bits =? n_MPR121s * 12)%nat
        then Some (mkSample (r_time r) bits)
        else None
    | None => None
    end
  else None.

Fixpoint decode (n_MPR121s : nat) (data : list raw_row) : option (list sample) :=
  match data with
  | [] => Some []
  | r :: data' =>
      match decode_row n_MPR121s r, decode n_MPR121s data' with
      | Some s, Some rest => Some (s :: rest)
      | _, _ => None
      end
  end.

(** *** Touch extractor *)

(** Lines appended to [log.txt]. *)
Inductive log_entry : Type :=
| LogFirstTouch (ch : nat)
| LogWarning (ch time dur : Z)
| LogDelete (ch time dur thr : Z)
| LogRepeated (ch time dur : Z)
| LogDouble (ch time ch_2 : Z).

(** The scanning state: the [touches] array, the [temp] dictionary of open
    touches and the log lines written so far. *)
Record state := mkState {
  st_touches : list touch;
  st_temp : gmap nat Z;
  st_log : list log_entry
}.

Definition touched (s : sample) (ch : nat) : bool := nth ch (s_bits s) false.

(** The body of [for ch in range(ncols-1)] at row number [row], between the
    previous sample and the current one; [None] is the [KeyError] of
    [temp[ch]]. *)
Definition cell (a : args) (start : Z) (row : nat) (prev cur : sample)
    (ch : nat) (st : state) : option state :=
  if touched cur ch && negb (touched prev ch) then
    let log1 :=
      if (row =? 1)%nat && negb (Z.of_nat ch =? start_ch)
      then st_log st ++ [LogFirstTouch ch] else st_log st in
    let time := s_time cur - start in
    Some (mkState (st_touches st) (<[ch := time]> (st_temp st)) log1)
  else if negb (touched cur ch) && touched prev ch then
    match st_temp st !! ch with
    | None => None
    | Some t0 =>
        let released := s_time cur - start in
        let duration := released - t0 in
        let c := Z.of_nat ch in
        if (duration <? threshold a) && ((finish_ch <? c) && (c <? start_ch))
        then
          if threshold_given a then
            Some (mkState (st_touches st) (delete ch (st_temp st))
                    (st_log st ++ [LogDelete c t0 duration (threshold a)]))
          else
            Some (mkState (st_touches st ++ [mkTouch 0 c t0 duration])
                    (delete ch (st_temp st))
                    (st_log st ++ [LogWarning c t0 duration]))
        else
          Some (mkState (st_touches st ++ [mkTouch 0 c t0 duration])
                  (delete ch (st_temp st)) (st_log st))
    end
  else Some st.

(** [for ch in range(ncols-1)] over the channels [chs]. *)
Fixpoint for_ch (a : args) (start : Z) (row : nat) (prev cur : sample)
    (chs : list nat) (st : state) : option state :=
  match chs with
  | [] => Some st
  | ch :: chs' =>
      match cell a start row prev cur ch st with
      | Some st' => for_ch a start row prev cur chs' st'
      | None => None
      end
  end.

(** [for row in range(1,nrows)]: [prev] is [newdata[row-1]] and [rows] are
    the samples from [newdata[row]] on. *)
Fixpoint for_row (a : args) (start : Z) (nch : nat) (row : nat)
    (prev : sample) (rows : list sample) (st : state) : option state :=
  match rows with
  | [] => Some st
  | cur :: rows' =>
      match for_ch a start row prev cur (seq 0 nch) st with
      | Some st' => for_row a start nch (S row) cur rows' st'
      | None => None
      end
  end.

(** [sum(newdata[0][1:ncols]) != 0] *)
Definition first_row_touched (s : sample) : bool :=
  existsb (fun b => b) (s_bits s).

(** *** One file *)

Inductive fatal : Type :=
| NoTouchesDetected
| TouchedAtStart.

(** How the processing of one file ends: an error message and [sys.exit(1)],
    an exception that nothing catches, or the [_touches] table written, with
    the lines logged for the file and what is left in [temp] (which the
    script does not look at again). *)
Inductive file_outcome : Type :=
| Exit1 (cause : fatal)
| Crashed
| Saved (touches : list touch) (log : list log_entry) (temp : gmap nat Z).

(** [deleted.any()] *)
Definition any (arr : list touch) : bool :=
  existsb (fun x => negb ((t_index x =? 0) && (t_ch x =? 0)
                          && (t_time x =? 0) && (t_dur x =? 0))) arr.

Definition log_repeated (deleted : list touch) : list log_entry :=
  if any deleted
  then map (fun x => LogRepeated (t_ch x) (t_time x) (t_dur x)) deleted
  else [].

Definition log_double (deleted : list touch) : list log_entry :=
  if any deleted
  then map (fun x => LogDouble (t_ch x) (t_time x) (t_ch x + 2)) deleted
  else [].

(** [touches[:,0] = [d+1 for d in range(touch_numbers)]] *)
Fixpoint renumber (from : Z) (touches : list touch) : list touch :=
  match touches with
  | [] => []
  | x :: touches' =>
      mkTouch from (t_ch x) (t_time x) (t_dur x) :: renumber (from + 1) touches'
  end.

(** The filtering block under [if not args.no_filter]. *)
Definition filter_touches (a : args) (touches : list touch)
  : run (list touch * list log_entry) :=
  if arg_no_filter a then Done (touches, [])
  else
    match RepeatedTouches.repeated_touches touches 150 with
    | Done (no_rt, deleted_rt) =>
        match DoubleElectrode.double_electrode no_rt with
        | Done (no_de, deleted_de) =>
            Done (no_de, log_repeated deleted_rt ++ log_double deleted_de)
        | Raised => Raised
        | OutOfFuel => OutOfFuel
        end
    | Raised => Raised
    | OutOfFuel => OutOfFuel
    end.

(** The extraction loop on decoded samples, from the empty [touches] and
    [temp]: the state after the last row. *)
Definition extract (a : args) (nch : nat) (newdata : list sample)
  : option state :=
  match newdata with
  | [] => Some (mkState [] ∅ [])
  | first :: rows =>
      for_row a (s_time first) nch 1 first rows (mkState [] ∅ [])
  end.

(** [np.shape(temp_data)[1] - 1]: the number of mask columns of the table. *)
Definition n_MPR121s (data : list raw_row) : nat :=
  match data with
  | r :: _ => length (r_masks r)
  | [] => O
  end.

(** [np.genfromtxt] reads the file only when all its lines have the same
    number of columns; otherwise it raises. *)
Definition rectangular (data : list raw_row) : bool :=
  forallb (fun r => (length (r_masks r) =? n_MPR121s data)%nat) data.

(** [np.shape(temp_data)[0]]: for a file of at most one line, and for a file
    of one column (time stamps and no mask), [np.genfromtxt] returns an
    array of fewer than two dimensions, of which [ndmin=2] makes a single
    row. *)
Definition temp_data_rows (data : list raw_row) : nat :=
  if (length data <=? 1)%nat || (n_MPR121s data =? 0)%nat
  then 1%nat else length data.

(** The body of [for filename in file_list] for one raw table. *)
Definition process_file (a : args) (data : list raw_row) : file_outcome :=
  if negb (rectangular data) then Crashed
  else if (temp_data_rows data <=? 1)%nat then Exit1 NoTouchesDetected
  else
    match decode (n_MPR121s data) data with
    | None => Crashed
    | Some newdata =>
        match newdata with
        | [] => Crashed
        | first :: _ =>
            if first_row_touched first then Exit1 TouchedAtStart
            else
              match extract a (n_MPR121s data * 12) newdata with
              | None => Crashed
              | Some st =>
                  match filter_touches a (argsort_time (st_touches st)) with
                  | Done (touches, log2) =>
                      Saved (renumber 1 touches) (st_log st ++ log2) (st_temp st)
                  | Raised => Crashed
                  | OutOfFuel => Crashed
                  end
              end
        end
    end.

(** *** The batch *)

(** What a run of the script leaves behind: the [_touches] tables written,
    the lines of [log.txt], the error messages printed, and how it ended. *)
Inductive exit_status : Type :=
| Finished
| ExitCode1
| Traceback.

Record batch_result := mkBatch {
  b_written : list (string * list touch);
  b_log : list (string * log_entry);
  b_errors : list (string * fatal);
  b_status : exit_status
}.

(** [for filename in file_list]; [sys.exit(1)] leaves the loop and the
    script. *)
Fixpoint for_filename (a : args) (file_list : list (string * list raw_row))
    (written : list (string * list touch)) (log : list (string * log_entry))
  : batch_result :=
  match file_list with
  | [] => mkBatch written log [] Finished
  | (filename, data) :: file_list' =>
      match process_file a data with
      | Exit1 cause => mkBatch written log [(filename, cause)] ExitCode1
      | Crashed => mkBatch written log [] Traceback
      | Saved touches lines _ =>
          for_filename a file_list'
            (written ++ [(filename, touches)])
            (log ++ map (fun l => (filename, l)) lines)
      end
  end.

Definition process_touches (a : args) (file_list : list (string * list raw_row))
  : batch_result :=
  for_filename a file_list [] [].

End ProcessTouches.

(** ** summarize.py: the statistics of one trial *)

Module Summarize.

(** Lines written to the summary log for a trial. *)
Inductive message : Type :=
| NoStartTouch
| NoFinishTouch
| TouchedAfterFinish.

(** One line of the summary: the numbers of foot faults, the traversal time,
    and the time and distance to the first foot fault; [None] is ['nan']. *)
Record stats := mkStats {
  s_total : nat;
  s_left : nat;
  s_right : nat;
  s_trav_time : option Z;
  s_time_to_first : option Z;
  s_dist_to_first : option Z;
  s_messages : list message
}.

(** [for ch, count in zip(unique, counts)]: [summary[0,int(ch)] = count]
    raises for an index outside the 48 columns (a negative index down to -48
    counts from the end); even channels between finish and start add to
    [right], odd ones to [left]. *)
Fixpoint count_faults (touches : list touch) (unique : list Z) (left right : nat)
  : option (nat * nat) :=
  match unique with
  | [] => Some (left, right)
  | ch :: unique' =>
      let count := length (on_channel ch touches) in
      if (-48 <=? ch) && (ch <? 48) then
        if ((finish_ch <? ch) && (ch <? start_ch)) && (ch mod 2 =? 0) then
          count_faults touches unique' left (right + count)
        else if (((finish_ch <? ch) && (ch <? start_ch)) && (1 <? start_ch))
                && (ch mod 2 =? 1) then
          count_faults touches unique' (left + count) right
        else count_faults touches unique' left right
      else None
  end.

(** The traversal time: from the last touch on the start channel to the
    release of the first touch on the finish channel.  Returns the start
    time, the traversal time and the messages logged. *)
Definition traversal (touches : list touch) (t0 : touch)
  : option Z * option Z * list message :=
  match on_channel start_ch touches with
  | [] => (None, None, [NoStartTouch])
  | s0 :: start_rest =>
      let start_time := t_time (last (s0 :: start_rest) s0) in
      match on_channel finish_ch touches with
      | [] => (Some start_time, None, [NoFinishTouch])
      | f0 :: finish_rest =>
          let finish_time := t_time f0 + t_dur f0 in
          let fl := last (f0 :: finish_rest) f0 in
          (Some start_time, Some (finish_time - start_time),
           if t_time fl + t_dur fl <? t_time (last touches t0)
           then [TouchedAfterFinish] else [])
      end
  end.

(** The body of the loop over the trials for one [_touches.txt] table.  An
    empty table has no channel column, and [touches[:,1]] raises. *)
Definition summarize_trial (touches : list touch) : run stats :=
  match touches with
  | [] => Raised
  | t0 :: _ =>
      match count_faults touches (np_unique (map t_ch touches)) 0 0 with
      | None => Raised
      | Some (n_left, n_right) =>
          let total := (n_left + n_right)%nat in
          let '(start_time, trav_time, messages) := traversal touches t0 in
          if negb (total =? 0)%nat then
            let foot_faults :=
              List.filter (fun x => finish_ch <? t_ch x)
                (List.filter (fun x => t_ch x <? start_ch) touches) in
            match foot_faults with
            | [] => Raised
            | ff :: _ =>
                Done (mkStats total n_left n_right trav_time
                        (match start_time with
                         | Some st => Some (t_time ff - st)
                         | None => None
                         end)
                        (Some (100 - (t_ch ff / 2) * 4)) messages)
            end
          else Done (mkStats total n_left n_right trav_time None None messages)
      end
  end.

End Summarize.

(** ** Auxiliary definitions for the proofs *)

(** Rows in descending start time, the order of a channel's rows inside
    [repeated_touches]. *)
Definition time_ge (a b : touch) : Prop := t_time b <= t_time a.

(** No two neighbouring rows start within [thr] of each other. *)
Fixpoint quiet (thr : Z) (l : list touch) : Prop :=
  match l with
  | [] => True
  | a :: l' =>
      match l' with
      | [] => True
      | b :: _ => thr < t_time a - t_time b /\ quiet thr l'
      end
  end.

(** No two rows at all start within [thr] of each other. *)
Definition apart (thr : Z) (a b : touch) : Prop :=
  thr < Z.abs (t_time a - t_time b).
Definition separated (thr : Z) (l : list touch) : Prop :=
  ForallOrdPairs (apart thr) l.

(** The [for row] loop of [repeated_touches] read off the list: [pre] holds
    the rows before [row], [l] the rows from [row] on. *)
Fixpoint pass (thr : Z) (pre l : list touch) : RepeatedTouches.pass_outcome :=
  match l with
  | [] => RepeatedTouches.Exhausted
  | a :: l' =>
      match l' with
      | [] => RepeatedTouches.PassRaised
      | b :: tl =>
          if t_time a - t_time b <=? thr then
            if (t_dur a <? t_dur b) || (t_ch a =? 47) then
              RepeatedTouches.DeletedRow a (pre ++ l')
            else if (t_dur a >=? t_dur b) || (t_ch a =? 0) then
              RepeatedTouches.DeletedRow b (pre ++ a :: tl)
            else pass thr (pre ++ [a]) l'
          else
            match tl with
            | [] => RepeatedTouches.Stop
            | _ :: _ => pass thr (pre ++ [a]) l'
            end
      end
  end.

(** The raw table that a given channel matrix stands for, in the words of the
    specification: bit [i] of the mask of sensor [k] is channel [12k+i]. *)
Fixpoint encode_mask (bits : list bool) : Z :=
  match bits with
  | [] => 0
  | b :: bits' => 2 * encode_mask bits' + Z.b2z b
  end.

Fixpoint encode_row (n_MPR121s : nat) (chans : list bool) : list Z :=
  match n_MPR121s with
  | O => []
  | S n => encode_mask (firstn 12 chans) :: encode_row n (skipn 12 chans)
  end.

Definition encode_sample (n_MPR121s : nat) (s : ProcessTouches.sample)
  : ProcessTouches.raw_row :=
  ProcessTouches.mkRaw (ProcessTouches.s_time s)
                       (encode_row n_MPR121s (ProcessTouches.s_bits s)).

(** [st'] has the touches and log lines of [st] and possibly more after
    them. *)
Definition extends (st st' : ProcessTouches.state) : Prop :=
  (exists t, ProcessTouches.st_touches st' = ProcessTouches.st_touches st ++ t) /\
  (exists l, ProcessTouches.st_log st' = ProcessTouches.st_log st ++ l).

(** The scan seen from one channel: its touches, its entry of [temp] and the
    log lines about it. *)
Record chan_state := mkChan {
  c_touches : list touch;
  c_open : option Z;
  c_log : list ProcessTouches.log_entry
}.

Definition about (ch : nat) (e : ProcessTouches.log_entry) : bool :=
  match e with
  | ProcessTouches.LogFirstTouch k => (k =? ch)%nat
  | ProcessTouches.LogWarning c _ _ => c =? Z.of_nat ch
  | ProcessTouches.LogDelete c _ _ _ => c =? Z.of_nat ch
  | ProcessTouches.LogRepeated _ _ _ => false
  | ProcessTouches.LogDouble _ _ _ => false
  end.

Definition view (ch : nat) (st : ProcessTouches.state) : chan_state :=
  mkChan (on_channel (Z.of_nat ch) (ProcessTouches.st_touches st))
         (ProcessTouches.st_temp st !! ch)
         (filter (about ch) (ProcessTouches.st_log st)).

(** [ProcessTouches.cell] on the view of its own channel. *)
Definition chan_cell (a : ProcessTouches.args) (start : Z) (row : nat)
    (prev cur : ProcessTouches.sample) (ch : nat) (v : chan_state)
  : option chan_state :=
  if ProcessTouches.touched cur ch && negb (ProcessTouches.touched prev ch) then
    Some (mkChan (c_touches v) (Some (ProcessTouches.s_time cur - start))
            (if (row =? 1)%nat && negb (Z.of_nat ch =? start_ch)
             then c_log v ++ [ProcessTouches.LogFirstTouch ch] else c_log v))
  else if negb (ProcessTouches.touched cur ch) && ProcessTouches.touched prev ch then
    match c_open v with
    | None => None
    | Some t0 =>
        let duration := ProcessTouches.s_time cur - start - t0 in
        let c := Z.of_nat ch in
        if (duration <? ProcessTouches.threshold a)
           && ((finish_ch <? c) && (c <? start_ch))
        then
          if ProcessTouches.threshold_given a then
            Some (mkChan (c_touches v) None
                    (c_log v ++ [ProcessTouches.LogDelete c t0 duration
                                   (ProcessTouches.threshold a)]))
          else
            Some (mkChan (c_touches v ++ [mkTouch 0 c t0 duration]) None
                    (c_log v ++ [ProcessTouches.LogWarning c t0 duration]))
        else
          Some (mkChan (c_touches v ++ [mkTouch 0 c t0 duration]) None (c_log v))
    end
  else Some v.

Fixpoint chan_rows (a : ProcessTouches.args) (start : Z) (ch : nat) (row : nat)
    (prev : ProcessTouches.sample) (rows : list ProcessTouches.sample)
    (v : chan_state) : option chan_state :=
  match rows with
  | [] => Some v
  | cur :: rows' =>
      match chan_cell a start row prev cur ch v with
      | Some v' => chan_rows a start ch (S row) cur rows' v'
      | None => None
      end
  end.

(** What the scan of one channel keeps true: with a threshold given no kept
    touch of a channel between finish and start is shorter than it, without
    one nothing is logged as deleted, and on the finish and start channels
    the only log line is the first-touch warning. *)
Definition is_first_touch (e : ProcessTouches.log_entry) : Prop :=
  match e with ProcessTouches.LogFirstTouch _ => True | _ => False end.
Definition is_delete (e : ProcessTouches.log_entry) : Prop :=
  match e with ProcessTouches.LogDelete _ _ _ _ => True | _ => False end.

Definition good (a : ProcessTouches.args) (ch : nat) (v : chan_state) : Prop :=
  (ProcessTouches.threshold_given a = true ->
   finish_ch < Z.of_nat ch < start_ch ->
   Forall (fun x => ProcessTouches.threshold a <= t_dur x) (c_touches v)) /\
  (ProcessTouches.threshold_given a = false ->
   Forall (fun e => ~ is_delete e) (c_log v)) /\
  (~ finish_ch < Z.of_nat ch < start_ch -> Forall is_first_touch (c_log v)).

(** What the scan keeps true of its state when time stamps do not go back:
    every start time in [temp] lies between 0 and the time [now] of the
    sample at hand, and every touch has index 0, a channel below [nch], and
    a start time and a duration that are not negative. *)
Definition scan_inv (nch : nat) (now : Z) (st : ProcessTouches.state) : Prop :=
  (forall ch t, ProcessTouches.st_temp st !! ch = Some t -> 0 <= t <= now) /\
  Forall (fun x => t_index x = 0 /\ 0 <= t_ch x < Z.of_nat nch /\
                   0 <= t_time x /\ 0 <= t_dur x)
         (ProcessTouches.st_touches st).

(** The number of releases of channel [ch] in [rows] after the sample
    [prev]: samples with the channel untouched right after a sample with it
    touched. *)
Fixpoint falls (ch : nat) (prev : ProcessTouches.sample)
    (rows : list ProcessTouches.sample) : nat :=
  match rows with
  | [] => O
  | cur :: rows' =>
      (if negb (ProcessTouches.touched cur ch) && ProcessTouches.touched prev ch
       then 1 else 0) + falls ch cur rows'
  end.

Definition is_deleteb (e : ProcessTouches.log_entry) : bool :=
  match e with
  | ProcessTouches.LogDelete _ _ _ _ => true
  | _ => false
  end.

(** Channels strictly between the finish and the start channel, where a
    touch is a foot fault; the even ones are on the right, the odd ones on
    the left. *)
Definition in_band (ch : Z) : bool := (finish_ch <? ch) && (ch <? start_ch).
Definition even_band (ch : Z) : bool := in_band ch && (ch mod 2 =? 0).
Definition odd_band (ch : Z) : bool := in_band ch && (ch mod 2 =? 1).

(** The touches counted by the loop over the channels [unique] for the
    channels that satisfy [P]. *)
Definition counted (P : Z -> bool) (touches : list touch) (unique : list Z) : nat :=
  length (flat_map (fun c => on_channel c touches) (filter P unique)).

(** * Properties *)

(** ** Lists and [np_delete] *)

Section ListFacts.
Context {A : Type}.

Lemma np_delete_Some (arr : list A) (i : nat) (rest : list A) :
  np_delete arr i = Some rest ->
  (i < length arr)%nat /\ rest = firstn i arr ++ skipn (S i) arr.
Proof.
  unfold np_delete. destruct (i <? length arr)%nat eqn:E; [|discriminate].
  intros [= <-]. apply Nat.ltb_lt in E. auto.
Qed.

Lemma np_delete_in_range (arr : list A) (i : nat) :
  (i < length arr)%nat -> np_delete arr i = Some (firstn i arr ++ skipn (S i) arr).
Proof.
  intros H. unfold np_delete. apply Nat.ltb_lt in H. now rewrite H.
Qed.

Lemma np_delete_length (arr : list A) (i : nat) (rest : list A) :
  np_delete arr i = Some rest -> length arr = S (length rest).
Proof.
  intros H. apply np_delete_Some in H as [Hi ->].
  rewrite length_app, length_firstn, length_skipn. lia.
Qed.

Lemma nth_error_split_at (arr : list A) (i : nat) (x : A) :
  nth_error arr i = Some x -> arr = firstn i arr ++ x :: skipn (S i) arr.
Proof.
  revert i. induction arr as [|y arr IH]; intros [|i] H; simpl in *; try discriminate.
  - now injection H as ->.
  - f_equal. now apply IH.
Qed.

Lemma np_delete_perm (arr : list A) (i : nat) (x : A) (rest : list A) :
  nth_error arr i = Some x -> np_delete arr i = Some rest ->
  Permutation (x :: rest) arr.
Proof.
  intros Hx H. apply np_delete_Some in H as [_ ->].
  rewrite (nth_error_split_at arr i x Hx) at 3.
  apply Permutation_middle.
Qed.

Lemma StronglySorted_app_inv (R : A -> A -> Prop) (l1 l2 : list A) :
  StronglySorted R (l1 ++ l2) ->
  StronglySorted R l1 /\ StronglySorted R l2 /\
  (forall x y, In x l1 -> In y l2 -> R x y).
Proof.
  induction l1 as [|a l1 IH]; simpl; intros H.
  - split; [constructor|]. split; [assumption|]. intros x y [].
  - inversion H as [|? ? Hs Hf]; subst.
    destruct (IH Hs) as (H1 & H2 & H3).
    rewrite Forall_app in Hf. destruct Hf as [Hf1 Hf2].
    split; [constructor; auto|]. split; [assumption|].
    intros x y [<-|Hx] Hy; [|auto].
    rewrite Forall_forall in Hf2. auto.
Qed.

Lemma StronglySorted_app (R : A -> A -> Prop) (l1 l2 : list A) :
  StronglySorted R l1 -> StronglySorted R l2 ->
  (forall x y, In x l1 -> In y l2 -> R x y) ->
  StronglySorted R (l1 ++ l2).
Proof.
  induction l1 as [|a l1 IH]; simpl; intros H1 H2 H; [assumption|].
  inversion H1 as [|? ? Hs Hf]; subst. constructor.
  - apply IH; auto.
  - rewrite Forall_app. split; [assumption|].
    rewrite Forall_forall. intros y Hy. apply H; auto.
Qed.

Lemma np_delete_sorted (R : A -> A -> Prop) (arr : list A) (i : nat)
    (rest : list A) :
  StronglySorted R arr -> np_delete arr i = Some rest -> StronglySorted R rest.
Proof.
  intros Hs H. apply np_delete_Some in H as [_ ->].
  rewrite <- (firstn_skipn i arr) in Hs.
  apply StronglySorted_app_inv in Hs as (H1 & H2 & H3).
  apply StronglySorted_app; [assumption| |].
  - replace (S i) with (1 + i)%nat by lia. rewrite <- skipn_skipn.
    destruct (skipn i arr) as [|y l]; simpl; [constructor|].
    now inversion H2.
  - intros x y Hx Hy. apply H3; [assumption|].
    replace (S i) with (1 + i)%nat in Hy by lia. rewrite <- skipn_skipn in Hy.
    destruct (skipn i arr) as [|z l]; simpl in *; [contradiction | now right].
Qed.

End ListFacts.

Lemma time_le_trans : Relations_1.Transitive time_le.
Proof. intros x y z. unfold time_le. lia. Qed.

Lemma time_ordered_strongly (l : list touch) :
  time_ordered l <-> StronglySorted time_le l.
Proof.
  split.
  - apply Sorted_StronglySorted, time_le_trans.
  - apply StronglySorted_Sorted.
Qed.

(** ** The Double-Electrode Filter *)

Module DoubleElectrodeFacts.
Import DoubleElectrode.

Lemma first_adjacent_Some (ch_1 : Z) (wt : list touch) (k row2 : nat) (o : touch) :
  first_adjacent ch_1 wt k = Some (row2, o) ->
  (k <= row2)%nat /\ nth_error wt (row2 - k) = Some o /\
  adjacent ch_1 (t_ch o) = true.
Proof.
  revert k. induction wt as [|x wt IH]; simpl; intros k H; [discriminate|].
  destruct (adjacent ch_1 (t_ch x)) eqn:E.
  - injection H as <- <-. rewrite Nat.sub_diag. auto.
  - apply IH in H as (Hk & Hn & Ha).
    split; [lia|]. split; [|assumption].
    replace (row2 - k)%nat with (S (row2 - S k)) by lia. exact Hn.
Qed.

Lemma first_adjacent_None (ch_1 : Z) (wt : list touch) (k : nat) :
  first_adjacent ch_1 wt k = None <->
  (forall o, In o wt -> adjacent ch_1 (t_ch o) = false).
Proof.
  revert k. induction wt as [|x wt IH]; simpl; intros k.
  - split; [intros _ o [] | reflexivity].
  - destruct (adjacent ch_1 (t_ch x)) eqn:E.
    + split; [discriminate|]. intros H. rewrite (H x) in E; [discriminate|auto].
    + rewrite IH. split.
      * intros H o [<-|Ho]; auto.
      * intros H o Ho. auto.
Qed.

Lemma within_time_length (e : touch) (sub : list touch) :
  (length (within_time e sub) <= length sub)%nat.
Proof.
  unfold within_time. induction sub as [|x sub IH]; simpl; [lia|].
  destruct (t_time x <=? t_time e + 150); simpl; lia.
Qed.

(** On rows in start-time order the rows within the window are the first
    ones, so a position in [within_time] is the same position in
    [subarray]. *)
Lemma within_time_prefix (e : touch) (sub : list touch) :
  StronglySorted time_le sub -> exists k, within_time e sub = firstn k sub.
Proof.
  unfold within_time. induction sub as [|x sub IH]; intros Hs.
  - exists O. reflexivity.
  - inversion Hs as [|? ? Hs' Hf]; subst. simpl.
    destruct (t_time x <=? t_time e + 150) eqn:E.
    + destruct (IH Hs') as [k Hk]. exists (S k). simpl. now rewrite Hk.
    + exists O. simpl. apply Z.leb_gt in E.
      clear IH Hs Hs'. induction sub as [|y sub IH]; [reflexivity|].
      inversion Hf as [|? ? Hy Hf']; subst. simpl.
      unfold time_le in Hy.
      destruct (t_time y <=? t_time e + 150) eqn:E'; [apply Z.leb_le in E'; lia|].
      auto.
Qed.

Lemma skipn_sorted (n : nat) (l : list touch) :
  StronglySorted time_le l -> StronglySorted time_le (skipn n l).
Proof.
  intros H. rewrite <- (firstn_skipn n l) in H.
  now apply StronglySorted_app_inv in H as (_ & H & _).
Qed.

(** A pass that deletes removes exactly one row, and on rows in start-time
    order the row it removes is the one it records as deleted. *)
Lemma for_rows_Deleted (touches : list touch) (row n : nat) (g : touch)
    (rest : list touch) :
  for_rows touches row n = Deleted g rest ->
  exists i, np_delete touches i = Some rest /\
            (StronglySorted time_le touches -> nth_error touches i = Some g).
Proof.
  revert row. induction n as [|n IH]; simpl; intros row H; [discriminate|].
  destruct (nth_error touches row) as [e|] eqn:He; [|discriminate].
  destruct (first_adjacent (t_ch e) (within_time e (skipn (S row) touches)) 0)
    as [[row2 o]|] eqn:Hf.
  - destruct (t_ch e <? t_ch o).
    + destruct (np_delete touches row) as [r|] eqn:Hd; [|discriminate].
      injection H as <- <-. exists row. auto.
    + destruct (np_delete touches (row + row2 + 1)) as [r|] eqn:Hd; [|discriminate].
      injection H as <- <-. exists (row + row2 + 1)%nat. split; [assumption|].
      intros Hs. apply first_adjacent_Some in Hf as (_ & Hn & _).
      rewrite Nat.sub_0_r in Hn.
      destruct (within_time_prefix e (skipn (S row) touches)) as [k Hk];
        [now apply skipn_sorted|].
      rewrite Hk, nth_error_firstn in Hn.
      destruct (row2 <? k)%nat; [|discriminate].
      rewrite nth_error_skipn in Hn.
      replace (row + row2 + 1)%nat with (S row + row2)%nat by lia. exact Hn.
  - eauto.
Qed.

Lemma for_rows_not_raised (touches : list touch) (row n : nat) :
  (row + n <= length touches)%nat -> for_rows touches row n <> ScanRaised.
Proof.
  revert row. induction n as [|n IH]; simpl; intros row Hl; [discriminate|].
  destruct (nth_error touches row) as [e|] eqn:He.
  2:{ apply nth_error_None in He. lia. }
  destruct (first_adjacent (t_ch e) (within_time e (skipn (S row) touches)) 0)
    as [[row2 o]|] eqn:Hf.
  - destruct (t_ch e <? t_ch o).
    + rewrite np_delete_in_range by lia. discriminate.
    + apply first_adjacent_Some in Hf as (_ & Hn & _).
      rewrite Nat.sub_0_r in Hn.
      assert (Hr : (row2 < length (within_time e (skipn (S row) touches)))%nat).
      { apply nth_error_Some. rewrite Hn. discriminate. }
      pose proof (within_time_length e (skipn (S row) touches)) as Hw.
      rewrite length_skipn in Hw.
      rewrite np_delete_in_range by lia. discriminate.
  - apply IH. lia.
Qed.

(** The [while True] loop ends: with more passes allowed than there are rows
    it returns, what it returns has no pair left to collapse, and every row
    is either kept or recorded as deleted. *)
Lemma loop_spec (fuel : nat) (touches deleted : list touch) :
  (length touches < fuel)%nat ->
  exists no_de gone,
    loop fuel touches deleted = Done (no_de, deleted ++ gone) /\
    (length no_de + length gone = length touches)%nat /\
    scan no_de = NoDeletion /\
    (StronglySorted time_le touches ->
     Permutation (no_de ++ gone) touches /\ StronglySorted time_le no_de).
Proof.
  revert touches deleted. induction fuel as [|fuel IH]; intros touches deleted Hl;
    [lia|].
  simpl. destruct (scan touches) as [|g rest|] eqn:Hs.
  - exists touches, []. rewrite !app_nil_r. simpl. auto with arith.
  - unfold scan in Hs. apply for_rows_Deleted in Hs as (i & Hd & Hg).
    pose proof (np_delete_length _ _ _ Hd) as Hlen.
    destruct (IH rest (deleted ++ [g])) as (no_de & gone & Hrun & Hcount & Hfix & Hperm);
      [lia|].
    exists no_de, (g :: gone). rewrite <- app_assoc in Hrun. simpl in *.
    split; [assumption|]. split; [lia|]. split; [assumption|].
    intros Hsorted. specialize (Hg Hsorted).
    destruct Hperm as [Hp Hso]; [eapply np_delete_sorted; eauto|].
    split; [|assumption].
    rewrite <- Permutation_middle.
    rewrite <- (np_delete_perm _ _ _ _ Hg Hd). now constructor.
  - exfalso. eapply for_rows_not_raised; [|exact Hs]. simpl. lia.
Qed.

(** More fuel than a finished run needed does not change its result. *)
Lemma loop_fuel (fuel fuel' : nat) (touches deleted : list touch)
    (r : list touch * list touch) :
  loop fuel touches deleted = Done r -> (fuel <= fuel')%nat ->
  loop fuel' touches deleted = Done r.
Proof.
  revert fuel' touches deleted. induction fuel as [|fuel IH];
    intros fuel' touches deleted H Hle; [discriminate|].
  destruct fuel' as [|fuel']; [lia|]. simpl in *.
  destruct (scan touches); try assumption.
  apply IH; [assumption | lia].
Qed.

Lemma double_electrode_spec (touches : list touch) :
  exists no_de deleted,
    double_electrode touches = Done (no_de, deleted) /\
    (length no_de + length deleted = length touches)%nat /\
    scan no_de = NoDeletion /\
    (time_ordered touches ->
     Permutation (no_de ++ deleted) touches /\ time_ordered no_de).
Proof.
  destruct (loop_spec (S (length touches)) touches []) as (no_de & gone & H);
    [lia|].
  exists no_de, gone. unfold double_electrode. simpl app in H.
  destruct H as (H1 & H2 & H3 & H4). repeat (split; [assumption|]).
  intros Hs. rewrite !time_ordered_strongly in *. auto.
Qed.

Lemma double_electrode_fixed (no_de : list touch) :
  scan no_de = NoDeletion -> double_electrode no_de = Done (no_de, []).
Proof. intros H. unfold double_electrode. simpl. now rewrite H. Qed.

(** Two rows in start-time order within 0.150 s of each other: the pair is
    collapsed exactly when [adjacent] holds of the earlier row's channel and
    the later row's channel, and the lower channel goes. *)
Lemma pair_within_window (e o : touch) :
  t_time o <= t_time e + 150 ->
  double_electrode [e; o] =
    if adjacent (t_ch e) (t_ch o)
    then if t_ch e <? t_ch o then Done ([o], [e]) else Done ([e], [o])
    else Done ([e; o], []).
Proof.
  intros Hw. apply Z.leb_le in Hw.
  unfold double_electrode, scan, within_time.
  cbn -[Z.leb Z.ltb Z.add adjacent]. rewrite Hw.
  cbn -[Z.leb Z.ltb Z.add adjacent].
  destruct (adjacent (t_ch e) (t_ch o)).
  - destruct (t_ch e <? t_ch o); reflexivity.
  - reflexivity.
Qed.

(** The start-time order matters for which row goes.  On rows that are not
    in that order a position in [within_time] is not the same position in
    [subarray]: here the row of channel 1 is removed while the row of
    channel 10 is recorded, twice.  The count is kept all the same. *)
Remark unordered_rows_lose_a_row :
  double_electrode [mkTouch 0 12 1000 1; mkTouch 0 1 5000 2; mkTouch 0 10 1000 3]
    = Done ([mkTouch 0 12 1000 1], [mkTouch 0 10 1000 3; mkTouch 0 10 1000 3]).
Proof. reflexivity. Qed.

End DoubleElectrodeFacts.

(** ** Sorting and counting *)

Lemma insert_by_time_perm (x : touch) (l : list touch) :
  Permutation (insert_by_time x l) (x :: l).
Proof.
  induction l as [|y l IH]; simpl; [reflexivity|].
  destruct (t_time x <=? t_time y); [reflexivity|].
  rewrite IH. apply perm_swap.
Qed.

Lemma argsort_time_perm (l : list touch) : Permutation (argsort_time l) l.
Proof.
  induction l as [|x l IH]; simpl; [reflexivity|].
  rewrite insert_by_time_perm. now constructor.
Qed.

Lemma insert_by_time_sorted (x : touch) (l : list touch) :
  StronglySorted time_le l -> StronglySorted time_le (insert_by_time x l).
Proof.
  induction l as [|y l IH]; simpl; intros Hs.
  - repeat constructor.
  - inversion Hs as [|? ? Hs' Hf]; subst.
    destruct (t_time x <=? t_time y) eqn:E.
    + apply Z.leb_le in E. constructor; [assumption|].
      constructor; [exact E|].
      eapply Forall_impl; [|exact Hf]. unfold time_le. intros; lia.
    + apply Z.leb_gt in E. constructor; [auto|].
      eapply Permutation_Forall; [symmetry; apply insert_by_time_perm|].
      constructor; [unfold time_le; lia | assumption].
Qed.

Lemma argsort_time_sorted (l : list touch) :
  StronglySorted time_le (argsort_time l).
Proof.
  induction l as [|x l IH]; simpl; [constructor|].
  now apply insert_by_time_sorted.
Qed.

Lemma argsort_time_ordered (l : list touch) : time_ordered (argsort_time l).
Proof. apply time_ordered_strongly, argsort_time_sorted. Qed.

(** A list in start-time order is already what [argsort_time] returns. *)
Lemma argsort_time_id (l : list touch) :
  StronglySorted time_le l -> argsort_time l = l.
Proof.
  induction l as [|x l IH]; intros Hs; [reflexivity|].
  inversion Hs as [|? ? Hs' Hf]; subst. simpl. rewrite IH by assumption.
  destruct l as [|y l]; [reflexivity|]. simpl.
  inversion Hf as [|? ? Hy _]; subst. unfold time_le in Hy.
  apply Z.leb_le in Hy. now rewrite Hy.
Qed.

Lemma rev_sorted (l : list touch) :
  StronglySorted time_le l -> StronglySorted time_ge (rev l).
Proof.
  induction l as [|x l IH]; simpl; intros Hs; [constructor|].
  inversion Hs as [|? ? Hs' Hf]; subst.
  apply StronglySorted_app; [auto | repeat constructor |].
  intros a b Ha [<-|[]]. apply in_rev in Ha.
  rewrite Forall_forall in Hf. apply Hf, Ha.
Qed.

Lemma filter_sorted (R : touch -> touch -> Prop) (f : touch -> bool)
    (l : list touch) :
  StronglySorted R l -> StronglySorted R (filter f l).
Proof.
  induction l as [|x l IH]; simpl; intros Hs; [constructor|].
  inversion Hs as [|? ? Hs' Hf]; subst.
  destruct (f x); [|auto]. constructor; [auto|].
  rewrite Forall_forall in *. intros y Hy. apply filter_In in Hy as [Hy _]. auto.
Qed.

Lemma filter_perm (f : touch -> bool) (l l' : list touch) :
  Permutation l l' -> Permutation (filter f l) (filter f l').
Proof.
  induction 1 as [|x l l' _ IH|x y l|l l' l'' _ IH1 _ IH2]; simpl.
  - reflexivity.
  - destruct (f x); [now constructor | assumption].
  - destruct (f x), (f y); try reflexivity. apply perm_swap.
  - now rewrite IH1.
Qed.

Lemma filter_partition (f : touch -> bool) (l : list touch) :
  Permutation (filter (fun x => negb (f x)) l ++ filter f l) l.
Proof.
  induction l as [|x l IH]; simpl; [reflexivity|].
  destruct (f x); simpl.
  - rewrite <- Permutation_middle. now constructor.
  - now constructor.
Qed.

Lemma insert_unique_In (c x : Z) (l : list Z) :
  In x (insert_unique c l) <-> x = c \/ In x l.
Proof.
  induction l as [|y l IH]; simpl; [intuition|].
  destruct (c <? y) eqn:E1; simpl; [intuition|].
  destruct (c =? y) eqn:E2; simpl.
  - apply Z.eqb_eq in E2. subst. intuition.
  - rewrite IH. intuition.
Qed.

Lemma insert_unique_sorted (c : Z) (l : list Z) :
  StronglySorted Z.lt l -> StronglySorted Z.lt (insert_unique c l).
Proof.
  induction l as [|y l IH]; simpl; intros Hs; [repeat constructor|].
  inversion Hs as [|? ? Hs' Hf]; subst.
  destruct (c <? y) eqn:E1.
  - apply Z.ltb_lt in E1. constructor; [assumption|].
    constructor; [assumption|]. eapply Forall_impl; [|exact Hf]. intros; lia.
  - destruct (c =? y) eqn:E2; [assumption|].
    apply Z.ltb_ge in E1. apply Z.eqb_neq in E2.
    constructor; [auto|]. rewrite Forall_forall in *.
    intros x Hx. apply insert_unique_In in Hx as [->|Hx]; [lia | auto].
Qed.

Lemma np_unique_sorted (l : list Z) : StronglySorted Z.lt (np_unique l).
Proof.
  induction l as [|x l IH]; simpl; [constructor|].
  now apply insert_unique_sorted.
Qed.

Lemma np_unique_NoDup (l : list Z) : NoDup (np_unique l).
Proof.
  generalize (np_unique_sorted l). generalize (np_unique l). clear l.
  induction l as [|x l IH]; intros Hs; [constructor|].
  inversion Hs as [|? ? Hs' Hf]; subst. constructor; [|auto].
  intros Hx. rewrite Forall_forall in Hf. specialize (Hf x Hx). lia.
Qed.

Lemma np_unique_In (x : Z) (l : list Z) : In x (np_unique l) <-> In x l.
Proof.
  induction l as [|y l IH]; simpl; [reflexivity|].
  rewrite insert_unique_In, IH. intuition.
Qed.

(** ** The Repeated-Touch Filter *)

Module RepeatedTouchesFacts.
Import RepeatedTouches.

Lemma np_delete_middle (pre : list touch) (x : touch) (suf : list touch) :
  np_delete (pre ++ x :: suf) (length pre) = Some (pre ++ suf).
Proof.
  rewrite np_delete_in_range by (rewrite length_app; simpl; lia).
  f_equal. rewrite firstn_app, Nat.sub_diag, firstn_all. simpl.
  rewrite app_nil_r. f_equal.
  replace (S (length pre)) with (length pre + 1)%nat by lia.
  rewrite skipn_app, skipn_all2 by lia.
  replace (length pre + 1 - length pre)%nat with 1%nat by lia. reflexivity.
Qed.

(** The indexed loop and its reading off the list agree. *)
Lemma for_rows_pass (thr : Z) (pre l : list touch) :
  for_rows thr (pre ++ l) (length pre) (length l) = pass thr pre l.
Proof.
  revert pre. induction l as [|a l IH]; intros pre; [reflexivity|].
  cbn [length for_rows pass].
  assert (Ea : nth_error (pre ++ a :: l) (length pre) = Some a)
    by (rewrite nth_error_app2, Nat.sub_diag by lia; reflexivity).
  rewrite Ea. destruct l as [|b tl].
  - assert (E : nth_error (pre ++ [a]) (S (length pre)) = None)
      by (apply nth_error_None; rewrite length_app; simpl; lia).
    now rewrite E.
  - assert (Eb : nth_error (pre ++ a :: b :: tl) (S (length pre)) = Some b).
    { rewrite nth_error_app2 by lia.
      replace (S (length pre) - length pre)%nat with 1%nat by lia. reflexivity. }
    rewrite Eb.
    specialize (IH (pre ++ [a])). rewrite <- app_assoc in IH.
    replace (length (pre ++ [a])) with (S (length pre)) in IH
      by (rewrite length_app; simpl; lia).
    change ([a] ++ b :: tl) with (a :: b :: tl) in IH.
    rewrite np_delete_middle.
    replace (np_delete (pre ++ a :: b :: tl) (S (length pre)))
      with (Some (pre ++ a :: tl)).
    2:{ pose proof (np_delete_middle (pre ++ [a]) b tl) as H.
        rewrite <- !app_assoc in H.
        replace (length (pre ++ [a])) with (S (length pre)) in H
          by (rewrite length_app; simpl; lia).
        symmetry. exact H. }
    destruct (t_time a - t_time b <=? thr).
    + destruct ((t_dur a <? t_dur b) || (t_ch a =? 47)); [reflexivity|].
      destruct ((t_dur a >=? t_dur b) || (t_ch a =? 0)); [reflexivity|].
      exact IH.
    + rewrite length_app. cbn [length].
      destruct tl as [|c tl].
      * destruct (Z.eqb_spec (Z.of_nat (length pre))
                    (Z.of_nat (length pre + S (S (length (@nil touch)))) - 2))
          as [_|Hne]; [reflexivity | simpl in Hne; lia].
      * destruct (Z.eqb_spec (Z.of_nat (length pre))
                    (Z.of_nat (length pre + S (S (length (c :: tl)))) - 2))
          as [He|_]; [simpl in He; lia | exact IH].
Qed.

Lemma for_rows_pass0 (thr : Z) (l : list touch) :
  for_rows thr l 0 (length l) = pass thr [] l.
Proof. exact (for_rows_pass thr [] l). Qed.

(** A pass that deletes takes one row out and leaves the others in place. *)
Lemma pass_DeletedRow (thr : Z) (pre l : list touch) (g : touch)
    (rest : list touch) :
  pass thr pre l = DeletedRow g rest ->
  exists l1 l2, pre ++ l = l1 ++ g :: l2 /\ rest = l1 ++ l2.
Proof.
  revert pre. induction l as [|a l IH]; intros pre H; [discriminate|].
  cbn [pass] in H. destruct l as [|b tl]; [discriminate|].
  assert (Hrec : pass thr (pre ++ [a]) (b :: tl) = DeletedRow g rest ->
                 exists l1 l2, pre ++ a :: b :: tl = l1 ++ g :: l2 /\ rest = l1 ++ l2).
  { intros H'. apply IH in H' as (l1 & l2 & E & ->).
    exists l1, l2. rewrite <- app_assoc in E. auto. }
  destruct (t_time a - t_time b <=? thr).
  - destruct ((t_dur a <? t_dur b) || (t_ch a =? 47)).
    + injection H as <- <-. exists pre, (b :: tl). auto.
    + destruct ((t_dur a >=? t_dur b) || (t_ch a =? 0)); [|auto].
      injection H as <- <-. exists (pre ++ [a]), tl.
      rewrite <- !app_assoc. auto.
  - destruct tl; [discriminate | auto].
Qed.

(** With two rows or more ahead the pass ends in a deletion or in [Stop]. *)
Lemma pass_total (thr : Z) (pre l : list touch) :
  (2 <= length l)%nat ->
  pass thr pre l = Stop \/ exists g rest, pass thr pre l = DeletedRow g rest.
Proof.
  revert pre. induction l as [|a l IH]; intros pre Hl; [simpl in Hl; lia|].
  cbn [pass]. destruct l as [|b tl]; [simpl in Hl; lia|].
  destruct (t_time a - t_time b <=? thr).
  - destruct ((t_dur a <? t_dur b) || (t_ch a =? 47)) eqn:E1; [eauto|].
    replace ((t_dur a >=? t_dur b) || (t_ch a =? 0)) with true; [eauto|].
    apply orb_false_iff in E1 as [E1 _]. apply Z.ltb_ge in E1.
    symmetry. apply orb_true_iff. left. apply Z.geb_le. lia.
  - destruct tl as [|c tl]; [auto|]. apply IH. simpl. lia.
Qed.

Lemma pass_Stop (thr : Z) (pre l : list touch) :
  pass thr pre l = Stop -> quiet thr l.
Proof.
  revert pre. induction l as [|a l IH]; intros pre H; [exact I|].
  cbn [pass] in H. destruct l as [|b tl]; [exact I|].
  cbn [quiet]. destruct (t_time a - t_time b <=? thr) eqn:E.
  - destruct ((t_dur a <? t_dur b) || (t_ch a =? 47)) eqn:E1; [discriminate|].
    replace ((t_dur a >=? t_dur b) || (t_ch a =? 0)) with true in H; [discriminate|].
    apply orb_false_iff in E1 as [E1 _]. apply Z.ltb_ge in E1.
    symmetry. apply orb_true_iff. left. apply Z.geb_le. lia.
  - apply Z.leb_gt in E. split; [lia|].
    destruct tl as [|c tl]; [exact I|]. eapply IH, H.
Qed.

Lemma quiet_pass (thr : Z) (pre l : list touch) :
  (2 <= length l)%nat -> quiet thr l -> pass thr pre l = Stop.
Proof.
  revert pre. induction l as [|a l IH]; intros pre Hl Hq; [simpl in Hl; lia|].
  cbn [pass]. destruct l as [|b tl]; [simpl in Hl; lia|].
  cbn [quiet] in Hq. destruct Hq as [Hab Hq].
  replace (t_time a - t_time b <=? thr) with false
    by (symmetry; apply Z.leb_gt; lia).
  destruct tl as [|c tl]; [reflexivity|]. apply IH; [simpl; lia | exact Hq].
Qed.

(** *** Neighbours apart and all rows apart *)

Lemma separated_perm (thr : Z) (l l' : list touch) :
  Permutation l l' -> separated thr l -> separated thr l'.
Proof.
  assert (Hsym : forall a b, apart thr a b -> apart thr b a).
  { unfold apart. intros a b. lia. }
  unfold separated.
  induction 1 as [|x l l' Hp IH|x y l|l l' l'' _ IH1 _ IH2]; intros H.
  - assumption.
  - inversion H as [|? ? Hf Hs]; subst. constructor; [|auto].
    eapply Permutation_Forall; eauto.
  - inversion H as [|? ? Hf Hs]; subst.
    inversion Hs as [|? ? Hf' Hs']; subst.
    inversion Hf as [|? ? Hxy Hf'']; subst.
    constructor; [constructor; auto|]. constructor; assumption.
  - auto.
Qed.

Lemma quiet_separated (thr : Z) (l : list touch) :
  StronglySorted time_ge l -> quiet thr l -> separated thr l.
Proof.
  unfold separated. induction l as [|a l IH]; intros Hs Hq; [constructor|].
  inversion Hs as [|? ? Hs' Hf]; subst.
  destruct l as [|b tl]; [repeat constructor|].
  cbn [quiet] in Hq. destruct Hq as [Hab Hq].
  constructor; [|apply IH; assumption].
  inversion Hs' as [|? ? _ Hfb]; subst.
  inversion Hf as [|? ? Hba _]; subst. unfold time_ge in Hba.
  constructor; [unfold apart; lia|].
  rewrite Forall_forall in *. intros x Hx. specialize (Hfb x Hx).
  unfold time_ge, apart in *. lia.
Qed.

Lemma separated_quiet (thr : Z) (l : list touch) :
  StronglySorted time_ge l -> separated thr l -> quiet thr l.
Proof.
  unfold separated. induction l as [|a l IH]; intros Hs Hq; [exact I|].
  inversion Hs as [|? ? Hs' Hf]; subst.
  inversion Hq as [|? ? Hfa Hq']; subst.
  destruct l as [|b tl]; [exact I|]. cbn [quiet].
  split; [|apply IH; assumption].
  inversion Hf as [|? ? Hba _]; subst.
  inversion Hfa as [|? ? Hab _]; subst.
  unfold time_ge, apart in *. lia.
Qed.

Lemma separated_short (thr : Z) (l : list touch) :
  (length l <= 1)%nat -> separated thr l.
Proof.
  destruct l as [|a [|b l]]; simpl; intros H; try lia; repeat constructor.
Qed.

(** *** One channel *)

Lemma sorted_without (R : touch -> touch -> Prop) (l1 l2 : list touch) (g : touch) :
  StronglySorted R (l1 ++ g :: l2) -> StronglySorted R (l1 ++ l2).
Proof.
  intros H. apply StronglySorted_app_inv in H as (H1 & H2 & H3).
  inversion H2; subst.
  apply StronglySorted_app; [assumption | assumption |].
  intros x y Hx Hy. apply H3; [assumption | now right].
Qed.

Lemma channel_loop_spec (thr : Z) (fuel : nat) (sub no_rt deleted : list touch) :
  (2 <= length sub < fuel)%nat -> StronglySorted time_ge sub ->
  exists kept gone,
    channel_loop thr fuel sub no_rt deleted = Done (no_rt ++ kept, deleted ++ gone) /\
    Permutation (kept ++ gone) sub /\ separated thr kept.
Proof.
  revert sub no_rt deleted.
  induction fuel as [|fuel IH]; intros sub no_rt deleted [Hl Hf] Hs; [lia|].
  cbn [channel_loop].
  replace (1 <? length sub)%nat with true by (symmetry; apply Nat.ltb_lt; lia).
  rewrite for_rows_pass0.
  destruct (pass_total thr [] sub Hl) as [Hstop | (g & rest & Hdel)].
  - rewrite Hstop. exists sub, []. rewrite !app_nil_r.
    split; [reflexivity|]. split; [reflexivity|].
    apply quiet_separated; [assumption|]. eapply pass_Stop, Hstop.
  - rewrite Hdel. apply pass_DeletedRow in Hdel as (l1 & l2 & E & ->).
    simpl in E. subst sub. rewrite length_app in Hl, Hf. simpl in Hl, Hf.
    assert (Hrest : length (l1 ++ l2) = (length l1 + length l2)%nat)
      by apply length_app.
    destruct (length (l1 ++ l2) <? 2)%nat eqn:E2.
    + apply Nat.ltb_lt in E2. destruct fuel as [|fuel]; [lia|].
      cbn [channel_loop].
      replace (1 <? length (l1 ++ l2))%nat with false
        by (symmetry; apply Nat.ltb_ge; lia).
      exists (l1 ++ l2), [g]. split; [reflexivity|].
      split; [|apply separated_short; lia].
      rewrite <- app_assoc. apply Permutation_app_head.
      rewrite Permutation_app_comm. reflexivity.
    + apply Nat.ltb_ge in E2.
      destruct (IH (l1 ++ l2) no_rt (deleted ++ [g])) as (kept & gone & Hr & Hp & Hsep);
        [lia | eapply sorted_without; eauto |].
      exists kept, (g :: gone). rewrite <- app_assoc in Hr.
      split; [exact Hr|]. split; [|assumption].
      rewrite <- !Permutation_middle. now constructor.
Qed.

Lemma channel_loop_quiet (thr : Z) (fuel : nat) (sub no_rt deleted : list touch) :
  (2 <= length sub)%nat -> quiet thr sub ->
  channel_loop thr (S fuel) sub no_rt deleted = Done (no_rt ++ sub, deleted).
Proof.
  intros Hl Hq. cbn [channel_loop].
  replace (1 <? length sub)%nat with true by (symmetry; apply Nat.ltb_lt; lia).
  now rewrite for_rows_pass0, quiet_pass.
Qed.

(** *** All channels *)

Lemma on_channel_In (c : Z) (l : list touch) (x : touch) :
  In x (on_channel c l) <-> In x l /\ t_ch x = c.
Proof. unfold on_channel. rewrite filter_In, Z.eqb_eq. reflexivity. Qed.

Lemma on_channel_all (c : Z) (l : list touch) :
  (forall x, In x l -> t_ch x = c) -> on_channel c l = l.
Proof.
  induction l as [|y l IH]; intros H; [reflexivity|]. simpl.
  rewrite (H y) by now left. rewrite Z.eqb_refl. f_equal. apply IH.
  intros x Hx. apply H. now right.
Qed.

Lemma on_channel_none (c : Z) (l : list touch) :
  (forall x, In x l -> t_ch x <> c) -> on_channel c l = [].
Proof.
  induction l as [|y l IH]; intros H; [reflexivity|]. simpl.
  destruct (Z.eqb_spec (t_ch y) c) as [E|_].
  - exfalso. apply (H y); [now left | assumption].
  - apply IH. intros x Hx. apply H. now right.
Qed.

Lemma on_channel_app (c : Z) (l l' : list touch) :
  on_channel c (l ++ l') = on_channel c l ++ on_channel c l'.
Proof. apply filter_app. Qed.

Lemma mask_true (chs : list Z) (x : touch) :
  mask chs x = true <-> In (t_ch x) chs.
Proof.
  unfold mask. rewrite existsb_exists. split.
  - intros (c & Hc & E). apply Z.eqb_eq in E. now rewrite E.
  - intros H. exists (t_ch x). split; [assumption | apply Z.eqb_refl].
Qed.

Lemma flat_map_on_channel_cons (chs : list Z) (x : touch) (l : list touch) :
  NoDup chs ->
  Permutation (flat_map (fun c => on_channel c (x :: l)) chs)
              ((if mask chs x then [x] else []) ++
               flat_map (fun c => on_channel c l) chs).
Proof.
  induction chs as [|c chs IH]; intros Hn; [reflexivity|].
  inversion Hn as [|? ? Hc Hn']; subst. specialize (IH Hn').
  cbn [flat_map on_channel filter mask existsb].
  destruct (Z.eqb_spec (t_ch x) c) as [E|E]; cbn [orb].
  - assert (Hm : mask chs x = false).
    { destruct (mask chs x) eqn:Hm; [|reflexivity].
      apply mask_true in Hm. now rewrite E in Hm. }
    fold (mask chs x) in *. rewrite Hm in IH. simpl in IH. simpl.
    constructor. now apply Permutation_app_head.
  - fold (mask chs x). rewrite IH.
    rewrite !app_assoc. apply Permutation_app_tail, Permutation_app_comm.
Qed.

Lemma flat_map_on_channel (chs : list Z) (l : list touch) :
  NoDup chs ->
  Permutation (flat_map (fun c => on_channel c l) chs) (filter (mask chs) l).
Proof.
  intros Hn. induction l as [|x l IH].
  - simpl. induction chs as [|c chs IHc]; [reflexivity|]. simpl.
    inversion Hn; subst. auto.
  - rewrite flat_map_on_channel_cons by assumption. simpl.
    destruct (mask chs x); simpl; [now constructor | assumption].
Qed.

Lemma for_channels_spec (thr : Z) (chs : list Z) (rt no_rt deleted : list touch) :
  NoDup chs -> StronglySorted time_ge rt ->
  (forall c, In c chs -> (2 <= length (on_channel c rt))%nat) ->
  exists kept gone,
    for_channels thr chs rt no_rt deleted = Done (no_rt ++ kept, deleted ++ gone) /\
    Permutation (kept ++ gone) (flat_map (fun c => on_channel c rt) chs) /\
    (forall c, In c chs -> separated thr (on_channel c kept)) /\
    (forall x, In x kept -> In (t_ch x) chs).
Proof.
  revert no_rt deleted.
  induction chs as [|ch chs IH]; intros no_rt deleted Hn Hs Hcount.
  - exists [], []. rewrite !app_nil_r. simpl.
    split; [reflexivity|]. split; [reflexivity|]. split; intros ? [].
  - inversion Hn as [|? ? Hch Hn']; subst. cbn [for_channels].
    assert (Hsub : StronglySorted time_ge (on_channel ch rt))
      by now apply filter_sorted.
    destruct (channel_loop_spec thr (S (length (on_channel ch rt)))
                (on_channel ch rt) no_rt deleted)
      as (k1 & g1 & Hr1 & Hp1 & Hsep1);
      [split; [apply Hcount; now left | lia] | assumption |].
    rewrite Hr1.
    destruct (IH (no_rt ++ k1) (deleted ++ g1) Hn' Hs) as (k2 & g2 & Hr2 & Hp2 & Hsep2 & Hin2).
    { intros c Hc. apply Hcount. now right. }
    rewrite Hr2. exists (k1 ++ k2), (g1 ++ g2). rewrite !app_assoc.
    split; [reflexivity|].
    assert (Hk1 : forall x, In x k1 -> t_ch x = ch).
    { intros x Hx. assert (Hx' : In x (on_channel ch rt)).
      { eapply Permutation_in; [exact Hp1|]. apply in_or_app. now left. }
      now apply on_channel_In in Hx'. }
    split; [|split].
    + cbn [flat_map]. rewrite <- Hp1, <- Hp2. rewrite <- !app_assoc.
      apply Permutation_app_head. rewrite !app_assoc.
      apply Permutation_app_tail, Permutation_app_comm.
    + intros c [<-|Hc]; rewrite on_channel_app.
      * rewrite (on_channel_all ch k1) by assumption.
        rewrite (on_channel_none ch k2), app_nil_r; [assumption|].
        intros x Hx E. apply Hin2 in Hx. now rewrite E in Hx.
      * rewrite (on_channel_none c k1); [now apply Hsep2|].
        intros x Hx E. apply Hk1 in Hx. congruence.
    + intros x Hx. apply in_app_or in Hx as [Hx|Hx].
      * left. symmetry. now apply Hk1.
      * right. now apply Hin2.
Qed.

Lemma for_channels_quiet (thr : Z) (chs : list Z) (rt no_rt deleted : list touch) :
  (forall c, In c chs ->
     (2 <= length (on_channel c rt))%nat /\ quiet thr (on_channel c rt)) ->
  for_channels thr chs rt no_rt deleted =
    Done (no_rt ++ flat_map (fun c => on_channel c rt) chs, deleted).
Proof.
  revert no_rt. induction chs as [|ch chs IH]; intros no_rt H.
  - simpl. now rewrite app_nil_r.
  - cbn [for_channels flat_map].
    destruct (H ch) as [Hl Hq]; [now left|].
    rewrite channel_loop_quiet by assumption.
    rewrite IH by (intros c Hc; apply H; now right).
    now rewrite app_assoc.
Qed.

(** *** The whole filter *)

Lemma repeated_touched_channels_NoDup (touches : list touch) :
  NoDup (repeated_touched_channels touches).
Proof. apply NoDup_filter, np_unique_NoDup. Qed.

Lemma repeated_touched_channels_In (touches : list touch) (c : Z) :
  In c (repeated_touched_channels touches) <->
  (2 <= length (on_channel c touches))%nat.
Proof.
  unfold repeated_touched_channels. rewrite filter_In, Nat.ltb_lt, np_unique_In.
  split; [intros [_ H]; lia|]. intros H. split; [|lia].
  destruct (on_channel c touches) as [|x l] eqn:E; [simpl in H; lia|].
  assert (Hx : In x (on_channel c touches)) by (rewrite E; now left).
  apply on_channel_In in Hx as [Hx <-]. now apply in_map.
Qed.

Lemma on_channel_mask (chs : list Z) (c : Z) (l : list touch) :
  In c chs -> on_channel c (filter (mask chs) l) = on_channel c l.
Proof.
  intros Hc. induction l as [|x l IH]; [reflexivity|]. simpl.
  destruct (mask chs x) eqn:Hm; simpl.
  - now rewrite IH.
  - destruct (Z.eqb_spec (t_ch x) c) as [E|_]; [|assumption].
    assert (Hm' : mask chs x = true) by (apply mask_true; now rewrite E).
    congruence.
Qed.

Lemma on_channel_unmask (chs : list Z) (c : Z) (l : list touch) :
  In c chs -> on_channel c (filter (fun x => negb (mask chs x)) l) = [].
Proof.
  intros Hc. apply on_channel_none. intros x Hx E.
  apply filter_In in Hx as [_ Hx]. apply negb_true_iff in Hx.
  assert (Hm : mask chs x = true) by (apply mask_true; now rewrite E).
  congruence.
Qed.

Lemma on_channel_filter_length (c : Z) (f : touch -> bool) (l : list touch) :
  (length (on_channel c (filter f l)) <= length (on_channel c l))%nat.
Proof.
  induction l as [|x l IH]; simpl; [lia|].
  destruct (f x); simpl; destruct (t_ch x =? c); simpl; lia.
Qed.

(** The rows of channel [c] handed to the channel loop are the rows of that
    channel in the input, latest first. *)
Lemma on_channel_rt (touches : list touch) (chs : list Z) (c : Z) :
  In c chs ->
  Permutation (on_channel c (rev (argsort_time (filter (mask chs) touches))))
              (on_channel c touches).
Proof.
  intros Hc. rewrite <- (on_channel_mask chs c touches Hc).
  apply filter_perm. rewrite <- Permutation_rev. apply argsort_time_perm.
Qed.

Lemma rt_sorted (l : list touch) : StronglySorted time_ge (rev (argsort_time l)).
Proof. apply rev_sorted, argsort_time_sorted. Qed.

Lemma filter_idem (f : touch -> bool) (l : list touch) :
  filter f (filter f l) = filter f l.
Proof.
  induction l as [|x l IH]; [reflexivity|]. simpl.
  destruct (f x) eqn:E; simpl; [rewrite E; now f_equal | assumption].
Qed.

Lemma mask_rt (chs : list Z) (l : list touch) :
  Permutation (filter (mask chs) (rev (argsort_time (filter (mask chs) l))))
              (filter (mask chs) l).
Proof.
  rewrite <- (filter_idem (mask chs) l) at 2. apply filter_perm.
  etransitivity; [symmetry; apply Permutation_rev | apply argsort_time_perm].
Qed.

(** The filter returns, keeps or records every row, hands both arrays back in
    start-time order, and leaves no channel with two rows within the
    window. *)
Lemma repeated_touches_spec (touches : list touch) (thr : Z) :
  exists no_rt deleted,
    repeated_touches touches thr = Done (no_rt, deleted) /\
    Permutation (no_rt ++ deleted) touches /\
    StronglySorted time_le no_rt /\ StronglySorted time_le deleted /\
    (forall c, separated thr (on_channel c no_rt)).
Proof.
  unfold repeated_touches.
  set (chs := repeated_touched_channels touches).
  set (rt := rev (argsort_time (filter (mask chs) touches))).
  set (no_rt0 := filter (fun x => negb (mask chs x)) touches).
  assert (Hn : NoDup chs) by apply repeated_touched_channels_NoDup.
  assert (Hcount : forall c, In c chs -> (2 <= length (on_channel c rt))%nat).
  { intros c Hc. unfold rt. rewrite (Permutation_length (on_channel_rt touches chs c Hc)).
    now apply repeated_touched_channels_In. }
  destruct (for_channels_spec thr chs rt no_rt0 [] Hn (rt_sorted _) Hcount)
    as (kept & gone & Hr & Hp & Hsep & Hin).
  rewrite Hr. simpl app. exists (argsort_time (no_rt0 ++ kept)), (argsort_time gone).
  split; [reflexivity|].
  split; [|split; [apply argsort_time_sorted|split; [apply argsort_time_sorted|]]].
  - rewrite !argsort_time_perm, <- app_assoc, Hp.
    rewrite flat_map_on_channel by assumption.
    unfold rt. rewrite mask_rt. apply filter_partition.
  - intros c. eapply separated_perm.
    { apply filter_perm. symmetry. apply argsort_time_perm. }
    fold (on_channel c (no_rt0 ++ kept)). rewrite on_channel_app.
    destruct (in_dec Z.eq_dec c chs) as [Hc|Hc].
    + unfold no_rt0. rewrite on_channel_unmask by assumption. simpl. auto.
    + rewrite (on_channel_none c kept), app_nil_r.
      2:{ intros x Hx E. apply Hin in Hx. now rewrite E in Hx. }
      apply separated_short.
      pose proof (on_channel_filter_length c (fun x => negb (mask chs x)) touches).
      assert (~ (2 <= length (on_channel c touches))%nat)
        by (intros H2; apply Hc, repeated_touched_channels_In, H2).
      unfold no_rt0. lia.
Qed.

(** On rows where no channel has two rows within the window the filter
    deletes nothing. *)
Lemma repeated_touches_fixed (l : list touch) (thr : Z) :
  (forall c, separated thr (on_channel c l)) ->
  exists no_rt,
    repeated_touches l thr = Done (no_rt, []) /\
    Permutation no_rt l /\ StronglySorted time_le no_rt.
Proof.
  intros Hsep. unfold repeated_touches.
  set (chs := repeated_touched_channels l).
  set (rt := rev (argsort_time (filter (mask chs) l))).
  set (no_rt0 := filter (fun x => negb (mask chs x)) l).
  rewrite for_channels_quiet.
  2:{ intros c Hc. pose proof (on_channel_rt l chs c Hc) as Hp. fold rt in Hp.
      split.
      - rewrite (Permutation_length Hp). now apply repeated_touched_channels_In.
      - apply separated_quiet; [apply filter_sorted, rt_sorted|].
        eapply separated_perm; [symmetry; exact Hp | apply Hsep]. }
  eexists. split; [reflexivity|]. split; [|apply argsort_time_sorted].
  rewrite argsort_time_perm.
  rewrite flat_map_on_channel by apply repeated_touched_channels_NoDup.
  fold chs. unfold rt. rewrite mask_rt. apply filter_partition.
Qed.

(** Two lists in start-time order with the same rows are the same list when
    no two rows share a start time. *)
Lemma sorted_unique (l1 l2 : list touch) :
  StronglySorted time_le l1 -> StronglySorted time_le l2 ->
  Permutation l1 l2 -> NoDup (map t_time l1) -> l1 = l2.
Proof.
  revert l2. induction l1 as [|a l1 IH]; intros l2 H1 H2 Hp Hn.
  - apply Permutation_nil in Hp. now subst.
  - destruct l2 as [|b l2].
    { symmetry in Hp. apply Permutation_nil in Hp. discriminate. }
    inversion H1 as [|? ? H1' Hf1]; subst.
    inversion H2 as [|? ? H2' Hf2]; subst.
    inversion Hn as [|? ? Ha Hn']; subst.
    assert (E : a = b).
    { assert (Hab : In a (b :: l2)) by (eapply Permutation_in; [exact Hp | now left]).
      assert (Hba : In b (a :: l1))
        by (eapply Permutation_in; [symmetry; exact Hp | now left]).
      destruct Hab as [->|Hab]; [reflexivity|].
      destruct Hba as [->|Hba]; [reflexivity|].
      rewrite Forall_forall in Hf1, Hf2.
      specialize (Hf1 b Hba). specialize (Hf2 a Hab). unfold time_le in *.
      exfalso. apply Ha. replace (t_time a) with (t_time b) by lia.
      now apply in_map. }
    subst b. f_equal. apply IH; try assumption.
    eapply Permutation_cons_inv, Hp.
Qed.

End RepeatedTouchesFacts.

(** ** The filters: the stated properties *)

Import DoubleElectrode RepeatedTouches.
Import DoubleElectrodeFacts RepeatedTouchesFacts.

(** C1.  The channel test of the Double-Electrode Filter lets the start
    channel through when it is the earlier row of the pair: a touch on channel
    47 at 1.000 s followed by one on channel 45 at 1.100 s is collapsed, and
    the row of channel 45 is deleted.  (Channels 10 and 12 collapse onto 12;
    channel 0 never collapses with channel 2, in either order; channel 47 as
    the later row does not collapse with 45.) *)
Theorem double_electrode_start_channel_collapses :
  double_electrode [mkTouch 0 47 1000 300; mkTouch 0 45 1100 200]
    = Done ([mkTouch 0 47 1000 300], [mkTouch 0 45 1100 200]) /\
  double_electrode [mkTouch 0 45 1000 300; mkTouch 0 47 1100 200]
    = Done ([mkTouch 0 45 1000 300; mkTouch 0 47 1100 200], []) /\
  double_electrode [mkTouch 0 10 1000 300; mkTouch 0 12 1100 200]
    = Done ([mkTouch 0 12 1100 200], [mkTouch 0 10 1000 300]) /\
  double_electrode [mkTouch 0 0 1000 300; mkTouch 0 2 1100 200]
    = Done ([mkTouch 0 0 1000 300; mkTouch 0 2 1100 200], []) /\
  double_electrode [mkTouch 0 2 1000 300; mkTouch 0 0 1100 200]
    = Done ([mkTouch 0 2 1000 300; mkTouch 0 0 1100 200], []).
Proof. repeat split; reflexivity. Qed.

(** The channel test itself: it holds exactly when the channels are 2 apart,
    the earlier row is not on channel 0 and the later row is on neither 0 nor
    47. *)
Lemma adjacent_iff (ch_1 ch_2 : Z) :
  adjacent ch_1 ch_2 = true <->
  Z.abs (ch_1 - ch_2) = 2 /\ ch_1 <> 0 /\ ch_2 <> 0 /\ ch_2 <> 47.
Proof.
  unfold adjacent.
  rewrite !andb_true_iff, !negb_true_iff, orb_false_iff, Z.eqb_eq, !Z.eqb_neq.
  tauto.
Qed.

(** The row that goes is the one on the lower channel. *)
Lemma pair_deletes_lower (e o : touch) (no_de : list touch) (g : touch) :
  t_time o <= t_time e + 150 ->
  double_electrode [e; o] = Done (no_de, [g]) ->
  t_ch g = Z.min (t_ch e) (t_ch o) /\ Z.abs (t_ch e - t_ch o) = 2.
Proof.
  intros Hw. rewrite pair_within_window by assumption.
  destruct (adjacent (t_ch e) (t_ch o)) eqn:Ha; [|discriminate].
  apply adjacent_iff in Ha as (Habs & _).
  destruct (Z.ltb_spec (t_ch e) (t_ch o)); intros [= <- <-]; split; lia.
Qed.

Lemma pass_skip_quiet (thr : Z) (p pre : list touch) (b a : touch)
    (tl : list touch) :
  quiet thr (pre ++ [b]) ->
  pass thr p (pre ++ b :: a :: tl) = pass thr (p ++ pre) (b :: a :: tl).
Proof.
  revert p. induction pre as [|x pre IH]; intros p Hq.
  - now rewrite app_nil_r.
  - change ((x :: pre) ++ b :: a :: tl) with (x :: (pre ++ b :: a :: tl)).
    cbn [pass].
    destruct pre as [|y pre].
    + simpl in *. destruct Hq as [Hxb _].
      replace (t_time x - t_time b <=? thr) with false
        by (symmetry; apply Z.leb_gt; lia).
      rewrite <- app_assoc. reflexivity.
    + change (((y :: pre) ++ b :: a :: tl)) with (y :: (pre ++ b :: a :: tl)).
      change ((x :: y :: pre) ++ [b]) with (x :: y :: (pre ++ [b])) in Hq.
      cbn [quiet] in Hq. destruct Hq as [Hxy Hq].
      replace (t_time x - t_time y <=? thr) with false
        by (symmetry; apply Z.leb_gt; lia).
      destruct (pre ++ b :: a :: tl) as [|z rest] eqn:E.
      { destruct pre; discriminate. }
      rewrite <- E.
      change (y :: pre ++ b :: a :: tl) with ((y :: pre) ++ b :: a :: tl).
      rewrite IH by exact Hq. now rewrite <- app_assoc.
Qed.

Lemma pass_within_window (thr : Z) (q : list touch) (b a : touch) (tl : list touch) :
  t_time b - t_time a <= thr ->
  pass thr q (b :: a :: tl) =
    if (t_dur b <? t_dur a) || (t_ch b =? 47)
    then DeletedRow b (q ++ a :: tl)
    else DeletedRow a (q ++ b :: tl).
Proof.
  intros Hw. cbn [pass]. apply Z.leb_le in Hw. rewrite Hw.
  destruct ((t_dur b <? t_dur a) || (t_ch b =? 47)) eqn:E1; [reflexivity|].
  apply orb_false_iff in E1 as [E1 _]. apply Z.ltb_ge in E1.
  replace (t_dur b >=? t_dur a) with true by (symmetry; apply Z.geb_le; lia).
  reflexivity.
Qed.

Lemma repeated_pair (thr : Z) (a b : touch) :
  t_ch a = t_ch b -> t_time a < t_time b -> t_time b - t_time a <= thr ->
  repeated_touches [a; b] thr =
    if (t_dur b <? t_dur a) || (t_ch a =? 47)
    then Done ([a], [b]) else Done ([b], [a]).
Proof.
  intros Hch Hlt Hw. unfold repeated_touches.
  assert (Hchs : repeated_touched_channels [a; b] = [t_ch b]).
  { unfold repeated_touched_channels. cbn [map np_unique fold_right insert_unique].
    rewrite Hch, Z.ltb_irrefl, Z.eqb_refl. cbn [filter on_channel].
    rewrite Hch, Z.eqb_refl. reflexivity. }
  rewrite Hchs. cbn [filter mask existsb]. rewrite Hch, Z.eqb_refl. cbn [orb negb].
  cbn [argsort_time fold_right insert_by_time].
  replace (t_time a <=? t_time b) with true by (symmetry; apply Z.leb_le; lia).
  cbn [rev app for_channels on_channel filter]. rewrite Hch, Z.eqb_refl.
  cbn [length channel_loop Nat.ltb Nat.leb].
  rewrite for_rows_pass0, pass_within_window by assumption.
  destruct ((t_dur b <? t_dur a) || (t_ch b =? 47)); reflexivity.
Qed.

(** C2 (as the code has it).  A channel's rows are scanned latest first, and
    a pass resolves the first pair of neighbours it meets that start within
    the window: an earlier touch [a] and the next touch [b] of the channel
    such that no two neighbours among the touches from [b] on start within
    the window.  The pass deletes the later touch [b] exactly when [b] is
    shorter than [a] or the channel is 47, and deletes the earlier touch [a]
    otherwise; the loop records the deleted row and scans the remaining rows
    again, so the row a pass leaves can be deleted by a later pass.  On the
    two rows alone the filter keeps the one and deletes the other by the same
    rule. *)
Theorem repeated_touch_tie_break (thr : Z) (a b : touch) :
  t_ch a = t_ch b -> t_time a < t_time b -> t_time b - t_time a <= thr ->
  (forall pre tl,
     quiet thr (pre ++ [b]) ->
     RepeatedTouches.for_rows thr (pre ++ b :: a :: tl) 0
                              (length (pre ++ b :: a :: tl)) =
       if (t_dur b <? t_dur a) || (t_ch a =? 47)
       then DeletedRow b (pre ++ a :: tl)
       else DeletedRow a (pre ++ b :: tl)) /\
  (forall pre tl fuel no_rt deleted,
     quiet thr (pre ++ [b]) ->
     channel_loop thr (S fuel) (pre ++ b :: a :: tl) no_rt deleted =
       if (t_dur b <? t_dur a) || (t_ch a =? 47)
       then channel_loop thr fuel (pre ++ a :: tl)
              (if (length (pre ++ a :: tl) <? 2)%nat
               then no_rt ++ (pre ++ a :: tl) else no_rt)
              (deleted ++ [b])
       else channel_loop thr fuel (pre ++ b :: tl)
              (if (length (pre ++ b :: tl) <? 2)%nat
               then no_rt ++ (pre ++ b :: tl) else no_rt)
              (deleted ++ [a])) /\
  repeated_touches [a; b] thr =
    if (t_dur b <? t_dur a) || (t_ch a =? 47)
    then Done ([a], [b]) else Done ([b], [a]).
Proof.
  intros Hch Hlt Hw.
  assert (Hpass : forall pre tl,
            quiet thr (pre ++ [b]) ->
            RepeatedTouches.for_rows thr (pre ++ b :: a :: tl) 0
                                     (length (pre ++ b :: a :: tl)) =
              if (t_dur b <? t_dur a) || (t_ch a =? 47)
              then DeletedRow b (pre ++ a :: tl)
              else DeletedRow a (pre ++ b :: tl)).
  { intros pre tl Hq.
    rewrite for_rows_pass0, pass_skip_quiet by assumption.
    rewrite pass_within_window by assumption. now rewrite Hch. }
  split; [exact Hpass|]. split; [|now apply repeated_pair].
  intros pre tl fuel no_rt deleted Hq. cbn [channel_loop].
  replace (1 <? length (pre ++ b :: a :: tl))%nat with true.
  2:{ symmetry. apply Nat.ltb_lt. rewrite length_app. simpl. lia. }
  rewrite (Hpass pre tl Hq).
  destruct ((t_dur b <? t_dur a) || (t_ch a =? 47)); reflexivity.
Qed.

Lemma repeated_touch_tie_break_witness :
  repeated_touches [mkTouch 0 5 1000 200; mkTouch 0 5 1050 50] 150
    = Done ([mkTouch 0 5 1000 200], [mkTouch 0 5 1050 50]).
Proof.
  refine (proj2 (proj2 (repeated_touch_tie_break 150
                   (mkTouch 0 5 1000 200) (mkTouch 0 5 1050 50) _ _ _)));
    [reflexivity | reflexivity | discriminate].
Defined.

(** C2 as stated fails.  On channel 47 the filter keeps the earlier of two
    touches starting 0.05 s apart and deletes the later one, whatever their
    durations; of two equally long touches on another channel it deletes
    the earlier one; and of three touches 0.1 s apart with growing durations
    it deletes the middle one and keeps the first, the shortest, which after
    that deletion has no neighbour within the window. *)
Lemma repeated_touch_tie_break_as_stated_fails :
  repeated_touches [mkTouch 0 47 1000 200; mkTouch 0 47 1050 50] 150
    = Done ([mkTouch 0 47 1000 200], [mkTouch 0 47 1050 50]) /\
  repeated_touches [mkTouch 0 47 1000 50; mkTouch 0 47 1050 200] 150
    = Done ([mkTouch 0 47 1000 50], [mkTouch 0 47 1050 200]) /\
  repeated_touches [mkTouch 0 5 1000 50; mkTouch 0 5 1050 50] 150
    = Done ([mkTouch 0 5 1050 50], [mkTouch 0 5 1000 50]) /\
  repeated_touches
    [mkTouch 0 5 1000 10; mkTouch 0 5 1100 50; mkTouch 0 5 1200 100] 150
    = Done ([mkTouch 0 5 1000 10; mkTouch 0 5 1200 100], [mkTouch 0 5 1100 50]).
Proof. repeat split; reflexivity. Qed.

(** C6.  Both filters return, and what each returns keeps count: the rows
    kept and the rows recorded as deleted are as many as the rows given.  The
    Repeated-Touch Filter keeps or records each given row exactly once; so
    does the Double-Electrode Filter on rows in start-time order, which is
    how the pipeline hands them over. *)
Theorem filters_conserve_events (touches : list touch) (thr : Z) :
  (exists no_rt deleted,
     repeated_touches touches thr = Done (no_rt, deleted) /\
     (length no_rt + length deleted = length touches)%nat /\
     Permutation (no_rt ++ deleted) touches) /\
  (exists no_de deleted,
     double_electrode touches = Done (no_de, deleted) /\
     (length no_de + length deleted = length touches)%nat /\
     (time_ordered touches -> Permutation (no_de ++ deleted) touches)).
Proof.
  split.
  - destruct (repeated_touches_spec touches thr) as (no_rt & deleted & H & Hp & _).
    exists no_rt, deleted. split; [assumption|]. split; [|assumption].
    rewrite <- length_app. now apply Permutation_length.
  - destruct (double_electrode_spec touches) as (no_de & deleted & H & Hc & _ & Hp).
    exists no_de, deleted. split; [assumption|]. split; [assumption|].
    intros Hs. now apply Hp.
Qed.

Lemma filters_conserve_events_witness :
  time_ordered [mkTouch 0 10 1000 300; mkTouch 0 12 1100 200] /\
  exists no_de deleted,
    double_electrode [mkTouch 0 10 1000 300; mkTouch 0 12 1100 200]
      = Done (no_de, deleted) /\
    Permutation (no_de ++ deleted) [mkTouch 0 10 1000 300; mkTouch 0 12 1100 200].
Proof.
  assert (Hs : time_ordered [mkTouch 0 10 1000 300; mkTouch 0 12 1100 200]).
  { repeat constructor. unfold time_le. simpl. lia. }
  split; [exact Hs|].
  destruct (filters_conserve_events
              [mkTouch 0 10 1000 300; mkTouch 0 12 1100 200] 150)
    as [_ (no_de & deleted & H & _ & Hp)].
  exists no_de, deleted. split; [exact H | exact (Hp Hs)].
Defined.

(** C7 (as the code has it).  The Repeated-Touch Filter returns on every
    input, and run again on the rows it kept it deletes nothing and hands
    back the same rows in start-time order; the list itself is unchanged
    when no two kept rows share a start time. *)
Theorem repeated_touches_second_run (touches : list touch) (thr : Z) :
  exists no_rt deleted,
    repeated_touches touches thr = Done (no_rt, deleted) /\
    exists no_rt2,
      repeated_touches no_rt thr = Done (no_rt2, []) /\
      Permutation no_rt2 no_rt /\ time_ordered no_rt2 /\
      (NoDup (map t_time no_rt) -> no_rt2 = no_rt).
Proof.
  destruct (repeated_touches_spec touches thr)
    as (no_rt & deleted & H & _ & Hs1 & _ & Hsep).
  exists no_rt, deleted. split; [assumption|].
  destruct (repeated_touches_fixed no_rt thr Hsep) as (no_rt2 & H2 & Hp & Hs2).
  exists no_rt2. split; [assumption|]. split; [assumption|].
  split; [now apply time_ordered_strongly|].
  intros Hn. symmetry. apply sorted_unique; try assumption. now symmetry.
Qed.

Lemma repeated_touches_second_run_witness :
  NoDup (map t_time [mkTouch 0 5 1000 200]) /\
  repeated_touches [mkTouch 0 5 1000 200; mkTouch 0 5 1050 50] 150
    = Done ([mkTouch 0 5 1000 200], [mkTouch 0 5 1050 50]) /\
  repeated_touches [mkTouch 0 5 1000 200] 150 = Done ([mkTouch 0 5 1000 200], []).
Proof.
  assert (Hn : NoDup (map t_time [mkTouch 0 5 1000 200])).
  { simpl. constructor; [intros [] | constructor]. }
  split; [exact Hn|]. split; [reflexivity|].
  destruct (repeated_touches_second_run
              [mkTouch 0 5 1000 200; mkTouch 0 5 1050 50] 150)
    as (no_rt & deleted & H & no_rt2 & H2 & _ & _ & Heq).
  injection H as <- <-. rewrite (Heq Hn) in H2. exact H2.
Defined.

(** C7 as stated fails.  Four rows in start-time order, two of them starting
    together on channels 3 and 5: the first run keeps three rows, and the
    second run, deleting nothing, hands them back with the two rows that
    start together exchanged. *)
Lemma repeated_touches_second_run_reorders :
  time_ordered [mkTouch 0 3 0 10; mkTouch 0 5 0 10;
                mkTouch 0 5 100 5; mkTouch 0 3 1000 10] /\
  repeated_touches [mkTouch 0 3 0 10; mkTouch 0 5 0 10;
                    mkTouch 0 5 100 5; mkTouch 0 3 1000 10] 150
    = Done ([mkTouch 0 3 0 10; mkTouch 0 5 0 10; mkTouch 0 3 1000 10],
            [mkTouch 0 5 100 5]) /\
  repeated_touches [mkTouch 0 3 0 10; mkTouch 0 5 0 10; mkTouch 0 3 1000 10] 150
    = Done ([mkTouch 0 5 0 10; mkTouch 0 3 0 10; mkTouch 0 3 1000 10], []) /\
  [mkTouch 0 5 0 10; mkTouch 0 3 0 10; mkTouch 0 3 1000 10]
    <> [mkTouch 0 3 0 10; mkTouch 0 5 0 10; mkTouch 0 3 1000 10].
Proof.
  split; [repeat constructor; unfold time_le; simpl; lia|].
  split; [reflexivity|]. split; [reflexivity | discriminate].
Qed.

(** C8.  The Double-Electrode Filter returns on every list of rows: one pass
    more than there are rows is enough and further passes change nothing; it
    records no more deletions than it was given rows; and run again on the
    rows it kept it deletes nothing and keeps them all. *)
Theorem double_electrode_converges (touches : list touch) :
  exists no_de deleted,
    double_electrode touches = Done (no_de, deleted) /\
    (forall extra,
       loop (S (length touches) + extra) touches [] = Done (no_de, deleted)) /\
    (length deleted <= length touches)%nat /\
    double_electrode no_de = Done (no_de, []).
Proof.
  destruct (double_electrode_spec touches) as (no_de & deleted & H & Hc & Hfix & _).
  exists no_de, deleted. split; [assumption|].
  split; [|split; [lia | now apply double_electrode_fixed]].
  intros extra. eapply loop_fuel; [exact H | lia].
Qed.

(** ** The sample decoder *)

Module DecoderFacts.
Import ProcessTouches.

Lemma nth_pos_digits (p : positive) (b : nat) :
  nth b (pos_digits p) false = Z.testbit (Zpos p) (Z.of_nat b).
Proof.
  revert b. induction p as [p IH|p IH|]; intros b.
  - rewrite Pos2Z.inj_xI. destruct b as [|b].
    + simpl nth. change (Z.of_nat 0) with 0. now rewrite Z.testbit_odd_0.
    + simpl nth. rewrite Nat2Z.inj_succ, Z.testbit_odd_succ by lia. apply IH.
  - rewrite Pos2Z.inj_xO. destruct b as [|b].
    + simpl nth. change (Z.of_nat 0) with 0. now rewrite Z.testbit_even_0.
    + simpl nth. rewrite Nat2Z.inj_succ, Z.testbit_even_succ by lia. apply IH.
  - destruct b as [|b]; [reflexivity|].
    rewrite Nat2Z.inj_succ. change 1 with (2 * 0 + 1).
    rewrite Z.testbit_odd_succ by lia. rewrite Z.testbit_0_l.
    destruct b; reflexivity.
Qed.

Lemma length_pos_digits (p : positive) (k : nat) :
  Zpos p < 2 ^ Z.of_nat k -> (length (pos_digits p) <= k)%nat.
Proof.
  revert k. induction p as [p IH|p IH|]; intros k H; simpl.
  - destruct k as [|k]; [simpl in H; lia|].
    rewrite Nat2Z.inj_succ, Z.pow_succ_r in H by lia.
    apply le_n_S, IH. lia.
  - destruct k as [|k]; [simpl in H; lia|].
    rewrite Nat2Z.inj_succ, Z.pow_succ_r in H by lia.
    apply le_n_S, IH. lia.
  - destruct k as [|k]; [simpl in H; lia | lia].
Qed.

Lemma rev_repeat (b : bool) (k : nat) : rev (repeat b k) = repeat b k.
Proof.
  induction k as [|k IH]; [reflexivity|]. simpl. rewrite IH.
  clear. induction k as [|k IH]; [reflexivity|]. simpl. now rewrite IH.
Qed.

Lemma nth_app_repeat_false (l : list bool) (k b : nat) :
  nth b (l ++ repeat false k) false = nth b l false.
Proof.
  destruct (Nat.lt_ge_cases b (length l)) as [H|H].
  - now rewrite app_nth1.
  - rewrite app_nth2, (nth_overflow l) by lia.
    generalize (b - length l)%nat. clear. intros i. revert i.
    induction k as [|k IH]; intros [|i]; simpl; auto.
Qed.

(** One mask: twelve cells, cell [b] is bit [b]. *)
Lemma decode_mask_bits (m : Z) :
  0 <= m < 4096 ->
  exists bits,
    decode_mask m = Some bits /\ length bits = 12%nat /\
    forall b, nth b bits false = Z.testbit m (Z.of_nat b).
Proof.
  intros [H0 H1]. unfold decode_mask, format_014b. destruct m as [|p|p]; [| |lia].
  - exists (repeat false 12). split; [reflexivity|]. split; [reflexivity|].
    intros b. rewrite Z.testbit_0_l.
    do 12 (destruct b as [|b]; [reflexivity|]). destruct b; reflexivity.
  - assert (Hl : (length (pos_digits p) <= 12)%nat)
      by (apply length_pos_digits; simpl; lia).
    exists (pos_digits p ++ repeat false (12 - length (pos_digits p))).
    rewrite rev_app_distr, rev_involutive, rev_repeat, length_rev.
    split; [reflexivity|]. split.
    + rewrite length_app, repeat_length. lia.
    + intros b. rewrite nth_app_repeat_false. apply nth_pos_digits.
Qed.

Lemma encode_mask_range (bits : list bool) :
  0 <= encode_mask bits < 2 ^ Z.of_nat (length bits).
Proof.
  induction bits as [|b bits IH]; [simpl; lia|].
  cbn [encode_mask length]. rewrite Nat2Z.inj_succ, Z.pow_succ_r by lia.
  destruct b; simpl Z.b2z; lia.
Qed.

Lemma encode_mask_testbit (bits : list bool) (b : nat) :
  Z.testbit (encode_mask bits) (Z.of_nat b) = nth b bits false.
Proof.
  revert b. induction bits as [|x bits IH]; intros b.
  - simpl. rewrite Z.testbit_0_l. destruct b; reflexivity.
  - cbn [encode_mask]. destruct b as [|b].
    + change (Z.of_nat 0) with 0. now rewrite Z.testbit_0_r.
    + rewrite Nat2Z.inj_succ, Z.testbit_succ_r by lia. apply IH.
Qed.

Lemma decode_encode_mask (bits : list bool) :
  length bits = 12%nat -> decode_mask (encode_mask bits) = Some bits.
Proof.
  intros Hl. pose proof (encode_mask_range bits) as Hr. rewrite Hl in Hr.
  destruct (decode_mask_bits (encode_mask bits)) as (bits' & -> & Hl' & Hn);
    [simpl in Hr; lia|].
  f_equal. apply nth_ext with (d := false) (d' := false); [lia|].
  intros b _. now rewrite Hn, encode_mask_testbit.
Qed.

(** All sensors of a row. *)
Lemma touch_list_bits (masks : list Z) :
  Forall (fun m => 0 <= m < 4096) masks ->
  exists bits,
    touch_list masks = Some bits /\ length bits = (length masks * 12)%nat /\
    forall s b, (b < 12)%nat ->
      nth (12 * s + b) bits false = Z.testbit (nth s masks 0) (Z.of_nat b).
Proof.
  induction 1 as [|m masks Hm _ IH].
  - exists []. split; [reflexivity|]. split; [reflexivity|].
    intros s b _. replace (nth s [] 0) with 0 by (destruct s; reflexivity).
    rewrite Z.testbit_0_l. destruct (12 * s + b)%nat; reflexivity.
  - destruct IH as (rest & Hr & Hl & Hn).
    destruct (decode_mask_bits m Hm) as (bits & Hb & Hlb & Hnb).
    exists (bits ++ rest). cbn [touch_list]. rewrite Hb, Hr.
    split; [reflexivity|]. split; [rewrite length_app; simpl; lia|].
    intros s b Hlt. destruct s as [|s].
    + rewrite app_nth1 by lia. simpl. apply Hnb.
    + rewrite app_nth2 by lia.
      replace (12 * S s + b - length bits)%nat with (12 * s + b)%nat by lia.
      cbn [nth]. now apply Hn.
Qed.

Lemma touch_list_encode_row (n : nat) (chans : list bool) :
  length chans = (n * 12)%nat -> touch_list (encode_row n chans) = Some chans.
Proof.
  revert chans. induction n as [|n IH]; intros chans Hl.
  - destruct chans; [reflexivity | discriminate].
  - cbn [encode_row touch_list].
    rewrite decode_encode_mask by (rewrite length_firstn; lia).
    rewrite IH by (rewrite length_skipn; lia).
    now rewrite firstn_skipn.
Qed.

Lemma length_encode_row (n : nat) (chans : list bool) :
  length (encode_row n chans) = n.
Proof.
  revert chans. induction n as [|n IH]; intros chans; simpl; [reflexivity|].
  now rewrite IH.
Qed.

Lemma decode_encode_row (n : nat) (t : Z) (chans : list bool) :
  length chans = (n * 12)%nat ->
  decode_row n (mkRaw t (encode_row n chans)) = Some (mkSample t chans).
Proof.
  intros Hl. unfold decode_row. cbn [r_masks r_time].
  rewrite length_encode_row, Nat.eqb_refl.
  rewrite touch_list_encode_row by assumption.
  now rewrite Hl, Nat.eqb_refl.
Qed.

End DecoderFacts.

(** C5.  The decoder is bit-exact.  For a row of [n] masks of twelve bits
    each, the decoded cell of channel [12*s + b] is bit [b] of the mask of
    sensor [s]; and decoding the raw row, or the raw table, that stands for a
    given channel matrix gives back that matrix. *)
Theorem decoder_bit_exact (n : nat) :
  (forall t masks,
     length masks = n -> Forall (fun m => 0 <= m < 4096) masks ->
     exists bits,
       ProcessTouches.decode_row n (ProcessTouches.mkRaw t masks)
         = Some (ProcessTouches.mkSample t bits) /\
       forall s b, (s < n)%nat -> (b < 12)%nat ->
         nth (12 * s + b) bits false = Z.testbit (nth s masks 0) (Z.of_nat b)) /\
  (forall newdata,
     Forall (fun s => length (ProcessTouches.s_bits s) = (n * 12)%nat) newdata ->
     ProcessTouches.decode n (map (encode_sample n) newdata) = Some newdata).
Proof.
  split.
  - intros t masks Hl Hm.
    destruct (DecoderFacts.touch_list_bits masks Hm) as (bits & Hb & Hlb & Hn).
    exists bits. unfold ProcessTouches.decode_row.
    cbn [ProcessTouches.r_masks ProcessTouches.r_time].
    rewrite Hb, Hlb, Hl, !Nat.eqb_refl.
    split; [reflexivity|]. intros s b _ Hlt. now apply Hn.
  - induction 1 as [|s newdata Hs _ IH]; [reflexivity|].
    cbn [map ProcessTouches.decode]. rewrite IH. unfold encode_sample at 1.
    rewrite DecoderFacts.decode_encode_row by assumption.
    now destruct s.
Qed.

Lemma decoder_bit_exact_witness :
  ProcessTouches.decode_row 1 (ProcessTouches.mkRaw 7 [5])
    = Some (ProcessTouches.mkSample 7
              [true; false; true; false; false; false;
               false; false; false; false; false; false]) /\
  ProcessTouches.decode 1
    (map (encode_sample 1)
         [ProcessTouches.mkSample 7
            [true; false; true; false; false; false;
             false; false; false; false; false; false]])
    = Some [ProcessTouches.mkSample 7
              [true; false; true; false; false; false;
               false; false; false; false; false; false]].
Proof.
  split; [reflexivity|].
  apply (proj2 (decoder_bit_exact 1)).
  constructor; [reflexivity | constructor].
Defined.

(** ** The touch extractor *)

Module ExtractFacts.
Import ProcessTouches.

Lemma extends_refl (st : state) : extends st st.
Proof. split; exists []; now rewrite app_nil_r. Qed.

Lemma extends_trans (st1 st2 st3 : state) :
  extends st1 st2 -> extends st2 st3 -> extends st1 st3.
Proof.
  intros [[t1 Ht1] [l1 Hl1]] [[t2 Ht2] [l2 Hl2]]. split.
  - exists (t1 ++ t2). now rewrite Ht2, Ht1, app_assoc.
  - exists (l1 ++ l2). now rewrite Hl2, Hl1, app_assoc.
Qed.

(** A cell changes [temp] at its own channel only, and only adds to the
    touches and the log. *)
Lemma cell_frame (a : args) (start : Z) (row : nat) (prev cur : sample)
    (ch : nat) (st st' : state) :
  cell a start row prev cur ch st = Some st' ->
  extends st st' /\
  forall k, k <> ch -> st_temp st' !! k = st_temp st !! k.
Proof.
  unfold cell. intros H.
  destruct (touched cur ch && negb (touched prev ch)).
  { injection H as <-. split.
    - split; simpl; [exists []; now rewrite app_nil_r|].
      destruct ((row =? 1)%nat && negb (Z.of_nat ch =? start_ch));
        [eexists; reflexivity | exists []; now rewrite app_nil_r].
    - intros k Hk. simpl. now rewrite lookup_insert_ne. }
  destruct (negb (touched cur ch) && touched prev ch).
  2:{ injection H as <-. split; [apply extends_refl | reflexivity]. }
  destruct (st_temp st !! ch) as [t0|]; [|discriminate].
  assert (Hd : forall k, k <> ch -> delete ch (st_temp st) !! k = st_temp st !! k)
    by (intros k Hk; now rewrite lookup_delete_ne).
  destruct ((s_time cur - start - t0 <? threshold a) &&
            ((finish_ch <? Z.of_nat ch) && (Z.of_nat ch <? start_ch))).
  - destruct (threshold_given a); injection H as <-; (split; [|exact Hd]);
      split; simpl; try (eexists; reflexivity); exists []; now rewrite app_nil_r.
  - injection H as <-. split; [|exact Hd].
    split; simpl; [eexists; reflexivity | exists []; now rewrite app_nil_r].
Qed.

(** With [temp] holding a channel exactly when the previous sample has it
    touched, the cell finds the start time it looks up, and afterwards
    [temp] holds the channel exactly when the current sample has it
    touched. *)
Lemma cell_ok (a : args) (start : Z) (row : nat) (prev cur : sample)
    (ch : nat) (st : state) :
  (is_Some (st_temp st !! ch) <-> touched prev ch = true) ->
  exists st', cell a start row prev cur ch st = Some st' /\
              (is_Some (st_temp st' !! ch) <-> touched cur ch = true).
Proof.
  intros Hinv. unfold cell.
  destruct (touched cur ch) eqn:Ec, (touched prev ch) eqn:Ep; cbn [andb negb].
  - exists st. split; [reflexivity|]. rewrite Hinv. tauto.
  - eexists. split; [reflexivity|]. simpl. rewrite lookup_insert_eq.
    split; [reflexivity | intros _; eexists; reflexivity].
  - destruct (st_temp st !! ch) as [t0|] eqn:Et.
    2:{ exfalso. destruct (proj2 Hinv eq_refl) as [? ?]. discriminate. }
    assert (Hgone : forall m : gmap nat Z, is_Some (delete ch m !! ch) <-> false = true).
    { intros m. rewrite lookup_delete_eq. split; [intros [? ?]|]; discriminate. }
    destruct ((s_time cur - start - t0 <? threshold a) &&
              ((finish_ch <? Z.of_nat ch) && (Z.of_nat ch <? start_ch)));
      [destruct (threshold_given a)|]; eexists; (split; [reflexivity|]); apply Hgone.
  - exists st. split; [reflexivity|]. rewrite Hinv. tauto.
Qed.

Lemma for_ch_ok (a : args) (start : Z) (row : nat) (prev cur : sample)
    (chs : list nat) (st : state) :
  NoDup chs ->
  (forall ch, In ch chs -> is_Some (st_temp st !! ch) <-> touched prev ch = true) ->
  exists st',
    for_ch a start row prev cur chs st = Some st' /\
    (forall ch, In ch chs -> is_Some (st_temp st' !! ch) <-> touched cur ch = true) /\
    (forall k, ~ In k chs -> st_temp st' !! k = st_temp st !! k) /\
    extends st st'.
Proof.
  revert st. induction chs as [|ch chs IH]; intros st Hn Hinv.
  - exists st. split; [reflexivity|]. split; [intros ? []|].
    split; [reflexivity | apply extends_refl].
  - inversion Hn as [|? ? Hch Hn']; subst. cbn [for_ch].
    destruct (cell_ok a start row prev cur ch st) as (st1 & Hc & H1);
      [apply Hinv; now left|].
    rewrite Hc. destruct (cell_frame _ _ _ _ _ _ _ _ Hc) as [Hext Hother].
    destruct (IH st1 Hn') as (st' & Hf & Hin & Hout & Hext').
    { intros k Hk. rewrite Hother; [apply Hinv; now right|].
      intros ->. contradiction. }
    exists st'. split; [assumption|]. split; [|split].
    + intros k [<-|Hk]; [|now apply Hin]. now rewrite Hout.
    + intros k Hk. rewrite Hout by (intros Hk'; apply Hk; now right).
      apply Hother. intros ->. apply Hk. now left.
    + eapply extends_trans; eauto.
Qed.

Lemma last_cons (x d : sample) (l : list sample) : last (x :: l) d = last l x.
Proof.
  revert x d. induction l as [|y l IH]; intros x d; [reflexivity|].
  change (last (x :: y :: l) d) with (last (y :: l) d).
  now rewrite (IH y d), (IH y x).
Qed.

Lemma for_row_ok (a : args) (start : Z) (nch row : nat) (prev : sample)
    (rows : list sample) (st : state) :
  (forall ch, (ch < nch)%nat ->
     is_Some (st_temp st !! ch) <-> touched prev ch = true) ->
  exists st',
    for_row a start nch row prev rows st = Some st' /\
    (forall ch, (ch < nch)%nat ->
       is_Some (st_temp st' !! ch) <-> touched (last rows prev) ch = true) /\
    extends st st'.
Proof.
  revert row prev st. induction rows as [|cur rows IH]; intros row prev st Hinv.
  - exists st. split; [reflexivity|]. split; [exact Hinv | apply extends_refl].
  - cbn [for_row].
    destruct (for_ch_ok a start row prev cur (seq 0 nch) st) as (st1 & Hf & Hin & _ & He).
    { apply seq_NoDup. }
    { intros ch Hch. apply in_seq in Hch. apply Hinv. lia. }
    rewrite Hf.
    destruct (IH (S row) cur st1) as (st' & Hr & Hin' & He').
    { intros ch Hch. apply Hin, in_seq. lia. }
    exists st'. split; [assumption|]. split.
    + intros ch Hch. rewrite last_cons. now apply Hin'.
    + eapply extends_trans; eauto.
Qed.

Lemma untouched_row (s : sample) (ch : nat) :
  first_row_touched s = false -> touched s ch = false.
Proof.
  unfold first_row_touched, touched. intros H.
  destruct (nth ch (s_bits s) false) eqn:E; [|reflexivity].
  destruct (Nat.lt_ge_cases ch (length (s_bits s))) as [Hl|Hl].
  - assert (Hex : existsb (fun b => b) (s_bits s) = true).
    { apply existsb_exists. exists true. split; [|reflexivity].
      rewrite <- E. now apply nth_In. }
    congruence.
  - rewrite nth_overflow in E by assumption. discriminate.
Qed.

Lemma start_inv (first : sample) (nch : nat) :
  first_row_touched first = false ->
  forall ch, (ch < nch)%nat ->
    is_Some (st_temp (mkState [] ∅ []) !! ch) <-> touched first ch = true.
Proof.
  intros H ch _. simpl. rewrite lookup_empty, (untouched_row first ch H).
  split; [intros [? ?]|]; discriminate.
Qed.

(** The scan returns: no lookup of [temp] misses. *)
Lemma extract_returns (a : args) (nch : nat) (first : sample) (rows : list sample) :
  first_row_touched first = false ->
  exists st, extract a nch (first :: rows) = Some st.
Proof.
  intros H. unfold extract.
  destruct (for_row_ok a (s_time first) nch 1 first rows (mkState [] ∅ []))
    as (st & Hst & _); [now apply start_inv|].
  now exists st.
Qed.

End ExtractFacts.

(** C10.  When the first sample has no touched bit, the scan never misses a
    key: at every release the channel is in [temp], so the extraction loop
    runs to the last row and returns its state. *)
Theorem release_finds_open_touch (a : ProcessTouches.args) (nch : nat)
    (first : ProcessTouches.sample) (rows : list ProcessTouches.sample) :
  ProcessTouches.first_row_touched first = false ->
  exists st, ProcessTouches.extract a nch (first :: rows) = Some st.
Proof. apply ExtractFacts.extract_returns. Qed.

(** ** One channel at a time *)

Module ChannelView.
Import ProcessTouches.

Lemma on_channel_snoc_same (c : Z) (l : list touch) (x : touch) :
  t_ch x = c -> on_channel c (l ++ [x]) = on_channel c l ++ [x].
Proof.
  intros E. unfold on_channel. rewrite filter_app. simpl.
  now rewrite E, Z.eqb_refl.
Qed.

Lemma on_channel_snoc_other (c : Z) (l : list touch) (x : touch) :
  t_ch x <> c -> on_channel c (l ++ [x]) = on_channel c l.
Proof.
  intros E. unfold on_channel. rewrite filter_app. simpl.
  apply Z.eqb_neq in E. rewrite E. apply app_nil_r.
Qed.

Lemma about_snoc_same (ch : nat) (l : list log_entry) (e : log_entry) :
  about ch e = true -> filter (about ch) (l ++ [e]) = filter (about ch) l ++ [e].
Proof. intros E. rewrite filter_app. simpl. now rewrite E. Qed.

Lemma about_snoc_other (ch : nat) (l : list log_entry) (e : log_entry) :
  about ch e = false -> filter (about ch) (l ++ [e]) = filter (about ch) l.
Proof. intros E. rewrite filter_app. simpl. rewrite E. apply app_nil_r. Qed.

(** The cell of channel [ch] acts on the view of [ch] as [chan_cell]. *)
Lemma cell_view_same (a : args) (start : Z) (row : nat) (prev cur : sample)
    (ch : nat) (st st' : state) :
  cell a start row prev cur ch st = Some st' ->
  chan_cell a start row prev cur ch (view ch st) = Some (view ch st').
Proof.
  unfold cell, chan_cell. cbn [view c_open c_touches c_log].
  destruct (touched cur ch && negb (touched prev ch)).
  { intros [= <-]. unfold view. cbn [st_touches st_temp st_log].
    rewrite lookup_insert_eq.
    destruct ((row =? 1)%nat && negb (Z.of_nat ch =? start_ch)); [|reflexivity].
    rewrite about_snoc_same; [reflexivity | simpl; apply Nat.eqb_refl]. }
  destruct (negb (touched cur ch) && touched prev ch); [|now intros [= <-]].
  destruct (st_temp st !! ch) as [t0|]; [|discriminate].
  cbv zeta.
  destruct ((s_time cur - start - t0 <? threshold a) &&
            ((finish_ch <? Z.of_nat ch) && (Z.of_nat ch <? start_ch)));
    [destruct (threshold_given a)|]; intros [= <-]; unfold view;
    cbn [st_touches st_temp st_log]; rewrite lookup_delete_eq;
    rewrite ?on_channel_snoc_same by reflexivity;
    rewrite ?about_snoc_same by (simpl; apply Z.eqb_refl); reflexivity.
Qed.

(** The cell of another channel leaves the view of [ch] alone. *)
Lemma cell_view_other (a : args) (start : Z) (row : nat) (prev cur : sample)
    (k ch : nat) (st st' : state) :
  k <> ch -> cell a start row prev cur k st = Some st' -> view ch st' = view ch st.
Proof.
  intros Hk. unfold cell.
  assert (Hz : Z.of_nat k <> Z.of_nat ch) by lia.
  assert (Hzb : (Z.of_nat k =? Z.of_nat ch) = false) by now apply Z.eqb_neq.
  assert (Hnb : (k =? ch)%nat = false) by now apply Nat.eqb_neq.
  destruct (touched cur k && negb (touched prev k)).
  { intros [= <-]. unfold view. cbn [st_touches st_temp st_log].
    rewrite lookup_insert_ne by assumption.
    destruct ((row =? 1)%nat && negb (Z.of_nat k =? start_ch)); [|reflexivity].
    now rewrite about_snoc_other. }
  destruct (negb (touched cur k) && touched prev k); [|now intros [= <-]].
  destruct (st_temp st !! k) as [t0|]; [|discriminate].
  destruct ((s_time cur - start - t0 <? threshold a) &&
            ((finish_ch <? Z.of_nat k) && (Z.of_nat k <? start_ch)));
    [destruct (threshold_given a)|]; intros [= <-]; unfold view;
    cbn [st_touches st_temp st_log]; rewrite lookup_delete_ne by assumption;
    rewrite ?on_channel_snoc_other by (simpl; assumption);
    rewrite ?about_snoc_other by (simpl; assumption); reflexivity.
Qed.

Lemma for_ch_view_other (a : args) (start : Z) (row : nat) (prev cur : sample)
    (chs : list nat) (ch : nat) (st st' : state) :
  ~ In ch chs -> for_ch a start row prev cur chs st = Some st' ->
  view ch st' = view ch st.
Proof.
  revert st. induction chs as [|k chs IH]; intros st Hn H.
  - now injection H as <-.
  - cbn [for_ch] in H.
    destruct (cell a start row prev cur k st) as [st1|] eqn:Hc; [|discriminate].
    rewrite (IH st1) by (auto; intros Hin; apply Hn; now right).
    eapply cell_view_other; [|exact Hc]. intros ->. apply Hn. now left.
Qed.

Lemma for_ch_view (a : args) (start : Z) (row : nat) (prev cur : sample)
    (chs : list nat) (ch : nat) (st st' : state) :
  NoDup chs -> In ch chs -> for_ch a start row prev cur chs st = Some st' ->
  chan_cell a start row prev cur ch (view ch st) = Some (view ch st').
Proof.
  revert st. induction chs as [|k chs IH]; intros st Hn Hin H; [destruct Hin|].
  inversion Hn as [|? ? Hk Hn']; subst. cbn [for_ch] in H.
  destruct (cell a start row prev cur k st) as [st1|] eqn:Hc; [|discriminate].
  destruct (Nat.eq_dec k ch) as [->|Hne].
  - rewrite (for_ch_view_other _ _ _ _ _ _ _ _ _ Hk H).
    eapply cell_view_same, Hc.
  - destruct Hin as [->|Hin]; [contradiction|].
    rewrite <- (cell_view_other _ _ _ _ _ _ _ _ _ Hne Hc). now apply IH.
Qed.

(** The whole scan acts on the view of a channel as the scan of that channel
    alone. *)
Lemma for_row_view (a : args) (start : Z) (nch row : nat) (prev : sample)
    (rows : list sample) (ch : nat) (st st' : state) :
  (ch < nch)%nat -> for_row a start nch row prev rows st = Some st' ->
  chan_rows a start ch row prev rows (view ch st) = Some (view ch st').
Proof.
  intros Hch. revert row prev st.
  induction rows as [|cur rows IH]; intros row prev st H.
  - now injection H as <-.
  - cbn [for_row] in H. cbn [chan_rows].
    destruct (for_ch a start row prev cur (seq 0 nch) st) as [st1|] eqn:Hf;
      [|discriminate].
    rewrite (for_ch_view _ _ _ _ _ _ _ _ _ (seq_NoDup _ _) (proj2 (in_seq _ _ _) (conj (Nat.le_0_l _) Hch)) Hf).
    now apply IH.
Qed.

End ChannelView.

Module ChannelScan.
Import ProcessTouches.

Lemma chan_rows_app (a : args) (start : Z) (ch row : nat) (prev : sample)
    (l1 l2 : list sample) (v : chan_state) :
  chan_rows a start ch row prev (l1 ++ l2) v =
    match chan_rows a start ch row prev l1 v with
    | Some v' => chan_rows a start ch (row + length l1) (last l1 prev) l2 v'
    | None => None
    end.
Proof.
  revert row prev v. induction l1 as [|x l1 IH]; intros row prev v.
  - simpl. now rewrite Nat.add_0_r.
  - change ((x :: l1) ++ l2) with (x :: (l1 ++ l2)). cbn [chan_rows].
    destruct (chan_cell a start row prev x ch v) as [v1|]; [|reflexivity].
    rewrite IH, ExtractFacts.last_cons. cbn [length].
    now replace (S row + length l1)%nat with (row + S (length l1))%nat by lia.
Qed.

Lemma split_rows (first : sample) (rows pre : list sample) (p : sample)
    (rest : list sample) :
  first :: rows = pre ++ p :: rest ->
  exists l1, rows = l1 ++ rest /\ last l1 first = p /\ length l1 = length pre /\
             pre ++ [p] = first :: l1.
Proof.
  destruct pre as [|f pre]; simpl; intros [= -> ->].
  - exists []. auto.
  - exists (pre ++ [p]). rewrite <- app_assoc. split; [reflexivity|].
    split; [apply last_last|]. split; [rewrite length_app; simpl; lia | reflexivity].
Qed.

(** Touches and log lines of a channel only grow, and [good] is kept. *)
Lemma chan_cell_grows (a : args) (start : Z) (row : nat) (prev cur : sample)
    (ch : nat) (v v' : chan_state) :
  chan_cell a start row prev cur ch v = Some v' -> good a ch v ->
  good a ch v' /\
  (exists t, c_touches v' = c_touches v ++ t) /\
  (exists l, c_log v' = c_log v ++ l).
Proof.
  unfold chan_cell, good. intros H (G1 & G2 & G3).
  assert (Hnil : forall A (l : list A), exists t, l = l ++ t)
    by (intros A l; exists []; now rewrite app_nil_r).
  destruct (touched cur ch && negb (touched prev ch)).
  { injection H as <-. cbn [c_touches c_log]. split; [|split; [apply Hnil|]].
    - split; [exact G1|]. cbn [c_log].
      destruct ((row =? 1)%nat && negb (Z.of_nat ch =? start_ch)); split;
        try assumption; intros Hx; rewrite Forall_app; (split; [auto|]);
        repeat constructor; simpl; auto.
    - destruct ((row =? 1)%nat && negb (Z.of_nat ch =? start_ch));
        [eexists; reflexivity | apply Hnil]. }
  destruct (negb (touched cur ch) && touched prev ch).
  2:{ injection H as <-. split; [now repeat split|]. split; apply Hnil. }
  destruct (c_open v) as [t0|]; [|discriminate]. cbv zeta in H.
  destruct ((s_time cur - start - t0 <? threshold a) &&
            ((finish_ch <? Z.of_nat ch) && (Z.of_nat ch <? start_ch))) eqn:Es.
  - apply andb_true_iff in Es as [_ Hb]. apply andb_true_iff in Hb as [Hb1 Hb2].
    apply Z.ltb_lt in Hb1, Hb2.
    destruct (threshold_given a) eqn:Eg; injection H as <-; cbn [c_touches c_log].
    + split; [|split; [apply Hnil | eexists; reflexivity]].
      split; [exact G1|]. split; [discriminate|]. intros Hx. lia.
    + split; [|split; eexists; reflexivity].
      split; [discriminate|]. split; [|intros Hx; lia].
      intros _. rewrite Forall_app. split; [auto|]. repeat constructor. simpl. auto.
  - injection H as <-. cbn [c_touches c_log].
    split; [|split; [eexists; reflexivity | apply Hnil]].
    split; [|split; assumption].
    intros Hg Hr. rewrite Forall_app. split; [auto|]. repeat constructor. simpl.
    apply andb_false_iff in Es as [Es|Es]; [apply Z.ltb_ge in Es; lia|].
    destruct Hr as [Hr1 Hr2]. apply Z.ltb_lt in Hr1, Hr2. rewrite Hr1, Hr2 in Es.
    discriminate.
Qed.

Lemma chan_rows_grows (a : args) (start : Z) (ch row : nat) (prev : sample)
    (rows : list sample) (v v' : chan_state) :
  chan_rows a start ch row prev rows v = Some v' -> good a ch v ->
  good a ch v' /\
  (exists t, c_touches v' = c_touches v ++ t) /\
  (exists l, c_log v' = c_log v ++ l).
Proof.
  revert row prev v. induction rows as [|cur rows IH]; intros row prev v H G.
  - injection H as <-. split; [assumption|]. split; exists []; now rewrite app_nil_r.
  - cbn [chan_rows] in H.
    destruct (chan_cell a start row prev cur ch v) as [v1|] eqn:Hc; [|discriminate].
    destruct (chan_cell_grows _ _ _ _ _ _ _ _ Hc G) as (G1 & [t1 Ht1] & [l1 Hl1]).
    destruct (IH _ _ _ H G1) as (G' & [t2 Ht2] & [l2 Hl2]).
    split; [assumption|]. split.
    + exists (t1 ++ t2). now rewrite Ht2, Ht1, app_assoc.
    + exists (l1 ++ l2). now rewrite Hl2, Hl1, app_assoc.
Qed.

(** While the channel stays touched nothing happens to it. *)
Lemma chan_rows_held (a : args) (start : Z) (ch row : nat) (prev : sample)
    (held : list sample) (v : chan_state) :
  touched prev ch = true -> Forall (fun s => touched s ch = true) held ->
  chan_rows a start ch row prev held v = Some v /\
  touched (last held prev) ch = true.
Proof.
  intros Hp Hh. revert row prev Hp.
  induction Hh as [|cur held Hc _ IH]; intros row prev Hp; [now split|].
  cbn [chan_rows]. unfold chan_cell. rewrite Hc, Hp. cbn [andb negb].
  rewrite ExtractFacts.last_cons. now apply IH.
Qed.

Lemma good_start (a : args) (ch : nat) : good a ch (mkChan [] None []).
Proof. repeat split; intros; constructor. Qed.

(** A touch of the channel from its rise to its release, seen on the view:
    what the state [v3] right after the release holds. *)
Lemma chan_completed (a : args) (start : Z) (ch row : nat) (p rise : sample)
    (held : list sample) (rel : sample) (post : list sample)
    (v1 vf : chan_state) :
  chan_rows a start ch row p (rise :: held ++ rel :: post) v1 = Some vf ->
  touched p ch = false -> touched rise ch = true ->
  Forall (fun s => touched s ch = true) held -> touched rel ch = false ->
  good a ch v1 ->
  let c := Z.of_nat ch in
  let t0 := s_time rise - start in
  let d := s_time rel - start - t0 in
  good a ch vf /\
  exists v3 : chan_state,
    (exists t, c_touches vf = c_touches v3 ++ t) /\
    (exists l, c_log vf = c_log v3 ++ l) /\
    exists ts lg,
      v3 = (if (d <? threshold a) && ((finish_ch <? c) && (c <? start_ch))
            then if threshold_given a
                 then mkChan ts None (lg ++ [LogDelete c t0 d (threshold a)])
                 else mkChan (ts ++ [mkTouch 0 c t0 d]) None
                             (lg ++ [LogWarning c t0 d])
            else mkChan (ts ++ [mkTouch 0 c t0 d]) None lg).
Proof.
  intros H Hp Hr Hh Hrel G c t0 d.
  cbn [chan_rows] in H.
  destruct (chan_cell a start row p rise ch v1) as [v2|] eqn:Hc2; [|discriminate].
  destruct (chan_cell_grows _ _ _ _ _ _ _ _ Hc2 G) as (G2 & _ & _).
  assert (Hopen : c_open v2 = Some t0).
  { unfold chan_cell in Hc2. rewrite Hr, Hp in Hc2. cbn [andb negb] in Hc2.
    now injection Hc2 as <-. }
  rewrite chan_rows_app in H.
  destruct (chan_rows_held a start ch (S row) rise held v2 Hr Hh) as [Hheld Hlast].
  rewrite Hheld in H. cbn [chan_rows] in H.
  destruct (chan_cell a start (S row + length held) (last held rise) rel ch v2)
    as [v3|] eqn:Hc3; [|discriminate].
  destruct (chan_cell_grows _ _ _ _ _ _ _ _ Hc3 G2) as (G3 & _ & _).
  destruct (chan_rows_grows _ _ _ _ _ _ _ _ H G3) as (Gf & Ht & Hl).
  split; [assumption|]. exists v3. split; [assumption|]. split; [assumption|].
  exists (c_touches v2), (c_log v2).
  unfold chan_cell in Hc3. rewrite Hrel, Hlast, Hopen in Hc3.
  cbn [andb negb] in Hc3. cbv zeta in Hc3. fold c d in Hc3.
  destruct ((d <? threshold a) && ((finish_ch <? c) && (c <? start_ch)));
    [destruct (threshold_given a)|]; now injection Hc3 as <-.
Qed.

End ChannelScan.

Module ScanFacts.
Import ProcessTouches.

Lemma for_row_app (a : args) (start : Z) (nch row : nat) (prev : sample)
    (l1 l2 : list sample) (st : state) :
  for_row a start nch row prev (l1 ++ l2) st =
    match for_row a start nch row prev l1 st with
    | Some st' => for_row a start nch (row + length l1) (last l1 prev) l2 st'
    | None => None
    end.
Proof.
  revert row prev st. induction l1 as [|x l1 IH]; intros row prev st.
  - simpl. now rewrite Nat.add_0_r.
  - change ((x :: l1) ++ l2) with (x :: (l1 ++ l2)). cbn [for_row].
    destruct (for_ch a start row prev x (seq 0 nch) st) as [st1|]; [|reflexivity].
    rewrite IH, ExtractFacts.last_cons. cbn [length].
    now replace (S row + length l1)%nat with (row + S (length l1))%nat by lia.
Qed.

Lemma view_start (ch : nat) : view ch (mkState [] ∅ []) = mkChan [] None [].
Proof. unfold view. simpl. now rewrite lookup_empty. Qed.

Lemma view_touch (ch : nat) (st : state) (x : touch) :
  t_ch x = Z.of_nat ch ->
  In x (c_touches (view ch st)) <-> In x (st_touches st).
Proof.
  intros E. cbn [view c_touches]. rewrite RepeatedTouchesFacts.on_channel_In. tauto.
Qed.

Lemma view_log (ch : nat) (st : state) (e : log_entry) :
  In e (c_log (view ch st)) <-> In e (st_log st) /\ about ch e = true.
Proof. cbn [view c_log]. apply filter_In. Qed.

(** A channel that rises and is still touched in the last sample: its view
    keeps the touches it had, holds the start time, and gains at most the
    first-touch warning. *)
Lemma chan_dangling (a : args) (start : Z) (ch row : nat) (p rise : sample)
    (held : list sample) (v1 vf : chan_state) :
  chan_rows a start ch row p (rise :: held) v1 = Some vf ->
  touched p ch = false -> touched rise ch = true ->
  Forall (fun s => touched s ch = true) held ->
  vf = mkChan (c_touches v1) (Some (s_time rise - start))
         (c_log v1 ++
          if (row =? 1)%nat && negb (Z.of_nat ch =? start_ch)
          then [LogFirstTouch ch] else []).
Proof.
  intros H Hp Hr Hh. cbn [chan_rows] in H.
  unfold chan_cell in H. rewrite Hr, Hp in H. cbn [andb negb] in H.
  rewrite (proj1 (ChannelScan.chan_rows_held a start ch (S row) rise held _ Hr Hh)) in H.
  injection H as <-. f_equal.
  destruct ((row =? 1)%nat && negb (Z.of_nat ch =? start_ch));
    [reflexivity | now rewrite app_nil_r].
Qed.

End ScanFacts.

(** C4.  A touch of channel [ch] that rises after an untouched sample, stays
    touched and is released has start time [t0] and duration [d].  On a
    channel strictly between finish and start: with a threshold given on the
    command line and [d] below it the touch is not among the extracted
    touches and a deletion is logged for it; with no threshold given and [d]
    below 0.1 s the touch is kept and a warning, no deletion, is logged.  On
    the finish and start channels the touch is kept and the log has no
    warning or deletion about the channel. *)
Theorem short_touch_rule (a : ProcessTouches.args) (nch : nat)
    (first : ProcessTouches.sample) (rows pre : list ProcessTouches.sample)
    (p rise : ProcessTouches.sample) (held : list ProcessTouches.sample)
    (rel : ProcessTouches.sample) (post : list ProcessTouches.sample) (ch : nat) :
  first :: rows = pre ++ p :: rise :: held ++ rel :: post ->
  ProcessTouches.first_row_touched first = false ->
  (ch < nch)%nat ->
  ProcessTouches.touched p ch = false ->
  ProcessTouches.touched rise ch = true ->
  Forall (fun s => ProcessTouches.touched s ch = true) held ->
  ProcessTouches.touched rel ch = false ->
  ProcessTouches.s_time rise <= ProcessTouches.s_time rel ->
  exists st,
    ProcessTouches.extract a nch (first :: rows) = Some st /\
    let c := Z.of_nat ch in
    let t0 := ProcessTouches.s_time rise - ProcessTouches.s_time first in
    let d := ProcessTouches.s_time rel - ProcessTouches.s_time rise in
    (finish_ch < c < start_ch ->
     match ProcessTouches.arg_threshold a with
     | Some t =>
         d < t ->
         ~ In (mkTouch 0 c t0 d) (ProcessTouches.st_touches st) /\
         In (ProcessTouches.LogDelete c t0 d t) (ProcessTouches.st_log st)
     | None =>
         d < 100 ->
         In (mkTouch 0 c t0 d) (ProcessTouches.st_touches st) /\
         In (ProcessTouches.LogWarning c t0 d) (ProcessTouches.st_log st) /\
         forall t' d' thr',
           ~ In (ProcessTouches.LogDelete c t' d' thr') (ProcessTouches.st_log st)
     end) /\
    (c = finish_ch \/ c = start_ch ->
     In (mkTouch 0 c t0 d) (ProcessTouches.st_touches st) /\
     forall e, In e (ProcessTouches.st_log st) -> about ch e = true ->
               is_first_touch e).
Proof.
  intros Hsplit Hfirst Hch Hp Hr Hh Hrel Hmono.
  destruct (ExtractFacts.extract_returns a nch first rows Hfirst) as [st Hst].
  exists st. split; [exact Hst|]. intros c t0 d.
  unfold ProcessTouches.extract in Hst.
  apply (ChannelView.for_row_view _ _ _ _ _ _ ch _ _ Hch) in Hst.
  rewrite ScanFacts.view_start in Hst.
  destruct (ChannelScan.split_rows _ _ _ _ _ Hsplit) as (l1 & -> & Hlast & _ & _).
  rewrite ChannelScan.chan_rows_app, Hlast in Hst.
  destruct (chan_rows a (ProcessTouches.s_time first) ch 1 first l1 (mkChan [] None []))
    as [v1|] eqn:Hv1; [|discriminate].
  destruct (ChannelScan.chan_rows_grows _ _ _ _ _ _ _ _ Hv1 (ChannelScan.good_start a ch))
    as (G1 & _ & _).
  destruct (ChannelScan.chan_completed _ _ _ _ _ _ _ _ _ _ _ Hst Hp Hr Hh Hrel G1)
    as ((Gf1 & Gf2 & Gf3) & v3 & [t Ht] & [l Hl] & ts & lg & Hv3).
  fold t0 in Hv3.
  replace (ProcessTouches.s_time rel - ProcessTouches.s_time first - t0) with d in Hv3
    by (unfold d, t0; lia).
  fold c in Hv3.
  assert (Hc : t_ch (mkTouch 0 c t0 d) = Z.of_nat ch) by reflexivity.
  split.
  - intros [Hlo Hhi].
    assert (Hband : (finish_ch <? c) && (c <? start_ch) = true).
    { apply andb_true_iff. split; now apply Z.ltb_lt. }
    rewrite Hband, andb_true_r in Hv3.
    unfold ProcessTouches.threshold, ProcessTouches.threshold_given in *.
    destruct (ProcessTouches.arg_threshold a) as [thr|].
    + intros Hd. destruct (Z.eqb_spec thr 0) as [E0|Hne]; [unfold d in Hd; lia|].
      cbn [negb] in *.
      replace (d <? thr) with true in Hv3 by (symmetry; now apply Z.ltb_lt).
      subst v3. cbn [c_touches c_log] in Ht, Hl. split.
      * intros Hin. apply (ScanFacts.view_touch ch st _ Hc) in Hin.
        specialize (Gf1 eq_refl (conj Hlo Hhi)).
        rewrite Forall_forall in Gf1. specialize (Gf1 _ Hin). simpl in Gf1. lia.
      * apply (ScanFacts.view_log ch st). rewrite Hl.
        apply in_or_app. left. apply in_or_app. right. now left.
    + intros Hd.
      replace (d <? 100) with true in Hv3 by (symmetry; now apply Z.ltb_lt).
      subst v3. cbn [c_touches c_log] in Ht, Hl. split; [|split].
      * apply (ScanFacts.view_touch ch st _ Hc). rewrite Ht.
        apply in_or_app. left. apply in_or_app. right. now left.
      * apply (ScanFacts.view_log ch st). rewrite Hl.
        apply in_or_app. left. apply in_or_app. right. now left.
      * intros t' d' thr' Hin.
        assert (Hin' : In (ProcessTouches.LogDelete c t' d' thr') (c_log (view ch st))).
        { apply ScanFacts.view_log. split; [assumption|]. simpl. apply Z.eqb_refl. }
        specialize (Gf2 eq_refl). rewrite Forall_forall in Gf2.
        apply (Gf2 _ Hin'). exact I.
  - intros Hends.
    assert (Hband : (finish_ch <? c) && (c <? start_ch) = false).
    { apply andb_false_iff. unfold finish_ch, start_ch in *.
      destruct Hends as [->| ->]; [left | right]; reflexivity. }
    rewrite Hband, andb_false_r in Hv3. subst v3. cbn [c_touches c_log] in Ht, Hl.
    split.
    + apply (ScanFacts.view_touch ch st _ Hc). rewrite Ht.
      apply in_or_app. left. apply in_or_app. right. now left.
    + intros e He Hab.
      assert (Hout : ~ finish_ch < Z.of_nat ch < start_ch).
      { fold c. unfold finish_ch, start_ch in *. lia. }
      specialize (Gf3 Hout). rewrite Forall_forall in Gf3. apply Gf3.
      apply ScanFacts.view_log. now split.
Qed.

(** C3 (as the code has it).  A channel that rises after an untouched sample
    and is still touched in the last sample: the scan runs to the end without
    an error, [temp] still holds the channel with its start time, and the
    touches and log lines about the channel are those of the scan up to the
    sample before the rise, with the first-touch warning added when the rise
    is in the second sample on a channel other than 47. *)
Theorem open_touch_stays_in_temp (a : ProcessTouches.args) (nch : nat)
    (first : ProcessTouches.sample) (rows pre : list ProcessTouches.sample)
    (p rise : ProcessTouches.sample) (held : list ProcessTouches.sample)
    (ch : nat) :
  first :: rows = pre ++ p :: rise :: held ->
  ProcessTouches.first_row_touched first = false ->
  (ch < nch)%nat ->
  ProcessTouches.touched p ch = false ->
  ProcessTouches.touched rise ch = true ->
  Forall (fun s => ProcessTouches.touched s ch = true) held ->
  exists st0 st,
    ProcessTouches.extract a nch (pre ++ [p]) = Some st0 /\
    ProcessTouches.extract a nch (first :: rows) = Some st /\
    ProcessTouches.st_temp st !! ch
      = Some (ProcessTouches.s_time rise - ProcessTouches.s_time first) /\
    on_channel (Z.of_nat ch) (ProcessTouches.st_touches st)
      = on_channel (Z.of_nat ch) (ProcessTouches.st_touches st0) /\
    filter (about ch) (ProcessTouches.st_log st)
      = filter (about ch) (ProcessTouches.st_log st0) ++
        if (length pre =? 0)%nat && negb (Z.of_nat ch =? start_ch)
        then [ProcessTouches.LogFirstTouch ch] else [].
Proof.
  intros Hsplit Hfirst Hch Hp Hr Hh.
  destruct (ExtractFacts.extract_returns a nch first rows Hfirst) as [st Hst].
  destruct (ChannelScan.split_rows _ _ _ _ _ Hsplit) as (l1 & -> & Hlast & Hlen & Hpre).
  unfold ProcessTouches.extract in Hst. rewrite ScanFacts.for_row_app, Hlast in Hst.
  destruct (ProcessTouches.for_row a (ProcessTouches.s_time first) nch 1 first l1
              (ProcessTouches.mkState [] ∅ [])) as [st0|] eqn:Hst0; [|discriminate].
  exists st0, st. rewrite Hpre. split; [exact Hst0|].
  split; [unfold ProcessTouches.extract; now rewrite ScanFacts.for_row_app, Hst0, Hlast|].
  apply (ChannelView.for_row_view _ _ _ _ _ _ ch _ _ Hch) in Hst.
  apply (ScanFacts.chan_dangling _ _ _ _ _ _ _ _ _ Hst Hp Hr) in Hh.
  replace (1 + length l1 =? 1)%nat with (length pre =? 0)%nat in Hh
    by (rewrite Hlen; destruct (length pre); reflexivity).
  unfold view in Hh. injection Hh as H1 H2 H3. auto.
Qed.

(** ** The extractor on concrete tables *)

Lemma release_finds_open_touch_witness :
  ProcessTouches.first_row_touched (ProcessTouches.mkSample 0 [false]) = false /\
  exists st,
    ProcessTouches.extract (ProcessTouches.mkArgs None false) 1
      [ProcessTouches.mkSample 0 [false]; ProcessTouches.mkSample 10 [true];
       ProcessTouches.mkSample 30 [false]] = Some st.
Proof.
  split; [reflexivity|].
  apply (release_finds_open_touch (ProcessTouches.mkArgs None false) 1
           (ProcessTouches.mkSample 0 [false])
           [ProcessTouches.mkSample 10 [true]; ProcessTouches.mkSample 30 [false]]).
  reflexivity.
Defined.

Lemma short_touch_rule_witness :
  exists st,
    ProcessTouches.extract (ProcessTouches.mkArgs (Some 100) false) 14
      [ProcessTouches.mkSample 0 [];
       ProcessTouches.mkSample 300 (repeat false 13 ++ [true]);
       ProcessTouches.mkSample 350 []] = Some st /\
    ~ In (mkTouch 0 13 300 50) (ProcessTouches.st_touches st) /\
    In (ProcessTouches.LogDelete 13 300 50 100) (ProcessTouches.st_log st).
Proof.
  destruct (short_touch_rule (ProcessTouches.mkArgs (Some 100) false) 14
              (ProcessTouches.mkSample 0 [])
              [ProcessTouches.mkSample 300 (repeat false 13 ++ [true]);
               ProcessTouches.mkSample 350 []]
              [] (ProcessTouches.mkSample 0 [])
              (ProcessTouches.mkSample 300 (repeat false 13 ++ [true]))
              [] (ProcessTouches.mkSample 350 []) [] 13)
    as (st & Hst & Hshort & _);
    [reflexivity | reflexivity | lia | reflexivity | reflexivity
     | constructor | reflexivity | simpl; lia |].
  exists st. split; [exact Hst|].
  apply Hshort; [unfold finish_ch, start_ch; lia | simpl; lia].
Defined.

Lemma open_touch_stays_in_temp_witness :
  exists st,
    ProcessTouches.extract (ProcessTouches.mkArgs None false) 48
      [ProcessTouches.mkSample 0 [];
       ProcessTouches.mkSample 10 (repeat false 47 ++ [true])] = Some st /\
    ProcessTouches.st_temp st !! 47%nat = Some 10 /\
    on_channel 47 (ProcessTouches.st_touches st) = [] /\
    filter (about 47) (ProcessTouches.st_log st) = [].
Proof.
  destruct (open_touch_stays_in_temp (ProcessTouches.mkArgs None false) 48
              (ProcessTouches.mkSample 0 [])
              [ProcessTouches.mkSample 10 (repeat false 47 ++ [true])]
              [] (ProcessTouches.mkSample 0 [])
              (ProcessTouches.mkSample 10 (repeat false 47 ++ [true])) [] 47)
    as (st0 & st & H0 & Hst & Ht & Htouches & Hlog);
    [reflexivity | reflexivity | lia | reflexivity | reflexivity | constructor |].
  exists st. split; [exact Hst|]. split; [exact Ht|].
  injection H0 as <-. auto.
Defined.

(** C3 as stated fails.  A raw table of two rows whose second row has
    channel 47 touched: the channel rises and is never released, and the
    file is processed to the end with an empty table of touches, no log line
    and no error message; the open touch is left in [temp] alone. *)
Lemma open_touch_is_not_reported :
  ProcessTouches.decode 4
    [ProcessTouches.mkRaw 0 [0; 0; 0; 0]; ProcessTouches.mkRaw 10 [0; 0; 0; 2048]]
    = Some [ProcessTouches.mkSample 0 (repeat false 48);
            ProcessTouches.mkSample 10 (repeat false 47 ++ [true])] /\
  ProcessTouches.process_file (ProcessTouches.mkArgs None false)
    [ProcessTouches.mkRaw 0 [0; 0; 0; 0]; ProcessTouches.mkRaw 10 [0; 0; 0; 2048]]
    = ProcessTouches.Saved [] [] (<[47%nat := 10]> ∅) /\
  ProcessTouches.process_touches (ProcessTouches.mkArgs None false)
    [("m1_001_raw.txt"%string,
      [ProcessTouches.mkRaw 0 [0; 0; 0; 0]; ProcessTouches.mkRaw 10 [0; 0; 0; 2048]])]
    = ProcessTouches.mkBatch [("m1_001_raw.txt"%string, [])] [] []
        ProcessTouches.Finished.
Proof. repeat split; vm_compute; reflexivity. Qed.

(** ** The batch *)

Module BatchFacts.
Import ProcessTouches.

Lemma for_filename_saved (a : args) (done more : list (string * list raw_row))
    (written : list (string * list touch))
    (log : list (string * log_entry)) :
  Forall (fun f => exists t l m, process_file a (snd f) = Saved t l m) done ->
  exists written' log',
    for_filename a done written log = mkBatch written' log' [] Finished /\
    for_filename a (done ++ more) written log = for_filename a more written' log'.
Proof.
  intros H. revert written log.
  induction H as [|[filename data] done (t & l & m & Hf) _ IH]; intros written log.
  - exists written, log. split; reflexivity.
  - simpl in Hf. cbn [for_filename app]. rewrite Hf. apply IH.
Qed.

Lemma decode_widths (n : nat) (data : list raw_row) (newdata : list sample) :
  decode n data = Some newdata ->
  forallb (fun r => (length (r_masks r) =? n)%nat) data = true /\
  Forall (fun s => length (s_bits s) = (n * 12)%nat) newdata.
Proof.
  revert newdata. induction data as [|r data IH]; intros newdata H.
  - injection H as <-. split; [reflexivity | constructor].
  - cbn [decode] in H.
    destruct (decode_row n r) as [s|] eqn:Hr; [|discriminate].
    destruct (decode n data) as [rest|]; [|discriminate].
    injection H as <-. destruct (IH rest eq_refl) as [Hw Hl].
    unfold decode_row in Hr.
    destruct (length (r_masks r) =? n)%nat eqn:En; [|discriminate].
    destruct (touch_list (r_masks r)) as [bits|]; [|discriminate].
    destruct (Nat.eqb_spec (length bits) (n * 12)) as [El|]; [|discriminate].
    injection Hr as <-. cbn [forallb]. rewrite En, Hw.
    split; [reflexivity | now constructor].
Qed.

Lemma process_file_fatal (a : args) (data : list raw_row) :
  (length data <= 1)%nat \/
  (exists first newdata,
     decode (n_MPR121s data) data = Some (first :: newdata) /\
     first_row_touched first = true) ->
  process_file a data =
    Exit1 (if (length data <=? 1)%nat then NoTouchesDetected else TouchedAtStart).
Proof.
  unfold process_file, temp_data_rows. intros [H|(first & newdata & Hd & Ht)].
  - assert (Hrect : rectangular data = true).
    { destruct data as [|r [|r' data]]; [reflexivity| |simpl in H; lia].
      unfold rectangular. simpl. now rewrite Nat.eqb_refl. }
    apply Nat.leb_le in H. now rewrite Hrect, H.
  - destruct (decode_widths _ _ _ Hd) as [Hrect Hbits].
    unfold rectangular. rewrite Hrect. cbn [negb].
    destruct (length data <=? 1)%nat eqn:El; [reflexivity|]. cbn [orb].
    destruct (Nat.eqb_spec (n_MPR121s data) 0) as [E0|E0].
    + exfalso. inversion Hbits as [|? ? Hb _]; subst. rewrite E0 in Hb.
      unfold first_row_touched in Ht.
      destruct (s_bits first); [discriminate Ht | discriminate Hb].
    + rewrite El. now rewrite Hd, Ht.
Qed.

End BatchFacts.

(** C9 (as the code has it).  When the files before it are processed and
    saved and a file has at most one row or a touched bit in its first row,
    the run prints the error for that file, naming it and the cause, and
    exits with status 1: what has been written and logged is what the files
    before it gave, whatever files come after it. *)
Theorem fatal_error_ends_batch (a : ProcessTouches.args)
    (done : list (string * list ProcessTouches.raw_row))
    (filename : string) (data : list ProcessTouches.raw_row)
    (rest : list (string * list ProcessTouches.raw_row)) :
  Forall (fun f => exists t l m,
            ProcessTouches.process_file a (snd f) = ProcessTouches.Saved t l m) done ->
  ((length data <= 1)%nat \/
   exists first newdata,
     ProcessTouches.decode (ProcessTouches.n_MPR121s data) data
       = Some (first :: newdata) /\
     ProcessTouches.first_row_touched first = true) ->
  exists written log,
    ProcessTouches.process_touches a done
      = ProcessTouches.mkBatch written log [] ProcessTouches.Finished /\
    ProcessTouches.process_touches a (done ++ (filename, data) :: rest)
      = ProcessTouches.mkBatch written log
          [(filename, if (length data <=? 1)%nat
                      then ProcessTouches.NoTouchesDetected
                      else ProcessTouches.TouchedAtStart)]
          ProcessTouches.ExitCode1.
Proof.
  intros Hdone Hfatal. unfold ProcessTouches.process_touches.
  destruct (BatchFacts.for_filename_saved a done ((filename, data) :: rest) [] [] Hdone)
    as (written & log & H1 & H2).
  exists written, log. split; [exact H1|]. rewrite H2.
  cbn [ProcessTouches.for_filename].
  now rewrite (BatchFacts.process_file_fatal a data Hfatal).
Qed.

Lemma fatal_error_ends_batch_witness :
  Nat.le (length [ProcessTouches.mkRaw 0 [0]]) 1 /\
  ProcessTouches.process_touches (ProcessTouches.mkArgs None false)
    [("a_raw.txt"%string, [ProcessTouches.mkRaw 0 [0]]);
     ("b_raw.txt"%string,
      [ProcessTouches.mkRaw 0 [0]; ProcessTouches.mkRaw 10 [1];
       ProcessTouches.mkRaw 30 [0]])]
    = ProcessTouches.mkBatch [] []
        [("a_raw.txt"%string, ProcessTouches.NoTouchesDetected)]
        ProcessTouches.ExitCode1.
Proof.
  split; [apply Nat.le_refl|].
  destruct (fatal_error_ends_batch (ProcessTouches.mkArgs None false) []
              "a_raw.txt"%string [ProcessTouches.mkRaw 0 [0]]
              [("b_raw.txt"%string,
                [ProcessTouches.mkRaw 0 [0]; ProcessTouches.mkRaw 10 [1];
                 ProcessTouches.mkRaw 30 [0]])])
    as (written & log & H1 & H2); [constructor | left; simpl; lia |].
  injection H1 as <- <-. exact H2.
Defined.

(** C9 as stated fails.  A batch of two files whose first file has a single
    row: the run stops at the first file with its error message and exit
    status 1, and the second file, which alone is processed and saved, is
    not processed. *)
Lemma fatal_error_aborts_remaining_files :
  ProcessTouches.process_touches (ProcessTouches.mkArgs None false)
    [("a_raw.txt"%string, [ProcessTouches.mkRaw 0 [0]]);
     ("b_raw.txt"%string,
      [ProcessTouches.mkRaw 0 [0]; ProcessTouches.mkRaw 10 [1];
       ProcessTouches.mkRaw 30 [0]])]
    = ProcessTouches.mkBatch [] []
        [("a_raw.txt"%string, ProcessTouches.NoTouchesDetected)]
        ProcessTouches.ExitCode1 /\
  ProcessTouches.process_touches (ProcessTouches.mkArgs None false)
    [("b_raw.txt"%string,
      [ProcessTouches.mkRaw 0 [0]; ProcessTouches.mkRaw 10 [1];
       ProcessTouches.mkRaw 30 [0]])]
    = ProcessTouches.mkBatch [("b_raw.txt"%string, [mkTouch 1 0 10 20])]
        [("b_raw.txt"%string, ProcessTouches.LogFirstTouch 0)] []
        ProcessTouches.Finished.
Proof. split; vm_compute; reflexivity. Qed.

(** * Further properties of the filters *)

Module FilterMore.
Import DoubleElectrode RepeatedTouches.
Import DoubleElectrodeFacts RepeatedTouchesFacts.

(** *** Repeated touches *)

Lemma separated_nth (thr : Z) (f : touch -> bool) (l : list touch) :
  separated thr (filter f l) ->
  forall i j x y, (i < j)%nat ->
    nth_error l i = Some x -> nth_error l j = Some y ->
    f x = true -> f y = true -> apart thr x y.
Proof.
  unfold separated. induction l as [|z l IH]; intros Hs i j x y Hij Hi Hj Hx Hy.
  - destruct i; discriminate.
  - destruct j as [|j]; [lia|]. simpl in Hj. simpl in Hs.
    destruct i as [|i].
    + injection Hi as ->. rewrite Hx in Hs.
      inversion Hs as [|? ? Hf _]; subst.
      rewrite Forall_forall in Hf. apply Hf, filter_In. split; [|assumption].
      eapply nth_error_In, Hj.
    + simpl in Hi. apply (IH) with (i := i) (j := j); try assumption; [|lia].
      destruct (f z); [now inversion Hs | assumption].
Qed.

Lemma channel_loop_keeps (thr : Z) (fuel : nat) (sub no_rt deleted : list touch) :
  (2 <= length sub < fuel)%nat ->
  exists kept gone,
    channel_loop thr fuel sub no_rt deleted = Done (no_rt ++ kept, deleted ++ gone) /\
    kept <> [] /\ incl kept sub /\ incl gone sub.
Proof.
  revert sub no_rt deleted.
  induction fuel as [|fuel IH]; intros sub no_rt deleted [Hl Hf]; [lia|].
  cbn [channel_loop].
  replace (1 <? length sub)%nat with true by (symmetry; apply Nat.ltb_lt; lia).
  rewrite for_rows_pass0.
  destruct (pass_total thr [] sub Hl) as [Hstop | (g & rest & Hdel)].
  - rewrite Hstop. exists sub, []. rewrite !app_nil_r.
    split; [reflexivity|]. split; [destruct sub; [simpl in Hl; lia | discriminate]|].
    split; [apply incl_refl | intros ? []].
  - rewrite Hdel. apply pass_DeletedRow in Hdel as (l1 & l2 & E & ->).
    simpl in E. subst sub. rewrite length_app in Hl, Hf. simpl in Hl, Hf.
    assert (Hrest : length (l1 ++ l2) = (length l1 + length l2)%nat)
      by apply length_app.
    assert (Hinc : incl (l1 ++ l2) (l1 ++ g :: l2)).
    { intros x Hx. apply in_app_or in Hx as [Hx|Hx]; apply in_or_app;
        [now left | right; now right]. }
    assert (Hg : In g (l1 ++ g :: l2)) by (apply in_or_app; right; now left).
    destruct (length (l1 ++ l2) <? 2)%nat eqn:E2.
    + apply Nat.ltb_lt in E2. destruct fuel as [|fuel]; [lia|].
      cbn [channel_loop].
      replace (1 <? length (l1 ++ l2))%nat with false
        by (symmetry; apply Nat.ltb_ge; lia).
      exists (l1 ++ l2), [g]. split; [reflexivity|].
      split; [destruct (l1 ++ l2); [simpl in *; lia | discriminate]|].
      split; [assumption|]. intros x [<-|[]]. assumption.
    + apply Nat.ltb_ge in E2.
      destruct (IH (l1 ++ l2) no_rt (deleted ++ [g])) as (kept & gone & Hr & Hk & Hi1 & Hi2);
        [lia|].
      exists kept, (g :: gone). rewrite <- app_assoc in Hr.
      split; [exact Hr|]. split; [assumption|].
      split; [eapply incl_tran; eauto|].
      intros x [<-|Hx]; [assumption | apply Hinc, Hi2, Hx].
Qed.

Lemma for_channels_keeps (thr : Z) (chs : list Z) (rt no_rt deleted : list touch) :
  (forall c, In c chs -> (2 <= length (on_channel c rt))%nat) ->
  exists kept gone,
    for_channels thr chs rt no_rt deleted = Done (no_rt ++ kept, deleted ++ gone) /\
    (forall c, In c chs -> exists y, In y kept /\ t_ch y = c) /\
    (forall g, In g gone -> In (t_ch g) chs).
Proof.
  revert no_rt deleted.
  induction chs as [|ch chs IH]; intros no_rt deleted Hcount.
  - exists [], []. rewrite !app_nil_r. split; [reflexivity|]. split; intros ? [].
  - cbn [for_channels].
    destruct (channel_loop_keeps thr (S (length (on_channel ch rt)))
                (on_channel ch rt) no_rt deleted)
      as (k1 & g1 & Hr1 & Hne & Hinc & Hinc');
      [split; [apply Hcount; now left | lia]|].
    rewrite Hr1.
    destruct (IH (no_rt ++ k1) (deleted ++ g1)) as (k2 & g2 & Hr2 & Hall & Hgone).
    { intros c Hc. apply Hcount. now right. }
    rewrite Hr2. exists (k1 ++ k2), (g1 ++ g2). rewrite !app_assoc.
    split; [reflexivity|]. split.
    + intros c [<-|Hc].
      * destruct k1 as [|y k1]; [contradiction|]. exists y.
        split; [now left|].
        assert (Hy : In y (on_channel ch rt)) by (apply Hinc; now left).
        now apply on_channel_In in Hy.
      * destruct (Hall c Hc) as (y & Hy & E). exists y.
        split; [apply in_or_app; now right | assumption].
    + intros g Hg. apply in_app_or in Hg as [Hg|Hg].
      * left. apply Hinc' in Hg. apply on_channel_In in Hg. symmetry. apply Hg.
      * right. now apply Hgone.
Qed.

(** *** Double electrodes *)

(** What a deleting pass records: a row [o] later in the list than a row
    [e], within the window after it and passing the channel test with it;
    the recorded row is the one of the two on the lower channel. *)
Lemma for_rows_Deleted_pair (touches : list touch) (row n : nat) (g : touch)
    (rest : list touch) :
  DoubleElectrode.for_rows touches row n = Deleted g rest ->
  exists e o,
    In e touches /\ In o touches /\
    t_time o <= t_time e + 150 /\ adjacent (t_ch e) (t_ch o) = true /\
    (g = e /\ t_ch e < t_ch o \/ g = o /\ t_ch o <= t_ch e).
Proof.
  revert row. induction n as [|n IH]; simpl; intros row H; [discriminate|].
  destruct (nth_error touches row) as [e|] eqn:He; [|discriminate].
  destruct (first_adjacent (t_ch e) (within_time e (skipn (S row) touches)) 0)
    as [[row2 o]|] eqn:Hf; [|eauto].
  apply first_adjacent_Some in Hf as (_ & Hn & Ha).
  apply nth_error_In in Hn. unfold within_time in Hn.
  apply filter_In in Hn as [Hin Ht]. apply Z.leb_le in Ht.
  assert (Ho : In o touches).
  { rewrite <- (firstn_skipn (S row) touches). apply in_or_app. now right. }
  exists e, o. split; [eapply nth_error_In, He|].
  split; [assumption|]. split; [assumption|]. split; [assumption|].
  destruct (Z.ltb_spec (t_ch e) (t_ch o)).
  - destruct (np_delete touches row); [|discriminate]. injection H as <- _. auto.
  - destruct (np_delete touches (row + row2 + 1)); [|discriminate].
    injection H as <- _. auto.
Qed.

Lemma np_delete_incl (arr : list touch) (i : nat) (rest : list touch) :
  np_delete arr i = Some rest -> incl rest arr.
Proof.
  intros H. apply np_delete_Some in H as [_ ->]. intros x Hx.
  apply in_app_or in Hx as [Hx|Hx].
  - rewrite <- (firstn_skipn i arr). apply in_or_app. now left.
  - rewrite <- (firstn_skipn (S i) arr). apply in_or_app. now right.
Qed.

Lemma loop_deleted (fuel : nat) (touches deleted no_de deleted' : list touch) :
  loop fuel touches deleted = Done (no_de, deleted') ->
  exists gone,
    deleted' = deleted ++ gone /\ incl no_de touches /\
    Forall (fun g => exists e o,
              In e touches /\ In o touches /\
              t_time o <= t_time e + 150 /\ adjacent (t_ch e) (t_ch o) = true /\
              (g = e /\ t_ch e < t_ch o \/ g = o /\ t_ch o <= t_ch e)) gone.
Proof.
  revert touches deleted. induction fuel as [|fuel IH]; intros touches deleted H;
    [discriminate|].
  simpl in H. destruct (scan touches) as [|g rest|] eqn:Hs; [| |discriminate].
  - injection H as <- <-. exists []. rewrite app_nil_r.
    split; [reflexivity|]. split; [apply incl_refl | constructor].
  - unfold scan in Hs. pose proof (for_rows_Deleted_pair _ _ _ _ _ Hs) as Hpair.
    apply for_rows_Deleted in Hs as (i & Hd & _).
    apply np_delete_incl in Hd.
    apply IH in H as (gone & -> & Hinc & Hall).
    exists (g :: gone). rewrite <- app_assoc. split; [reflexivity|].
    split; [eapply incl_tran; eauto|].
    constructor; [assumption|].
    eapply Forall_impl; [|exact Hall].
    intros x (e & o & He & Ho & Hrest). exists e, o. auto.
Qed.

(** A pass that deletes nothing has met no qualifying pair. *)
Lemma for_rows_NoDeletion (touches : list touch) (row n : nat) :
  DoubleElectrode.for_rows touches row n = NoDeletion ->
  forall i e, (row <= i < row + n)%nat -> nth_error touches i = Some e ->
    forall o, In o (skipn (S i) touches) -> t_time o <= t_time e + 150 ->
      adjacent (t_ch e) (t_ch o) = false.
Proof.
  revert row. induction n as [|n IH]; simpl; intros row H i e Hi He o Ho Ht; [lia|].
  destruct (nth_error touches row) as [e'|] eqn:He'; [|discriminate].
  destruct (first_adjacent (t_ch e') (within_time e' (skipn (S row) touches)) 0)
    as [[row2 o']|] eqn:Hf.
  { destruct (t_ch e' <? t_ch o');
      [destruct (np_delete touches row) | destruct (np_delete touches (row + row2 + 1))];
      discriminate. }
  destruct (Nat.eq_dec i row) as [->|Hne].
  - rewrite He in He'. injection He' as <-.
    apply (proj1 (first_adjacent_None _ _ _) Hf).
    unfold within_time. apply filter_In. split; [assumption | now apply Z.leb_le].
  - apply (IH (S row) H i e); [lia | assumption..].
Qed.

End FilterMore.


(** X2.  Among the rows the Repeated-Touch Filter keeps, no two rows of one
    channel start within the window of each other. *)
Theorem repeated_touches_survivors_apart (touches : list touch) (thr : Z) :
  exists no_rt deleted,
    RepeatedTouches.repeated_touches touches thr = Done (no_rt, deleted) /\
    forall i j x y, (i < j)%nat ->
      nth_error no_rt i = Some x -> nth_error no_rt j = Some y ->
      t_ch x = t_ch y -> thr < Z.abs (t_time x - t_time y).
Proof.
  destruct (RepeatedTouchesFacts.repeated_touches_spec touches thr)
    as (no_rt & deleted & H & _ & _ & _ & Hsep).
  exists no_rt, deleted. split; [assumption|].
  intros i j x y Hij Hi Hj Hch.
  apply (FilterMore.separated_nth thr (fun z => t_ch z =? t_ch y) no_rt (Hsep (t_ch y))
           i j x y Hij Hi Hj).
  - now apply Z.eqb_eq.
  - apply Z.eqb_refl.
Qed.

Lemma repeated_touches_survivors_apart_witness :
  RepeatedTouches.repeated_touches
    [mkTouch 0 5 1000 200; mkTouch 0 5 1050 50; mkTouch 0 5 2000 10] 150
    = Done ([mkTouch 0 5 1000 200; mkTouch 0 5 2000 10], [mkTouch 0 5 1050 50]) /\
  150 < Z.abs (1000 - 2000).
Proof.
  split; [reflexivity|].
  destruct (repeated_touches_survivors_apart
              [mkTouch 0 5 1000 200; mkTouch 0 5 1050 50; mkTouch 0 5 2000 10] 150)
    as (no_rt & deleted & H & Hap).
  injection H as <- <-.
  exact (Hap 0%nat 1%nat _ _ (Nat.lt_succ_diag_r 0) eq_refl eq_refl eq_refl).
Defined.

(** X3.  The Repeated-Touch Filter never empties a channel: every channel
    with a touch in the input has a touch among the rows kept, a touch that
    is alone on its channel is kept itself, and every deleted row is on a
    channel that had more than one touch. *)
Theorem repeated_touches_keeps_channels (touches : list touch) (thr : Z) :
  exists no_rt deleted,
    RepeatedTouches.repeated_touches touches thr = Done (no_rt, deleted) /\
    (forall x, In x touches -> exists y, In y no_rt /\ t_ch y = t_ch x) /\
    (forall x, In x touches -> length (on_channel (t_ch x) touches) = 1%nat ->
               In x no_rt) /\
    (forall g, In g deleted -> (2 <= length (on_channel (t_ch g) touches))%nat).
Proof.
  unfold RepeatedTouches.repeated_touches.
  set (chs := RepeatedTouches.repeated_touched_channels touches).
  set (rt := rev (argsort_time (filter (RepeatedTouches.mask chs) touches))).
  set (no_rt0 := filter (fun x => negb (RepeatedTouches.mask chs x)) touches).
  assert (Hcount : forall c, In c chs -> (2 <= length (on_channel c rt))%nat).
  { intros c Hc. unfold rt.
    rewrite (Permutation_length (RepeatedTouchesFacts.on_channel_rt touches chs c Hc)).
    now apply RepeatedTouchesFacts.repeated_touched_channels_In. }
  destruct (FilterMore.for_channels_keeps thr chs rt no_rt0 [] Hcount)
    as (kept & gone & Hr & Hall & Hgone).
  rewrite Hr. simpl app. eexists _, _. split; [reflexivity|].
  assert (Hmask : forall x, In x touches ->
            RepeatedTouches.mask chs x = false -> In x (argsort_time (no_rt0 ++ kept))).
  { intros x Hx Hm. eapply Permutation_in; [symmetry; apply argsort_time_perm|].
    apply in_or_app. left. apply filter_In. split; [assumption|]. now rewrite Hm. }
  split; [|split].
  - intros x Hx. destruct (RepeatedTouches.mask chs x) eqn:Hm.
    + apply RepeatedTouchesFacts.mask_true in Hm.
      destruct (Hall _ Hm) as (y & Hy & E). exists y. split; [|assumption].
      eapply Permutation_in; [symmetry; apply argsort_time_perm|].
      apply in_or_app. now right.
    + exists x. split; [now apply Hmask | reflexivity].
  - intros x Hx H1. apply Hmask; [assumption|].
    destruct (RepeatedTouches.mask chs x) eqn:Hm; [|reflexivity].
    apply RepeatedTouchesFacts.mask_true in Hm.
    apply RepeatedTouchesFacts.repeated_touched_channels_In in Hm. lia.
  - intros g Hg.
    apply RepeatedTouchesFacts.repeated_touched_channels_In. apply Hgone.
    eapply Permutation_in; [apply argsort_time_perm | exact Hg].
Qed.

Lemma repeated_touches_keeps_channels_witness :
  In (mkTouch 0 7 1020 30)
     [mkTouch 0 5 1000 200; mkTouch 0 7 1020 30; mkTouch 0 5 1050 50] /\
  exists no_rt deleted,
    RepeatedTouches.repeated_touches
      [mkTouch 0 5 1000 200; mkTouch 0 7 1020 30; mkTouch 0 5 1050 50] 150
      = Done (no_rt, deleted) /\
    In (mkTouch 0 7 1020 30) no_rt.
Proof.
  assert (Hin : In (mkTouch 0 7 1020 30)
                  [mkTouch 0 5 1000 200; mkTouch 0 7 1020 30; mkTouch 0 5 1050 50])
    by (right; left; reflexivity).
  split; [exact Hin|].
  destruct (repeated_touches_keeps_channels
              [mkTouch 0 5 1000 200; mkTouch 0 7 1020 30; mkTouch 0 5 1050 50] 150)
    as (no_rt & deleted & H & _ & Hone & _).
  exists no_rt, deleted. split; [exact H|]. apply Hone; [exact Hin | reflexivity].
Defined.

(** X4.  With a negative window the Repeated-Touch Filter deletes nothing:
    it hands back the rows it was given, in start-time order. *)
Theorem repeated_touches_negative_window (touches : list touch) (thr : Z) :
  thr < 0 ->
  exists no_rt,
    RepeatedTouches.repeated_touches touches thr = Done (no_rt, []) /\
    Permutation no_rt touches /\ time_ordered no_rt.
Proof.
  intros Hneg.
  destruct (RepeatedTouchesFacts.repeated_touches_fixed touches thr) as (no_rt & H & Hp & Hs).
  - intros c. unfold separated. generalize (on_channel c touches). intros l.
    induction l as [|x l IH]; constructor; [|assumption].
    apply Forall_forall. intros y _. unfold apart. lia.
  - exists no_rt. rewrite time_ordered_strongly. auto.
Qed.

Lemma repeated_touches_negative_window_witness :
  -1 < 0 /\
  exists no_rt,
    RepeatedTouches.repeated_touches
      [mkTouch 0 5 1000 200; mkTouch 0 5 1000 50] (-1) = Done (no_rt, []).
Proof.
  split; [reflexivity|].
  destruct (repeated_touches_negative_window
              [mkTouch 0 5 1000 200; mkTouch 0 5 1000 50] (-1) eq_refl)
    as (no_rt & H & _).
  exists no_rt. exact H.
Defined.

(** X5.  On rows in start-time order the Double-Electrode Filter keeps rows
    of its input, still in start-time order. *)
Theorem double_electrode_keeps_order (touches : list touch) :
  time_ordered touches ->
  exists no_de deleted,
    DoubleElectrode.double_electrode touches = Done (no_de, deleted) /\
    time_ordered no_de /\ incl no_de touches.
Proof.
  intros Hs.
  destruct (DoubleElectrodeFacts.double_electrode_spec touches)
    as (no_de & deleted & H & _ & _ & Hp).
  exists no_de, deleted. split; [assumption|]. split; [now apply Hp|].
  unfold DoubleElectrode.double_electrode in H.
  now apply FilterMore.loop_deleted in H as (_ & _ & Hinc & _).
Qed.

Lemma double_electrode_keeps_order_witness :
  time_ordered [mkTouch 0 10 1000 300; mkTouch 0 12 1100 200] /\
  exists no_de deleted,
    DoubleElectrode.double_electrode [mkTouch 0 10 1000 300; mkTouch 0 12 1100 200]
      = Done (no_de, deleted) /\
    time_ordered no_de.
Proof.
  assert (Hs : time_ordered [mkTouch 0 10 1000 300; mkTouch 0 12 1100 200]).
  { repeat constructor. unfold time_le. simpl. lia. }
  split; [exact Hs|].
  destruct (double_electrode_keeps_order _ Hs) as (no_de & deleted & H & Ho & _).
  exists no_de, deleted. split; [exact H | exact Ho].
Defined.

(** X6.  With channels up to 47 the Double-Electrode Filter never records a
    touch on the finish channel 0 or the start channel 47 as deleted; on rows
    in start-time order every such touch of the input is among the rows
    kept. *)
Theorem double_electrode_spares_ends (touches : list touch) :
  Forall (fun x => t_ch x <= 47) touches ->
  exists no_de deleted,
    DoubleElectrode.double_electrode touches = Done (no_de, deleted) /\
    Forall (fun g => t_ch g <> finish_ch /\ t_ch g <> start_ch) deleted /\
    (time_ordered touches ->
     forall x, In x touches -> t_ch x = finish_ch \/ t_ch x = start_ch ->
               In x no_de).
Proof.
  intros Hb.
  destruct (DoubleElectrodeFacts.double_electrode_spec touches)
    as (no_de & deleted & H & _ & _ & Hp).
  exists no_de, deleted. split; [assumption|].
  assert (Hdel : Forall (fun g => t_ch g <> finish_ch /\ t_ch g <> start_ch) deleted).
  { unfold DoubleElectrode.double_electrode in H.
    apply FilterMore.loop_deleted in H as (gone & -> & _ & Hall). simpl.
    eapply Forall_impl; [|exact Hall].
    intros g (e & o & He & Ho & _ & Ha & Hg).
    apply adjacent_iff in Ha as (Habs & He0 & Ho0 & Ho47).
    rewrite Forall_forall in Hb. specialize (Hb o Ho).
    unfold finish_ch, start_ch.
    destruct Hg as [[-> Hlt]|[-> _]]; split; lia. }
  split; [assumption|].
  intros Hs x Hx Hends. destruct (Hp Hs) as [Hperm _].
  assert (Hin : In x (no_de ++ deleted))
    by (eapply Permutation_in; [symmetry; exact Hperm | exact Hx]).
  apply in_app_or in Hin as [Hin|Hin]; [assumption|].
  rewrite Forall_forall in Hdel. destruct (Hdel x Hin). tauto.
Qed.

Lemma double_electrode_spares_ends_witness :
  Forall (fun x => t_ch x <= 47)
    [mkTouch 0 47 1000 300; mkTouch 0 45 1100 200; mkTouch 0 2 3000 10;
     mkTouch 0 0 3100 50] /\
  exists no_de deleted,
    DoubleElectrode.double_electrode
      [mkTouch 0 47 1000 300; mkTouch 0 45 1100 200; mkTouch 0 2 3000 10;
       mkTouch 0 0 3100 50] = Done (no_de, deleted) /\
    In (mkTouch 0 47 1000 300) no_de /\ In (mkTouch 0 0 3100 50) no_de.
Proof.
  assert (Hb : Forall (fun x => t_ch x <= 47)
                 [mkTouch 0 47 1000 300; mkTouch 0 45 1100 200; mkTouch 0 2 3000 10;
                  mkTouch 0 0 3100 50])
    by (repeat constructor; simpl; lia).
  split; [exact Hb|].
  destruct (double_electrode_spares_ends _ Hb) as (no_de & deleted & H & _ & Hkeep).
  exists no_de, deleted. split; [exact H|].
  assert (Hs : time_ordered
                 [mkTouch 0 47 1000 300; mkTouch 0 45 1100 200; mkTouch 0 2 3000 10;
                  mkTouch 0 0 3100 50])
    by (repeat constructor; unfold time_le; simpl; lia).
  split; apply (Hkeep Hs); simpl; auto 6.
Defined.

(** X7.  Among the rows the Double-Electrode Filter keeps, no row is followed
    by a row starting within 0.150 s after it that passes the channel test
    with it; so when the earlier row is not on channel 0 and the later row
    is on neither 0 nor 47, their channels are not 2 apart. *)
Theorem double_electrode_survivors_clear (touches : list touch) :
  exists no_de deleted,
    DoubleElectrode.double_electrode touches = Done (no_de, deleted) /\
    forall i j e o, (i < j)%nat ->
      nth_error no_de i = Some e -> nth_error no_de j = Some o ->
      t_time o <= t_time e + 150 ->
      DoubleElectrode.adjacent (t_ch e) (t_ch o) = false /\
      (t_ch e <> 0 -> t_ch o <> 0 -> t_ch o <> 47 ->
       Z.abs (t_ch e - t_ch o) <> 2).
Proof.
  destruct (DoubleElectrodeFacts.double_electrode_spec touches)
    as (no_de & deleted & H & _ & Hfix & _).
  exists no_de, deleted. split; [assumption|].
  intros i j e o Hij He Ho Ht.
  assert (Ha : DoubleElectrode.adjacent (t_ch e) (t_ch o) = false).
  { apply (FilterMore.for_rows_NoDeletion no_de 0 (length no_de) Hfix i e); try assumption.
    - split; [lia|]. apply nth_error_Some. rewrite He. discriminate.
    - apply nth_error_In with (n := (j - S i)%nat). rewrite nth_error_skipn.
      replace (S i + (j - S i))%nat with j by lia. exact Ho. }
  split; [assumption|]. intros H1 H2 H3 Habs.
  assert (Ht' : DoubleElectrode.adjacent (t_ch e) (t_ch o) = true)
    by (apply adjacent_iff; auto).
  congruence.
Qed.

Lemma double_electrode_survivors_clear_witness :
  exists no_de deleted,
    DoubleElectrode.double_electrode
      [mkTouch 0 45 1000 300; mkTouch 0 47 1100 200] = Done (no_de, deleted) /\
    DoubleElectrode.adjacent 45 47 = false.
Proof.
  destruct (double_electrode_survivors_clear
              [mkTouch 0 45 1000 300; mkTouch 0 47 1100 200])
    as (no_de & deleted & H & Hclear).
  exists no_de, deleted. split; [exact H|].
  injection H as <- <-.
  refine (proj1 (Hclear 0%nat 1%nat _ _ (Nat.lt_succ_diag_r 0) eq_refl eq_refl _)).
  simpl. lia.
Defined.

(** * Further properties of the decoder and the extractor *)

Module DecoderMore.
Import ProcessTouches.

Lemma length_pos_digits_lower (p : positive) (k : nat) :
  2 ^ Z.of_nat k <= Zpos p -> (k < length (pos_digits p))%nat.
Proof.
  revert k. induction p as [p IH|p IH|]; intros k H; simpl.
  - destruct k as [|k]; [lia|].
    rewrite Nat2Z.inj_succ, Z.pow_succ_r in H by lia.
    apply -> Nat.succ_lt_mono. apply IH. lia.
  - destruct k as [|k]; [lia|].
    rewrite Nat2Z.inj_succ, Z.pow_succ_r in H by lia.
    apply -> Nat.succ_lt_mono. apply IH. lia.
  - destruct k as [|k]; [lia|].
    rewrite Nat2Z.inj_succ, Z.pow_succ_r in H by lia.
    assert (0 < 2 ^ Z.of_nat k) by (apply Z.pow_pos_nonneg; lia). lia.
Qed.

(** A mask decodes to twelve cells when it is below 4096, to more when it is
    not, and not at all when it is negative. *)
Lemma decode_mask_length (m : Z) :
  match decode_mask m with
  | Some bits =>
      0 <= m /\ (12 <= length bits)%nat /\ (length bits = 12%nat <-> m < 4096)
  | None => m < 0
  end.
Proof.
  unfold decode_mask, format_014b. destruct m as [|p|p]; [| |lia].
  - rewrite length_rev, repeat_length. split; [lia|]. split; [lia|]. split; lia.
  - rewrite length_rev, length_app, repeat_length, length_rev.
    split; [lia|]. split; [lia|]. split.
    + intros H. destruct (Z.lt_ge_cases (Zpos p) 4096) as [Hlt|Hge]; [assumption|].
      pose proof (length_pos_digits_lower p 12) as Hl. simpl in Hl.
      specialize (Hl ltac:(lia)). lia.
    + intros H. pose proof (DecoderFacts.length_pos_digits p 12) as Hl.
      simpl in Hl. specialize (Hl H). lia.
Qed.

Lemma touch_list_length (masks : list Z) :
  match touch_list masks with
  | Some bits =>
      Forall (fun m => 0 <= m) masks /\
      (length masks * 12 <= length bits)%nat /\
      (length bits = (length masks * 12)%nat <->
       Forall (fun m => 0 <= m < 4096) masks)
  | None => Exists (fun m => m < 0) masks
  end.
Proof.
  induction masks as [|m masks IH]; cbn [touch_list].
  - split; [constructor|]. split; [simpl; lia|]. split; [constructor | reflexivity].
  - pose proof (decode_mask_length m) as Hm.
    destruct (decode_mask m) as [bits|]; [|now constructor].
    destruct Hm as (H0 & H12 & Hiff).
    destruct (touch_list masks) as [rest|]; [|now apply Exists_cons_tl].
    destruct IH as (Hall & Hlen & Hiff').
    split; [now constructor|]. rewrite length_app. cbn [length].
    split; [lia|]. split.
    + intros H. constructor.
      * split; [assumption|]. apply Hiff. lia.
      * apply Hiff'. lia.
    + intros H. inversion H as [|? ? [_ Hm'] Hr]; subst.
      apply Hiff in Hm'. apply Hiff' in Hr. lia.
Qed.

End DecoderMore.

(** X8.  A raw row of [n] masks decodes exactly when every mask is a
    twelve-bit number: a negative mask, or one of 4096 or more, makes the
    decoder raise. *)
Theorem decode_row_defined (n : nat) (r : ProcessTouches.raw_row) :
  length (ProcessTouches.r_masks r) = n ->
  ((exists s, ProcessTouches.decode_row n r = Some s) <->
   Forall (fun m => 0 <= m < 4096) (ProcessTouches.r_masks r)).
Proof.
  intros Hn. unfold ProcessTouches.decode_row.
  rewrite (proj2 (Nat.eqb_eq _ _) Hn).
  pose proof (DecoderMore.touch_list_length (ProcessTouches.r_masks r)) as H.
  destruct (ProcessTouches.touch_list (ProcessTouches.r_masks r)) as [bits|].
  - destruct H as (_ & _ & Hiff). rewrite Hn in Hiff. rewrite <- Hiff.
    destruct (Nat.eqb_spec (length bits) (n * 12)) as [E|E].
    + split; [intros _; assumption | intros _; eexists; reflexivity].
    + split; [intros [s Hs]; discriminate | intros E'; contradiction].
  - split; [intros [s Hs]; discriminate|].
    intros Hall. exfalso. apply Exists_exists in H as (m & Hm & Hneg).
    rewrite Forall_forall in Hall. specialize (Hall m Hm). lia.
Qed.

Lemma decode_row_defined_witness :
  length (ProcessTouches.r_masks (ProcessTouches.mkRaw 7 [4096])) = 1%nat /\
  ProcessTouches.decode_row 1 (ProcessTouches.mkRaw 7 [4096]) = None /\
  ~ Forall (fun m => 0 <= m < 4096) [4096].
Proof.
  split; [reflexivity|]. split; [reflexivity|].
  intros H.
  destruct (proj2 (decode_row_defined 1 (ProcessTouches.mkRaw 7 [4096]) eq_refl) H)
    as [s Hs].
  discriminate Hs.
Defined.

Module ScanMore.
Import ProcessTouches.

(** The scan reads the command line through [threshold] and
    [threshold_given] only. *)
Lemma cell_args (a1 a2 : args) (start : Z) (row : nat) (prev cur : sample)
    (ch : nat) (st : state) :
  threshold a1 = threshold a2 -> threshold_given a1 = threshold_given a2 ->
  cell a1 start row prev cur ch st = cell a2 start row prev cur ch st.
Proof. intros H1 H2. unfold cell. now rewrite H1, H2. Qed.

Lemma for_ch_args (a1 a2 : args) (start : Z) (row : nat) (prev cur : sample)
    (chs : list nat) (st : state) :
  threshold a1 = threshold a2 -> threshold_given a1 = threshold_given a2 ->
  for_ch a1 start row prev cur chs st = for_ch a2 start row prev cur chs st.
Proof.
  intros H1 H2. revert st. induction chs as [|ch chs IH]; intros st; [reflexivity|].
  cbn [for_ch]. rewrite (cell_args a1 a2) by assumption.
  destruct (cell a2 start row prev cur ch st); [apply IH | reflexivity].
Qed.

Lemma for_row_args (a1 a2 : args) (start : Z) (nch row : nat) (prev : sample)
    (rows : list sample) (st : state) :
  threshold a1 = threshold a2 -> threshold_given a1 = threshold_given a2 ->
  for_row a1 start nch row prev rows st = for_row a2 start nch row prev rows st.
Proof.
  intros H1 H2. revert row prev st.
  induction rows as [|cur rows IH]; intros row prev st; [reflexivity|].
  cbn [for_row]. rewrite (for_ch_args a1 a2) by assumption.
  destruct (for_ch a2 start row prev cur (seq 0 nch) st); [apply IH | reflexivity].
Qed.

(** Channels outside the scanned range are never entered in [temp]. *)
Lemma for_row_outside (a : args) (start : Z) (nch row : nat) (prev : sample)
    (rows : list sample) (ch : nat) (st st' : state) :
  (nch <= ch)%nat -> for_row a start nch row prev rows st = Some st' ->
  view ch st' = view ch st.
Proof.
  intros Hch. revert row prev st.
  induction rows as [|cur rows IH]; intros row prev st H.
  - now injection H as <-.
  - cbn [for_row] in H.
    destruct (for_ch a start row prev cur (seq 0 nch) st) as [st1|] eqn:Hf;
      [|discriminate].
    rewrite (IH _ _ _ H).
    eapply ChannelView.for_ch_view_other; [|exact Hf].
    rewrite in_seq. lia.
Qed.

(** [scan_inv] along the scan. *)
Lemma scan_inv_later (nch : nat) (now now' : Z) (st : state) :
  now <= now' -> scan_inv nch now st -> scan_inv nch now' st.
Proof.
  intros Hle [H1 H2]. split; [|assumption].
  intros ch t Ht. specialize (H1 ch t Ht). lia.
Qed.

Lemma cell_inv (a : args) (start : Z) (nch row : nat) (prev cur : sample)
    (ch : nat) (st st' : state) :
  (ch < nch)%nat -> 0 <= s_time cur - start ->
  scan_inv nch (s_time cur - start) st ->
  cell a start row prev cur ch st = Some st' ->
  scan_inv nch (s_time cur - start) st'.
Proof.
  intros Hch Hnow [H1 H2]. unfold cell.
  destruct (touched cur ch && negb (touched prev ch)).
  { intros [= <-]. split; [|exact H2]. cbn [st_temp]. intros k t.
    destruct (Nat.eq_dec k ch) as [->|Hne].
    - rewrite lookup_insert_eq. intros [= <-]. lia.
    - rewrite lookup_insert_ne by congruence. apply H1. }
  destruct (negb (touched cur ch) && touched prev ch); [|now intros [= <-]].
  destruct (st_temp st !! ch) as [t0|] eqn:Et; [|discriminate].
  specialize (H1 ch t0 Et) as Ht0.
  assert (Hd : forall k t, delete ch (st_temp st) !! k = Some t ->
                           0 <= t <= s_time cur - start).
  { intros k t. destruct (Nat.eq_dec k ch) as [->|Hne].
    - rewrite lookup_delete_eq. discriminate.
    - rewrite lookup_delete_ne by congruence. apply H1. }
  assert (Hnew : Forall (fun x => t_index x = 0 /\ 0 <= t_ch x < Z.of_nat nch /\
                                  0 <= t_time x /\ 0 <= t_dur x)
                   (st_touches st ++
                    [mkTouch 0 (Z.of_nat ch) t0 (s_time cur - start - t0)])).
  { rewrite Forall_app. split; [assumption|]. repeat constructor; simpl; lia. }
  destruct ((s_time cur - start - t0 <? threshold a) &&
            ((finish_ch <? Z.of_nat ch) && (Z.of_nat ch <? start_ch)));
    [destruct (threshold_given a)|]; intros [= <-]; split; assumption.
Qed.

Lemma for_ch_inv (a : args) (start : Z) (nch row : nat) (prev cur : sample)
    (chs : list nat) (st st' : state) :
  (forall ch, In ch chs -> (ch < nch)%nat) -> 0 <= s_time cur - start ->
  scan_inv nch (s_time cur - start) st ->
  for_ch a start row prev cur chs st = Some st' ->
  scan_inv nch (s_time cur - start) st'.
Proof.
  intros Hchs Hnow. revert st.
  induction chs as [|ch chs IH]; intros st Hinv H.
  - now injection H as <-.
  - cbn [for_ch] in H.
    destruct (cell a start row prev cur ch st) as [st1|] eqn:Hc; [|discriminate].
    apply (IH (fun k Hk => Hchs k (or_intror Hk)) st1); [|assumption].
    eapply cell_inv; eauto. apply Hchs. now left.
Qed.

Lemma for_row_inv (a : args) (start : Z) (nch row : nat) (prev : sample)
    (rows : list sample) (st st' : state) :
  Sorted (fun x y => s_time x <= s_time y) (prev :: rows) ->
  0 <= s_time prev - start ->
  scan_inv nch (s_time prev - start) st ->
  for_row a start nch row prev rows st = Some st' ->
  scan_inv nch (s_time (last rows prev) - start) st'.
Proof.
  revert row prev st. induction rows as [|cur rows IH]; intros row prev st Hs H0 Hinv H.
  - now injection H as <-.
  - cbn [for_row] in H.
    destruct (for_ch a start row prev cur (seq 0 nch) st) as [st1|] eqn:Hf;
      [|discriminate].
    inversion Hs as [|? ? Hs' Hhd]; subst. inversion Hhd as [|? ? Hle]; subst.
    rewrite ExtractFacts.last_cons.
    apply (IH (S row) cur st1); [assumption | lia | | assumption].
    eapply for_ch_inv; [| |eapply scan_inv_later; [|exact Hinv]|exact Hf].
    + intros ch Hch. apply in_seq in Hch. lia.
    + lia.
    + lia.
Qed.

(** Every release is a touch or a logged deletion. *)
Lemma chan_cell_falls (a : args) (start : Z) (row : nat) (prev cur : sample)
    (ch : nat) (v v' : chan_state) :
  chan_cell a start row prev cur ch v = Some v' ->
  (length (c_touches v') + length (filter is_deleteb (c_log v')) =
   length (c_touches v) + length (filter is_deleteb (c_log v)) +
   (if negb (touched cur ch) && touched prev ch then 1 else 0))%nat.
Proof.
  unfold chan_cell.
  destruct (touched cur ch) eqn:Ec, (touched prev ch) eqn:Ep; cbn [andb negb].
  - intros [= <-]. lia.
  - intros [= <-]. cbn [c_touches c_log].
    destruct ((row =? 1)%nat && negb (Z.of_nat ch =? start_ch)); [|lia].
    rewrite filter_app. simpl. rewrite app_nil_r. lia.
  - destruct (c_open v) as [t0|]; [|discriminate]. cbv zeta.
    destruct ((s_time cur - start - t0 <? threshold a) &&
              ((finish_ch <? Z.of_nat ch) && (Z.of_nat ch <? start_ch)));
      [destruct (threshold_given a)|]; intros [= <-]; cbn [c_touches c_log];
      rewrite ?filter_app, ?length_app; simpl; lia.
  - intros [= <-]. lia.
Qed.

Lemma chan_rows_falls (a : args) (start : Z) (ch row : nat) (prev : sample)
    (rows : list sample) (v v' : chan_state) :
  chan_rows a start ch row prev rows v = Some v' ->
  (length (c_touches v') + length (filter is_deleteb (c_log v')) =
   length (c_touches v) + length (filter is_deleteb (c_log v)) +
   falls ch prev rows)%nat.
Proof.
  revert row prev v. induction rows as [|cur rows IH]; intros row prev v H.
  - injection H as <-. simpl. lia.
  - cbn [chan_rows] in H. cbn [falls].
    destruct (chan_cell a start row prev cur ch v) as [v1|] eqn:Hc; [|discriminate].
    rewrite (IH _ _ _ H), (chan_cell_falls _ _ _ _ _ _ _ _ Hc). lia.
Qed.

End ScanMore.

(** X9.  A threshold of 0 on the command line counts as no threshold: the
    file is processed exactly as without the option (short touches are kept
    and warned about against 0.1 s). *)
Theorem threshold_zero_is_no_threshold (no_filter : bool)
    (data : list ProcessTouches.raw_row) :
  ProcessTouches.process_file (ProcessTouches.mkArgs (Some 0) no_filter) data
  = ProcessTouches.process_file (ProcessTouches.mkArgs None no_filter) data.
Proof.
  unfold ProcessTouches.process_file.
  destruct (negb (ProcessTouches.rectangular data)); [reflexivity|].
  destruct (ProcessTouches.temp_data_rows data <=? 1)%nat; [reflexivity|].
  destruct (ProcessTouches.decode (ProcessTouches.n_MPR121s data) data)
    as [[|first newdata]|]; try reflexivity.
  destruct (ProcessTouches.first_row_touched first); [reflexivity|].
  unfold ProcessTouches.extract.
  rewrite (ScanMore.for_row_args (ProcessTouches.mkArgs (Some 0) no_filter)
             (ProcessTouches.mkArgs None no_filter)) by reflexivity.
  reflexivity.
Qed.

(** X10.  After the scan [temp] holds exactly the channels that are touched
    in the last sample: nothing is left in it when the last sample is
    untouched, and it never holds a channel outside the scanned range. *)
Theorem temp_after_scan (a : ProcessTouches.args) (nch : nat)
    (first : ProcessTouches.sample) (rows : list ProcessTouches.sample) :
  ProcessTouches.first_row_touched first = false ->
  exists st,
    ProcessTouches.extract a nch (first :: rows) = Some st /\
    forall ch,
      is_Some (ProcessTouches.st_temp st !! ch) <->
      (ch < nch)%nat /\ ProcessTouches.touched (last rows first) ch = true.
Proof.
  intros Hfirst. unfold ProcessTouches.extract.
  destruct (ExtractFacts.for_row_ok a (ProcessTouches.s_time first) nch 1 first rows
              (ProcessTouches.mkState [] ∅ []))
    as (st & Hst & Hin & _); [now apply ExtractFacts.start_inv|].
  exists st. split; [assumption|]. intros ch.
  destruct (Nat.lt_ge_cases ch nch) as [Hlt|Hge].
  - rewrite (Hin ch Hlt). tauto.
  - pose proof (ScanMore.for_row_outside _ _ _ _ _ _ ch _ _ Hge Hst) as Hv.
    apply (f_equal c_open) in Hv. cbn [view c_open ProcessTouches.st_temp] in Hv.
    rewrite Hv, lookup_empty. split; [intros [? ?]; discriminate | lia].
Qed.

Lemma temp_after_scan_witness :
  ProcessTouches.first_row_touched (ProcessTouches.mkSample 0 [false]) = false /\
  exists st,
    ProcessTouches.extract (ProcessTouches.mkArgs None false) 1
      [ProcessTouches.mkSample 0 [false]; ProcessTouches.mkSample 10 [true];
       ProcessTouches.mkSample 30 [false]] = Some st /\
    ~ is_Some (ProcessTouches.st_temp st !! 0%nat).
Proof.
  split; [reflexivity|].
  destruct (temp_after_scan (ProcessTouches.mkArgs None false) 1
              (ProcessTouches.mkSample 0 [false])
              [ProcessTouches.mkSample 10 [true]; ProcessTouches.mkSample 30 [false]]
              eq_refl) as (st & Hst & Hdom).
  exists st. split; [exact Hst|].
  intros Hs. apply Hdom in Hs as [_ Ht]. discriminate Ht.
Defined.

(** X11.  Without a threshold on the command line (or with a threshold of 0)
    the extractor drops no touch: every touch that rises after an untouched
    sample, stays touched and is released is among the extracted touches,
    with its start time and its duration, whatever its channel. *)
Theorem no_threshold_keeps_every_touch (a : ProcessTouches.args) (nch : nat)
    (first : ProcessTouches.sample) (rows pre : list ProcessTouches.sample)
    (p rise : ProcessTouches.sample) (held : list ProcessTouches.sample)
    (rel : ProcessTouches.sample) (post : list ProcessTouches.sample) (ch : nat) :
  ProcessTouches.threshold_given a = false ->
  first :: rows = pre ++ p :: rise :: held ++ rel :: post ->
  ProcessTouches.first_row_touched first = false ->
  (ch < nch)%nat ->
  ProcessTouches.touched p ch = false ->
  ProcessTouches.touched rise ch = true ->
  Forall (fun s => ProcessTouches.touched s ch = true) held ->
  ProcessTouches.touched rel ch = false ->
  exists st,
    ProcessTouches.extract a nch (first :: rows) = Some st /\
    In (mkTouch 0 (Z.of_nat ch)
          (ProcessTouches.s_time rise - ProcessTouches.s_time first)
          (ProcessTouches.s_time rel - ProcessTouches.s_time rise))
       (ProcessTouches.st_touches st).
Proof.
  intros Hgiven Hsplit Hfirst Hch Hp Hr Hh Hrel.
  destruct (ExtractFacts.extract_returns a nch first rows Hfirst) as [st Hst].
  exists st. split; [exact Hst|].
  unfold ProcessTouches.extract in Hst.
  apply (ChannelView.for_row_view _ _ _ _ _ _ ch _ _ Hch) in Hst.
  rewrite ScanFacts.view_start in Hst.
  destruct (ChannelScan.split_rows _ _ _ _ _ Hsplit) as (l1 & -> & Hlast & _ & _).
  rewrite ChannelScan.chan_rows_app, Hlast in Hst.
  destruct (chan_rows a (ProcessTouches.s_time first) ch 1 first l1 (mkChan [] None []))
    as [v1|] eqn:Hv1; [|discriminate].
  destruct (ChannelScan.chan_rows_grows _ _ _ _ _ _ _ _ Hv1 (ChannelScan.good_start a ch))
    as (G1 & _ & _).
  destruct (ChannelScan.chan_completed _ _ _ _ _ _ _ _ _ _ _ Hst Hp Hr Hh Hrel G1)
    as (_ & v3 & [t Ht] & _ & ts & lg & Hv3).
  rewrite Hgiven in Hv3.
  replace (ProcessTouches.s_time rel - ProcessTouches.s_time first -
           (ProcessTouches.s_time rise - ProcessTouches.s_time first))
    with (ProcessTouches.s_time rel - ProcessTouches.s_time rise) in Hv3 by lia.
  apply (ScanFacts.view_touch ch st); [reflexivity|]. rewrite Ht.
  apply in_or_app. left.
  destruct ((_ <? _) && _) in Hv3; subst v3; cbn [c_touches];
    apply in_or_app; right; now left.
Qed.

Lemma no_threshold_keeps_every_touch_witness :
  exists st,
    ProcessTouches.extract (ProcessTouches.mkArgs None false) 14
      [ProcessTouches.mkSample 0 [];
       ProcessTouches.mkSample 300 (repeat false 13 ++ [true]);
       ProcessTouches.mkSample 350 []] = Some st /\
    In (mkTouch 0 13 300 50) (ProcessTouches.st_touches st).
Proof.
  apply (no_threshold_keeps_every_touch (ProcessTouches.mkArgs None false) 14
           (ProcessTouches.mkSample 0 [])
           [ProcessTouches.mkSample 300 (repeat false 13 ++ [true]);
            ProcessTouches.mkSample 350 []]
           [] (ProcessTouches.mkSample 0 [])
           (ProcessTouches.mkSample 300 (repeat false 13 ++ [true]))
           [] (ProcessTouches.mkSample 350 []) [] 13);
    [reflexivity | reflexivity | reflexivity | lia | reflexivity | reflexivity
     | constructor | reflexivity].
Defined.

(** X12.  When the time stamps of the samples never go back, every extracted
    touch has index 0, a channel of the scanned range, and a start time and a
    duration that are not negative. *)
Theorem extracted_touches_well_formed (a : ProcessTouches.args) (nch : nat)
    (first : ProcessTouches.sample) (rows : list ProcessTouches.sample) :
  ProcessTouches.first_row_touched first = false ->
  Sorted (fun x y => ProcessTouches.s_time x <= ProcessTouches.s_time y)
         (first :: rows) ->
  exists st,
    ProcessTouches.extract a nch (first :: rows) = Some st /\
    Forall (fun x => t_index x = 0 /\ 0 <= t_ch x < Z.of_nat nch /\
                     0 <= t_time x /\ 0 <= t_dur x)
           (ProcessTouches.st_touches st).
Proof.
  intros Hfirst Hs.
  destruct (ExtractFacts.extract_returns a nch first rows Hfirst) as [st Hst].
  exists st. split; [exact Hst|].
  unfold ProcessTouches.extract in Hst.
  apply (ScanMore.for_row_inv _ _ nch _ _ _ _ _ Hs) in Hst as [_ H]; [assumption|lia|].
  split; [|constructor]. cbn [ProcessTouches.st_temp]. intros ch t.
  rewrite lookup_empty. discriminate.
Qed.

Lemma extracted_touches_well_formed_witness :
  exists st,
    ProcessTouches.extract (ProcessTouches.mkArgs None false) 1
      [ProcessTouches.mkSample 0 [false]; ProcessTouches.mkSample 10 [true];
       ProcessTouches.mkSample 30 [false]] = Some st /\
    Forall (fun x => t_index x = 0 /\ 0 <= t_ch x < 1 /\
                     0 <= t_time x /\ 0 <= t_dur x)
           (ProcessTouches.st_touches st).
Proof.
  apply (extracted_touches_well_formed (ProcessTouches.mkArgs None false) 1
           (ProcessTouches.mkSample 0 [false])
           [ProcessTouches.mkSample 10 [true]; ProcessTouches.mkSample 30 [false]]);
    [reflexivity|].
  repeat constructor; simpl; lia.
Defined.

(** X13.  Every release of a channel is accounted for: the extracted touches
    of the channel and the deletions logged about it are together as many as
    the samples in which the channel is untouched right after a sample in
    which it is touched.  Without a threshold on the command line the
    touches alone are that many. *)
Theorem one_touch_per_release (a : ProcessTouches.args) (nch : nat)
    (first : ProcessTouches.sample) (rows : list ProcessTouches.sample)
    (ch : nat) :
  ProcessTouches.first_row_touched first = false ->
  (ch < nch)%nat ->
  exists st,
    ProcessTouches.extract a nch (first :: rows) = Some st /\
    (length (on_channel (Z.of_nat ch) (ProcessTouches.st_touches st)) +
     length (filter is_deleteb (filter (about ch) (ProcessTouches.st_log st)))
     = falls ch first rows)%nat /\
    (ProcessTouches.threshold_given a = false ->
     length (on_channel (Z.of_nat ch) (ProcessTouches.st_touches st))
     = falls ch first rows).
Proof.
  intros Hfirst Hch.
  destruct (ExtractFacts.extract_returns a nch first rows Hfirst) as [st Hst].
  exists st. split; [exact Hst|].
  unfold ProcessTouches.extract in Hst.
  apply (ChannelView.for_row_view _ _ _ _ _ _ ch _ _ Hch) in Hst.
  rewrite ScanFacts.view_start in Hst.
  pose proof (ScanMore.chan_rows_falls _ _ _ _ _ _ _ _ Hst) as Hcount.
  cbn [view c_touches c_log length filter] in Hcount.
  split; [lia|]. intros Hgiven.
  destruct (ChannelScan.chan_rows_grows _ _ _ _ _ _ _ _ Hst (ChannelScan.good_start a ch))
    as ((_ & G2 & _) & _ & _).
  specialize (G2 Hgiven). cbn [view c_log] in G2.
  assert (Hnone : filter is_deleteb (filter (about ch) (ProcessTouches.st_log st)) = []).
  { induction (filter (about ch) (ProcessTouches.st_log st)) as [|e l IH];
      [reflexivity|].
    inversion G2 as [|? ? He Hl]; subst. simpl.
    destruct e; simpl in *; try (now apply IH). exfalso. now apply He. }
  rewrite Hnone in Hcount. simpl in Hcount. lia.
Qed.

Lemma one_touch_per_release_witness :
  exists st,
    ProcessTouches.extract (ProcessTouches.mkArgs None false) 1
      [ProcessTouches.mkSample 0 [false]; ProcessTouches.mkSample 10 [true];
       ProcessTouches.mkSample 30 [false]; ProcessTouches.mkSample 40 [true];
       ProcessTouches.mkSample 90 [false]] = Some st /\
    length (on_channel 0 (ProcessTouches.st_touches st)) = 2%nat.
Proof.
  destruct (one_touch_per_release (ProcessTouches.mkArgs None false) 1
              (ProcessTouches.mkSample 0 [false])
              [ProcessTouches.mkSample 10 [true]; ProcessTouches.mkSample 30 [false];
               ProcessTouches.mkSample 40 [true]; ProcessTouches.mkSample 90 [false]]
              0 eq_refl (Nat.lt_succ_diag_r 0)) as (st & Hst & _ & Hn).
  exists st. split; [exact Hst | exact (Hn eq_refl)].
Defined.

(** * Further properties of one file and of the batch *)

Module FileMore.
Import ProcessTouches.

Lemma renumber_nth (from : Z) (touches : list touch) (i : nat) (x : touch) :
  nth_error touches i = Some x ->
  nth_error (renumber from touches) i
    = Some (mkTouch (from + Z.of_nat i) (t_ch x) (t_time x) (t_dur x)).
Proof.
  revert from i. induction touches as [|y l IH]; intros from i H.
  - destruct i; discriminate.
  - destruct i as [|i]; simpl in *.
    + injection H as ->. now rewrite Z.add_0_r.
    + rewrite (IH _ _ H). do 2 f_equal. lia.
Qed.

Lemma renumber_length (from : Z) (touches : list touch) :
  length (renumber from touches) = length touches.
Proof.
  revert from. induction touches as [|y l IH]; intros from; simpl; [reflexivity|].
  now rewrite IH.
Qed.

Lemma renumber_In (from : Z) (touches : list touch) (x : touch) :
  In x (renumber from touches) ->
  exists y, In y touches /\ t_ch x = t_ch y /\ t_time x = t_time y /\
            t_dur x = t_dur y.
Proof.
  revert from. induction touches as [|y l IH]; intros from; simpl; [intros []|].
  intros [<-|H].
  - exists y. simpl. auto.
  - destruct (IH _ H) as (z & Hz & E). exists z. auto.
Qed.

Lemma renumber_sorted (from : Z) (touches : list touch) :
  StronglySorted time_le touches -> StronglySorted time_le (renumber from touches).
Proof.
  revert from. induction touches as [|y l IH]; intros from Hs; simpl; [constructor|].
  inversion Hs as [|? ? Hs' Hf]; subst. constructor; [now apply IH|].
  rewrite Forall_forall in *. intros x Hx.
  apply renumber_In in Hx as (z & Hz & _ & Et & _).
  specialize (Hf z Hz). unfold time_le in *. simpl. lia.
Qed.

Lemma log_repeated_length (deleted : list touch) :
  (length (log_repeated deleted) <= length deleted)%nat.
Proof.
  unfold log_repeated. destruct (any deleted); [rewrite length_map|simpl]; lia.
Qed.

Lemma log_double_length (deleted : list touch) :
  (length (log_double deleted) <= length deleted)%nat.
Proof.
  unfold log_double. destruct (any deleted); [rewrite length_map|simpl]; lia.
Qed.

(** The filtering block returns; what it hands on are rows of its input, in
    start-time order when its input is, and it logs at most one line for
    each row it drops. *)
Lemma filter_touches_spec (a : args) (touches : list touch) :
  exists out log,
    filter_touches a touches = Done (out, log) /\
    incl out touches /\
    (length out + length log <= length touches)%nat /\
    (arg_no_filter a = true -> out = touches /\ log = []) /\
    (arg_no_filter a = false -> StronglySorted time_le out).
Proof.
  unfold filter_touches. destruct (arg_no_filter a).
  - exists touches, []. split; [reflexivity|]. split; [apply incl_refl|].
    split; [simpl; lia|]. split; [auto | discriminate].
  - destruct (RepeatedTouchesFacts.repeated_touches_spec touches 150)
      as (no_rt & d1 & H1 & Hp1 & Hs1 & _ & _).
    rewrite H1.
    destruct (DoubleElectrodeFacts.double_electrode_spec no_rt)
      as (no_de & d2 & H2 & Hc2 & _ & Hp2).
    rewrite H2. exists no_de, (log_repeated d1 ++ log_double d2).
    split; [reflexivity|].
    destruct (Hp2 (proj2 (time_ordered_strongly _) Hs1)) as [Hperm Hso].
    split; [|split; [|split; [discriminate|]]].
    + intros x Hx. eapply Permutation_in; [exact Hp1|].
      apply in_or_app. left. eapply Permutation_in; [exact Hperm|].
      apply in_or_app. now left.
    + pose proof (Permutation_length Hp1) as L1. rewrite length_app in L1.
      pose proof (log_repeated_length d1). pose proof (log_double_length d2).
      rewrite length_app. lia.
    + intros _. now apply time_ordered_strongly.
Qed.


Lemma for_filename_prefix (a : args) (file_list : list (string * list raw_row))
    (written : list (string * list touch)) (log : list (string * log_entry)) :
  exists k new,
    b_written (for_filename a file_list written log) = written ++ new /\
    map fst new = firstn k (map fst file_list) /\
    (k <= length file_list)%nat /\
    (b_status (for_filename a file_list written log) = Finished <->
     k = length file_list) /\
    (b_status (for_filename a file_list written log) = Finished ->
     b_errors (for_filename a file_list written log) = []) /\
    (b_status (for_filename a file_list written log) = ExitCode1 ->
     exists data cause,
       nth_error file_list k = Some (data) /\
       b_errors (for_filename a file_list written log) = [(fst data, cause)]).
Proof.
  revert written log.
  induction file_list as [|[filename data] file_list IH]; intros written log.
  - exists O, []. cbn. rewrite app_nil_r.
    repeat split; try reflexivity; try lia; discriminate.
  - cbn [for_filename]. destruct (process_file a data) as [cause| |t lines m].
    + exists O, []. cbn. rewrite app_nil_r.
      split; [reflexivity|]. split; [reflexivity|]. split; [lia|].
      split; [split; [discriminate | lia]|].
      split; [discriminate|]. intros _. exists (filename, data), cause. auto.
    + exists O, []. cbn. rewrite app_nil_r.
      split; [reflexivity|]. split; [reflexivity|]. split; [lia|].
      split; [split; [discriminate | lia]|]. split; discriminate.
    + destruct (IH (written ++ [(filename, t)])
                   (log ++ map (fun l => (filename, l)) lines))
        as (k & new & Hw & Hn & Hk & Hfin & Herr & Hexit).
      exists (S k), ((filename, t) :: new). rewrite Hw, <- app_assoc.
      split; [reflexivity|]. split; [cbn; now rewrite Hn|].
      split; [simpl; lia|]. split; [rewrite Hfin; simpl; lia|].
      split; [assumption|]. exact Hexit.
Qed.

End FileMore.

(** X14.  Renumbering gives row [i] (counted from 0) the index [i + 1] and
    leaves its channel, start time and duration as they are. *)
Theorem renumber_gives_positions (touches : list touch) (i : nat) (x : touch) :
  nth_error touches i = Some x ->
  nth_error (ProcessTouches.renumber 1 touches) i
    = Some (mkTouch (Z.of_nat i + 1) (t_ch x) (t_time x) (t_dur x)) /\
  length (ProcessTouches.renumber 1 touches) = length touches.
Proof.
  intros H. split; [|apply FileMore.renumber_length].
  rewrite (FileMore.renumber_nth 1 touches i x H). do 2 f_equal. lia.
Qed.

Lemma renumber_gives_positions_witness :
  nth_error (ProcessTouches.renumber 1 [mkTouch 0 47 10 290; mkTouch 0 0 400 100]) 1
    = Some (mkTouch 2 0 400 100).
Proof.
  exact (proj1 (renumber_gives_positions
                  [mkTouch 0 47 10 290; mkTouch 0 0 400 100] 1
                  (mkTouch 0 0 400 100) eq_refl)).
Defined.

(** X15.  The table saved for a file is in start-time order and its rows are
    numbered 1, 2, 3, ... from the top, with or without the filters. *)
Theorem saved_table_ordered_and_numbered (a : ProcessTouches.args)
    (data : list ProcessTouches.raw_row) (touches : list touch)
    (log : list ProcessTouches.log_entry) (temp : gmap nat Z) :
  ProcessTouches.process_file a data = ProcessTouches.Saved touches log temp ->
  time_ordered touches /\
  forall i x, nth_error touches i = Some x -> t_index x = Z.of_nat i + 1.
Proof.
  unfold ProcessTouches.process_file. intros H.
  destruct (negb (ProcessTouches.rectangular data)); [discriminate|].
  destruct (ProcessTouches.temp_data_rows data <=? 1)%nat; [discriminate|].
  destruct (ProcessTouches.decode (ProcessTouches.n_MPR121s data) data)
    as [[|first newdata]|]; try discriminate.
  destruct (ProcessTouches.first_row_touched first); [discriminate|].
  destruct (ProcessTouches.extract a (ProcessTouches.n_MPR121s data * 12)
              (first :: newdata)) as [st|]; [|discriminate].
  destruct (FileMore.filter_touches_spec a (argsort_time (ProcessTouches.st_touches st)))
    as (out & log2 & Hf & _ & _ & Hnf & Hfl).
  rewrite Hf in H. injection H as <- _ _.
  assert (Hs : StronglySorted time_le out).
  { destruct (ProcessTouches.arg_no_filter a).
    - destruct (Hnf eq_refl) as [-> _]. apply argsort_time_sorted.
    - now apply Hfl. }
  split; [apply time_ordered_strongly, FileMore.renumber_sorted, Hs|].
  intros i x Hx.
  assert (Hlt : (i < length out)%nat).
  { rewrite <- (FileMore.renumber_length 1). apply nth_error_Some. rewrite Hx.
    discriminate. }
  destruct (nth_error out i) as [y|] eqn:Hy;
    [|apply nth_error_None in Hy; lia].
  rewrite (FileMore.renumber_nth 1 out i y Hy) in Hx. injection Hx as <-.
  simpl. lia.
Qed.

Lemma saved_table_ordered_and_numbered_witness :
  time_ordered [mkTouch 1 47 10 290; mkTouch 2 0 400 100].
Proof.
  refine (proj1 (saved_table_ordered_and_numbered
                   (ProcessTouches.mkArgs None false)
                   [ProcessTouches.mkRaw 0 [0; 0; 0; 0];
                    ProcessTouches.mkRaw 10 [0; 0; 0; 2048];
                    ProcessTouches.mkRaw 300 [0; 0; 0; 0];
                    ProcessTouches.mkRaw 400 [1; 0; 0; 0];
                    ProcessTouches.mkRaw 500 [0; 0; 0; 0]]
                   [mkTouch 1 47 10 290; mkTouch 2 0 400 100] [] ∅ _)).
  vm_compute. reflexivity.
Defined.





(** X18.  In a run over a list of files the tables are written for the first
    files of the list, in the order of the list, up to the first file that
    fails; the run finishes exactly when every file got its table, then with
    no error message, and when it exits with status 1 the one message names
    the first file without a table. *)
Theorem batch_writes_a_prefix (a : ProcessTouches.args)
    (file_list : list (string * list ProcessTouches.raw_row)) :
  exists k,
    map fst (ProcessTouches.b_written (ProcessTouches.process_touches a file_list))
      = firstn k (map fst file_list) /\
    (k <= length file_list)%nat /\
    (ProcessTouches.b_status (ProcessTouches.process_touches a file_list)
       = ProcessTouches.Finished <-> k = length file_list) /\
    (ProcessTouches.b_status (ProcessTouches.process_touches a file_list)
       = ProcessTouches.Finished ->
     ProcessTouches.b_errors (ProcessTouches.process_touches a file_list) = []) /\
    (ProcessTouches.b_status (ProcessTouches.process_touches a file_list)
       = ProcessTouches.ExitCode1 ->
     exists file cause,
       nth_error file_list k = Some file /\
       ProcessTouches.b_errors (ProcessTouches.process_touches a file_list)
         = [(fst file, cause)]).
Proof.
  unfold ProcessTouches.process_touches.
  destruct (FileMore.for_filename_prefix a file_list [] [])
    as (k & new & Hw & Hn & Hk & Hfin & Herr & Hexit).
  exists k. rewrite Hw. simpl. auto.
Qed.

Lemma batch_writes_a_prefix_witness :
  ProcessTouches.b_errors
    (ProcessTouches.process_touches (ProcessTouches.mkArgs None false)
       [("b_raw.txt"%string,
         [ProcessTouches.mkRaw 0 [0]; ProcessTouches.mkRaw 10 [1];
          ProcessTouches.mkRaw 30 [0]])]) = [].
Proof.
  destruct (batch_writes_a_prefix (ProcessTouches.mkArgs None false)
              [("b_raw.txt"%string,
                [ProcessTouches.mkRaw 0 [0]; ProcessTouches.mkRaw 10 [1];
                 ProcessTouches.mkRaw 30 [0]])]) as (k & _ & _ & _ & Herr & _).
  apply Herr. vm_compute. reflexivity.
Defined.

(** * The statistics of a trial *)

Module SummarizeFacts.
Import Summarize.

Lemma counted_cons (P : Z -> bool) (touches : list touch) (c : Z) (u : list Z) :
  counted P touches (c :: u) =
    ((if P c then length (on_channel c touches) else 0) + counted P touches u)%nat.
Proof.
  unfold counted. simpl. destruct (P c); [|reflexivity].
  simpl. now rewrite length_app.
Qed.

Lemma parity_exclusive (ch : Z) : even_band ch = true -> odd_band ch = false.
Proof.
  unfold even_band, odd_band. destruct (in_band ch); [|reflexivity]. simpl.
  intros H. apply Z.eqb_eq in H. rewrite H. reflexivity.
Qed.

(** The counting loop, when it does not raise, adds to [left] the touches on
    the odd channels of the band and to [right] those on the even ones. *)
Lemma count_faults_Some (touches : list touch) (u : list Z) (l r l' r' : nat) :
  count_faults touches u l r = Some (l', r') ->
  l' = (l + counted odd_band touches u)%nat /\
  r' = (r + counted even_band touches u)%nat /\
  Forall (fun c => -48 <= c < 48) u.
Proof.
  revert l r. induction u as [|c u IH]; intros l r H.
  - injection H as <- <-. unfold counted. simpl. split; [lia|]. split; [lia|constructor].
  - cbn [count_faults] in H.
    destruct ((-48 <=? c) && (c <? 48)) eqn:Er; [|discriminate].
    apply andb_true_iff in Er as [Er1 Er2]. apply Z.leb_le in Er1. apply Z.ltb_lt in Er2.
    rewrite !counted_cons.
    change ((finish_ch <? c) && (c <? start_ch)) with (in_band c) in H.
    change (in_band c && (c mod 2 =? 0)) with (even_band c) in H.
    change (1 <? start_ch) with true in H. rewrite andb_true_r in H.
    change (in_band c && (c mod 2 =? 1)) with (odd_band c) in H.
    destruct (even_band c) eqn:Ee.
    + rewrite (parity_exclusive c Ee). apply IH in H as (-> & -> & Hf).
      split; [lia|]. split; [lia|]. constructor; [lia | assumption].
    + destruct (odd_band c); apply IH in H as (-> & -> & Hf);
        (split; [lia|]); (split; [lia|]); (constructor; [lia | assumption]).
Qed.

Lemma count_faults_in_range (touches : list touch) (u : list Z) (l r : nat) :
  Forall (fun c => -48 <= c < 48) u ->
  exists l' r', count_faults touches u l r = Some (l', r').
Proof.
  intros H. revert l r. induction H as [|c u [H1 H2] _ IH]; intros l r.
  - eexists _, _. reflexivity.
  - cbn [count_faults].
    replace ((-48 <=? c) && (c <? 48)) with true.
    2:{ symmetry. apply andb_true_iff. split; [apply Z.leb_le | apply Z.ltb_lt]; lia. }
    destruct (_ && (c mod 2 =? 0)); [apply IH|].
    destruct (_ && (c mod 2 =? 1)); apply IH.
Qed.

Lemma count_faults_out_of_range (touches : list touch) (u : list Z) (l r : nat) :
  Exists (fun c => c < -48 \/ 48 <= c) u -> count_faults touches u l r = None.
Proof.
  intros H. revert l r. induction H as [c u Hc|c u _ IH]; intros l r;
    cbn [count_faults].
  - replace ((-48 <=? c) && (c <? 48)) with false; [reflexivity|].
    symmetry. apply andb_false_iff.
    destruct Hc; [left; apply Z.leb_gt | right; apply Z.ltb_ge]; lia.
  - destruct ((-48 <=? c) && (c <? 48)); [|reflexivity].
    destruct (_ && (c mod 2 =? 0)); [apply IH|].
    destruct (_ && (c mod 2 =? 1)); apply IH.
Qed.

(** Counting channel by channel is counting row by row. *)
Lemma counted_rows (P : Z -> bool) (touches : list touch) :
  counted P touches (np_unique (map t_ch touches))
  = length (filter (fun x => P (t_ch x)) touches).
Proof.
  unfold counted.
  rewrite (Permutation_length
             (RepeatedTouchesFacts.flat_map_on_channel _ touches
                (NoDup_filter P (np_unique_NoDup (map t_ch touches))))).
  f_equal. apply filter_ext_in. intros x Hx.
  destruct (P (t_ch x)) eqn:E.
  - apply RepeatedTouchesFacts.mask_true, filter_In. split; [|assumption].
    apply np_unique_In. now apply in_map.
  - destruct (RepeatedTouches.mask _ x) eqn:Em; [|reflexivity].
    apply RepeatedTouchesFacts.mask_true, filter_In in Em as [_ Em]. congruence.
Qed.

Lemma band_parity (touches : list touch) :
  (length (filter (fun x => odd_band (t_ch x)) touches) +
   length (filter (fun x => even_band (t_ch x)) touches)
   = length (filter (fun x => in_band (t_ch x)) touches))%nat.
Proof.
  induction touches as [|x l IH]; [reflexivity|]. simpl.
  unfold odd_band, even_band in *. destruct (in_band (t_ch x)); simpl; [|exact IH].
  pose proof (Z.mod_pos_bound (t_ch x) 2 ltac:(lia)) as Hm.
  destruct (Z.eqb_spec (t_ch x mod 2) 1) as [E1|E1],
           (Z.eqb_spec (t_ch x mod 2) 0) as [E0|E0]; simpl; lia.
Qed.

Lemma foot_faults_band (touches : list touch) :
  filter (fun x => finish_ch <? t_ch x) (filter (fun x => t_ch x <? start_ch) touches)
  = filter (fun x => in_band (t_ch x)) touches.
Proof.
  induction touches as [|x l IH]; [reflexivity|]. simpl. unfold in_band in *.
  destruct (t_ch x <? start_ch); simpl.
  - rewrite andb_true_r. destruct (finish_ch <? t_ch x); now rewrite IH.
  - now rewrite andb_false_r.
Qed.

(** The run of [summarize_trial] on a table that is not empty and whose
    channels fit the 48 columns. *)
Lemma summarize_trial_done (t0 : touch) (rest : list touch) :
  Forall (fun x => -48 <= t_ch x < 48) (t0 :: rest) ->
  exists st,
    summarize_trial (t0 :: rest) = Done st /\
    s_left st = length (filter (fun x => odd_band (t_ch x)) (t0 :: rest)) /\
    s_right st = length (filter (fun x => even_band (t_ch x)) (t0 :: rest)) /\
    s_total st = length (filter (fun x => in_band (t_ch x)) (t0 :: rest)) /\
    s_trav_time st = snd (fst (traversal (t0 :: rest) t0)) /\
    s_messages st = snd (traversal (t0 :: rest) t0) /\
    match filter (fun x => in_band (t_ch x)) (t0 :: rest) with
    | [] => s_dist_to_first st = None /\ s_time_to_first st = None
    | ff :: _ =>
        s_dist_to_first st = Some (100 - (t_ch ff / 2) * 4) /\
        s_time_to_first st =
          match fst (fst (traversal (t0 :: rest) t0)) with
          | Some start_time => Some (t_time ff - start_time)
          | None => None
          end
    end.
Proof.
  intros Hr.
  assert (Hu : Forall (fun c => -48 <= c < 48) (np_unique (map t_ch (t0 :: rest)))).
  { apply Forall_forall. intros c Hc. apply np_unique_In, in_map_iff in Hc as (x & <- & Hx).
    rewrite Forall_forall in Hr. now apply Hr. }
  destruct (count_faults_in_range (t0 :: rest) _ 0 0 Hu) as (l & r & Hc).
  destruct (count_faults_Some _ _ _ _ _ _ Hc) as (Hl & Hrr & _).
  rewrite !counted_rows, Nat.add_0_l in Hl, Hrr.
  pose proof (band_parity (t0 :: rest)) as Hpar.
  rewrite <- Hl, <- Hrr in *.
  unfold summarize_trial. cbv iota. rewrite Hc.
  destruct (traversal (t0 :: rest) t0) as [[start_time trav_time] messages] eqn:Htr.
  rewrite foot_faults_band.
  destruct (Nat.eqb_spec (l + r) 0) as [E0|E0]; cbn [negb].
  - eexists. split; [reflexivity|]. cbn [s_left s_right s_total s_trav_time
      s_messages s_dist_to_first s_time_to_first fst snd].
    split; [reflexivity|]. split; [reflexivity|]. split; [lia|].
    split; [reflexivity|]. split; [reflexivity|].
    destruct (filter (fun x => in_band (t_ch x)) (t0 :: rest));
      [auto | cbn [length] in Hpar; lia].
  - destruct (filter (fun x => in_band (t_ch x)) (t0 :: rest)) as [|ff ffs] eqn:Ef;
      [cbn [length] in Hpar; lia|].
    eexists. split; [reflexivity|]. cbn [s_left s_right s_total s_trav_time
      s_messages s_dist_to_first s_time_to_first fst snd].
    split; [reflexivity|]. split; [reflexivity|]. split; [lia|]. auto.
Qed.

Lemma summarize_trial_Done (touches : list touch) (st : stats) :
  summarize_trial touches = Done st ->
  exists t0 rest, touches = t0 :: rest /\
                  Forall (fun x => -48 <= t_ch x < 48) touches.
Proof.
  intros H. destruct touches as [|t0 rest]; [discriminate|].
  exists t0, rest. split; [reflexivity|].
  unfold summarize_trial in H.
  destruct (count_faults (t0 :: rest) (np_unique (map t_ch (t0 :: rest))) 0 0)
    as [[l r]|] eqn:Hc; [|discriminate].
  apply count_faults_Some in Hc as (_ & _ & Hf).
  rewrite Forall_forall in *. intros x Hx. apply Hf, np_unique_In. now apply in_map.
Qed.

Lemma traversal_spec (touches : list touch) (t0 : touch) :
  (snd (fst (traversal touches t0)) <> None <->
   on_channel start_ch touches <> [] /\ on_channel finish_ch touches <> []) /\
  (forall pre s f post,
     on_channel start_ch touches = pre ++ [s] ->
     on_channel finish_ch touches = f :: post ->
     snd (fst (traversal touches t0)) = Some (t_time f + t_dur f - t_time s)) /\
  (on_channel start_ch touches = [] -> snd (traversal touches t0) = [NoStartTouch]) /\
  (on_channel start_ch touches <> [] -> on_channel finish_ch touches = [] ->
   snd (traversal touches t0) = [NoFinishTouch]).
Proof.
  unfold traversal.
  destruct (on_channel start_ch touches) as [|s0 srest] eqn:Es.
  - cbn. split; [split; [congruence | intros [H _]; congruence]|].
    split; [intros pre s f post H; destruct pre; discriminate|].
    split; [reflexivity | congruence].
  - destruct (on_channel finish_ch touches) as [|f0 frest] eqn:Ef.
    + cbn [fst snd]. split; [split; [congruence | intros [_ H]; congruence]|].
      split; [discriminate|]. split; [discriminate | reflexivity].
    + cbn [fst snd]. split; [split; [intros _; split; discriminate | discriminate]|].
      split; [|split; [discriminate | congruence]].
      intros pre s f post Hs [= -> ->]. rewrite Hs, last_last. reflexivity.
Qed.

End SummarizeFacts.

(** X19.  For a table of touches that is not empty and whose channels fit the
    48 columns, the statistics are computed: the total number of foot faults
    is the number of touches on channels strictly between finish and start,
    the left ones being those on odd channels and the right ones those on
    even channels. *)
Theorem foot_faults_counted (touches : list touch) :
  touches <> [] ->
  Forall (fun x => -48 <= t_ch x < 48) touches ->
  exists st,
    Summarize.summarize_trial touches = Done st /\
    Summarize.s_total st = length (filter (fun x => in_band (t_ch x)) touches) /\
    Summarize.s_left st = length (filter (fun x => odd_band (t_ch x)) touches) /\
    Summarize.s_right st = length (filter (fun x => even_band (t_ch x)) touches).
Proof.
  intros Hne Hr. destruct touches as [|t0 rest]; [contradiction|].
  destruct (SummarizeFacts.summarize_trial_done t0 rest Hr)
    as (st & H & Hl & Hrr & Ht & _).
  exists st. auto.
Qed.

Lemma foot_faults_counted_witness :
  exists st,
    Summarize.summarize_trial
      [mkTouch 1 47 10 290; mkTouch 2 13 300 50; mkTouch 3 12 320 60;
       mkTouch 4 0 400 100] = Done st /\
    Summarize.s_total st = 2%nat.
Proof.
  destruct (foot_faults_counted
              [mkTouch 1 47 10 290; mkTouch 2 13 300 50; mkTouch 3 12 320 60;
               mkTouch 4 0 400 100])
    as (st & H & Ht & _); [discriminate | repeat constructor; simpl; lia |].
  exists st. split; [exact H | exact Ht].
Defined.

(** X20.  The statistics of a trial raise exactly for an empty table and for
    a table with a channel outside the 48 columns (48 or more, or below
    -48); in particular the look-up of the first foot fault never fails. *)
Theorem summarize_raises_iff (touches : list touch) :
  Summarize.summarize_trial touches = Raised <->
  touches = [] \/ Exists (fun x => t_ch x < -48 \/ 48 <= t_ch x) touches.
Proof.
  split.
  - intros H. destruct touches as [|t0 rest]; [now left|]. right.
    destruct (Forall_Exists_dec (fun x => -48 <= t_ch x < 48)
                (fun x => match Z_le_dec (-48) (t_ch x), Z_lt_dec (t_ch x) 48 with
                          | left H1, left H2 => left (conj H1 H2)
                          | right H1, _ => right (fun H => H1 (proj1 H))
                          | _, right H2 => right (fun H => H2 (proj2 H))
                          end) (t0 :: rest)) as [Hall|Hex].
    + destruct (SummarizeFacts.summarize_trial_done t0 rest Hall) as (st & Hd & _).
      rewrite Hd in H. discriminate.
    + eapply Exists_impl; [|exact Hex]. simpl. intros x Hx. lia.
  - intros [->|Hex]; [reflexivity|].
    destruct touches as [|t0 rest]; [reflexivity|].
    unfold Summarize.summarize_trial.
    rewrite SummarizeFacts.count_faults_out_of_range; [reflexivity|].
    apply Exists_exists in Hex as (x & Hx & Hout).
    apply Exists_exists. exists (t_ch x). split; [|assumption].
    apply np_unique_In. now apply in_map.
Qed.

(** X21.  The traversal time of a trial is defined exactly when the table has
    a touch on the start channel and a touch on the finish channel; it is
    then the release time of the first touch on the finish channel less the
    start time of the last touch on the start channel.  A table without a
    touch on the start channel gets the one message saying so. *)
Theorem traversal_time_defined (touches : list touch) (st : Summarize.stats) :
  Summarize.summarize_trial touches = Done st ->
  (Summarize.s_trav_time st <> None <->
   on_channel start_ch touches <> [] /\ on_channel finish_ch touches <> []) /\
  (forall pre s f post,
     on_channel start_ch touches = pre ++ [s] ->
     on_channel finish_ch touches = f :: post ->
     Summarize.s_trav_time st = Some (t_time f + t_dur f - t_time s)) /\
  (on_channel start_ch touches = [] ->
   Summarize.s_messages st = [Summarize.NoStartTouch]).
Proof.
  intros H.
  destruct (SummarizeFacts.summarize_trial_Done _ _ H) as (t0 & rest & -> & Hr).
  destruct (SummarizeFacts.summarize_trial_done t0 rest Hr)
    as (st' & Hd & _ & _ & _ & Htr & Hm & _).
  rewrite Hd in H. injection H as ->. rewrite Htr, Hm.
  destruct (SummarizeFacts.traversal_spec (t0 :: rest) t0) as (H1 & H2 & H3 & _).
  auto.
Qed.

Lemma traversal_time_defined_witness :
  Summarize.summarize_trial
    [mkTouch 1 47 10 290; mkTouch 2 13 300 50; mkTouch 3 0 400 100]
  = Done (Summarize.mkStats 1 1 0 (Some 490) (Some 290) (Some 76) []) /\
  Some 490 = Some (400 + 100 - 10).
Proof.
  assert (H : Summarize.summarize_trial
                [mkTouch 1 47 10 290; mkTouch 2 13 300 50; mkTouch 3 0 400 100]
              = Done (Summarize.mkStats 1 1 0 (Some 490) (Some 290) (Some 76) []))
    by reflexivity.
  split; [exact H|].
  exact (proj1 (proj2 (traversal_time_defined _ _ H))
           [] (mkTouch 1 47 10 290) (mkTouch 3 0 400 100) [] eq_refl eq_refl).
Defined.

(** X22.  When a trial has a foot fault, the distance to the first one is
    100 less 4 for every two channels of the first touch strictly between
    finish and start, a number from 8 to 100; when it has none, the total is
    0 and the distance and the time to the first foot fault are undefined. *)
Theorem first_foot_fault (touches : list touch) (st : Summarize.stats) :
  Summarize.summarize_trial touches = Done st ->
  match filter (fun x => in_band (t_ch x)) touches with
  | [] =>
      Summarize.s_total st = 0%nat /\
      Summarize.s_dist_to_first st = None /\
      Summarize.s_time_to_first st = None
  | ff :: _ =>
      Summarize.s_dist_to_first st = Some (100 - (t_ch ff / 2) * 4) /\
      8 <= 100 - (t_ch ff / 2) * 4 <= 100
  end.
Proof.
  intros H.
  destruct (SummarizeFacts.summarize_trial_Done _ _ H) as (t0 & rest & -> & Hr).
  destruct (SummarizeFacts.summarize_trial_done t0 rest Hr)
    as (st' & Hd & _ & _ & Ht & _ & _ & Hff).
  rewrite Hd in H. injection H as ->.
  destruct (filter (fun x => in_band (t_ch x)) (t0 :: rest)) as [|ff ffs] eqn:Ef.
  - destruct Hff. auto.
  - destruct Hff as [Hdist _]. split; [assumption|].
    assert (Hin : In ff (filter (fun x => in_band (t_ch x)) (t0 :: rest)))
      by (rewrite Ef; now left).
    apply filter_In in Hin as [_ Hb]. unfold in_band, finish_ch, start_ch in Hb.
    apply andb_true_iff in Hb as [H0 H47]. apply Z.ltb_lt in H0, H47.
    pose proof (Z.div_mod (t_ch ff) 2 ltac:(lia)) as Hdm.
    pose proof (Z.mod_pos_bound (t_ch ff) 2 ltac:(lia)) as Hmb.
    lia.
Qed.

Lemma first_foot_fault_witness :
  Summarize.s_dist_to_first (Summarize.mkStats 1 1 0 (Some 490) (Some 290) (Some 76) [])
    = Some (100 - (13 / 2) * 4).
Proof.
  exact (proj1 (first_foot_fault
                  [mkTouch 1 47 10 290; mkTouch 2 13 300 50; mkTouch 3 0 400 100]
                  (Summarize.mkStats 1 1 0 (Some 490) (Some 290) (Some 76) [])
                  eq_refl)).
Defined.

Lemma summarize_raises_iff_witness :
  Summarize.summarize_trial [mkTouch 1 48 10 290] = Raised.
Proof.
  apply (proj2 (summarize_raises_iff [mkTouch 1 48 10 290])).
  right. constructor. right. simpl. lia.
Defined.
